(** * gobonsai: entity registry, collision engine and physics system

    A shallow embedding of [ecs.go], [collisions.go], the physics system
    and the animation state machine of the gobonsai engine, with the
    properties its design document states about them.

    Conventions of the embedding
    - [float64] is Rocq's primitive binary64 [float]; Go's [<], [>], [+],
      [*], [/] are the IEEE operations of [PrimFloat].
    - [uint32] (the [Entity] type and [lastEntityID]) is [N], with the
      wrap-around of [atomic.AddUint32] written out.
    - a [sync.Map] is a [gmap]; [Range] walks [map_to_list], one of the
      orders Go allows (Go leaves the order open and visits no key twice).
    - an [interface{}] value is the tagged union [Component]; a type
      assertion is a pattern match, and Go's [nil] is [NilVal].
    - the receiver [em] and the package singleton [Mecs] are the same
      registry, as [Init] and [HeadlessInit] set them up, so the methods of
      [Entity] take the registry as an argument.
    - a component held by pointer is owned by one (entity, name) slot, so a
      write through the pointer is an update of that slot; stored pointers
      are not nil.
    - every floating-point operation rounds on its own (no fused
      multiply-add), as the Go compiler does on amd64.
    - collision callbacks are code of the game, not of the engine: a tick
      is described by the calls it makes, and the callbacks are taken not
      to change the registry while the tick runs. *)

From Stdlib Require Import Floats.
From Stdlib Require Import Ascii Decimal DecimalString DecimalN.
From stdpp Require Import gmap strings list fin_maps.

(** ** Data model ([ecs.go])

    Field names are those of the Go structs, except where two structs
    share one: [X], [Y] are [pX], [pY] in a position and [vX], [vY] in a
    velocity, and [Width], [Height] of a collider are [cWidth], [cHeight]. *)

Abbreviation Entity := N.

Definition uint32_mod : N := 4294967296.

Record PositionComponent := { pX : float; pY : float }.

Record VelocityComponent := { vX : float; vY : float }.

Record SizeComponent := {
  Width : float;
  Height : float;
  TopOffset : float;
  BottomOffset : float;
  LeftOffset : float;
  RightOffset : float
}.

Record ColliderComponent := {
  Group : string;
  CrossShape : bool;
  OffsetX : float;
  OffsetY : float;
  cWidth : float;
  cHeight : float;
  HorizWidth : float;
  HorizHeight : float;
  VertWidth : float;
  VertHeight : float
}.

(** [type Component interface{}]: the dynamic types the engine stores. *)
Inductive Component :=
| NilVal
| PtrPosition (p : PositionComponent)
| PtrVelocity (v : VelocityComponent)
| PtrSize (s : SizeComponent)
| PtrCollider (c : ColliderComponent)
| BoolVal (b : bool)
| StringVal (s : string)
| FuncVal (label : string)
| OtherVal (tag : string).

(** Keys of [indentToEntity]: [AddEntity] stores [string] keys,
    [FromSerializable] stores the [uint32] keys of [identMap]. *)
Inductive IdentKey :=
| StrKey (s : string)
| U32Key (n : N).

#[global] Instance IdentKey_eq_dec : EqDecision IdentKey.
Proof. solve_decision. Defined.

Definition IdentKey_to_sum (k : IdentKey) : string + N :=
  match k with StrKey s => inl s | U32Key n => inr n end.

Definition IdentKey_of_sum (k : string + N) : IdentKey :=
  match k with inl s => StrKey s | inr n => U32Key n end.

#[global] Instance IdentKey_countable : Countable IdentKey.
Proof.
  apply (inj_countable' IdentKey_to_sum IdentKey_of_sum).
  intros []; reflexivity.
Defined.

Record ECSManager := {
  lastEntityID : N;
  entities : gmap N bool;
  indentToEntity : gmap IdentKey N;
  components : gmap N (gmap string Component)
}.

(** What a Go call can do: return a value, return a non-nil [error], or
    panic. *)
Inductive Outcome (A : Type) :=
| Ok (a : A)
| Err (msg : string)
| Panic (msg : string).

Arguments Ok {A} a.
Arguments Err {A} msg.
Arguments Panic {A} msg.

(** ** [sync.Map.Range] *)

Fixpoint range_list {K V St : Type} (f : K → V → St → St * bool)
    (l : list (K * V)) (s : St) : St :=
  match l with
  | [] => s
  | (k, v) :: l' =>
      let '(s', continue) := f k v s in
      if continue then range_list f l' s' else s'
  end.

Definition Range `{Countable K} {V St : Type} (m : gmap K V)
    (f : K → V → St → St * bool) (s : St) : St :=
  range_list f (map_to_list m) s.

(** ** Entity registry *)

Definition NewECSManager : ECSManager :=
  {| lastEntityID := 0; entities := ∅; indentToEntity := ∅; components := ∅ |}.

(** [AddEntity(ident ...string)]: the variadic argument is a list. *)
Definition AddEntity (ident : list string) (em : ECSManager) : Entity * ECSManager :=
  let id := ((lastEntityID em + 1) mod uint32_mod)%N in
  (id,
   {| lastEntityID := id;
      entities := <[id := true]> (entities em);
      indentToEntity :=
        match ident with
        | i0 :: _ => <[StrKey i0 := id]> (indentToEntity em)
        | [] => indentToEntity em
        end;
      components := <[id := ∅]> (components em) |}).

(** The first key of [indentToEntity], in [Range] order, bound to [e]. *)
Definition first_ident_of (e : Entity) (m : gmap IdentKey N) : option IdentKey :=
  Range m (λ k v found, if (v =? e)%N then (Some k, false) else (found, true)) None.

Definition RemoveEntity (e : Entity) (em : ECSManager) : ECSManager :=
  {| lastEntityID := lastEntityID em;
     entities := delete e (entities em);
     indentToEntity :=
       match first_ident_of e (indentToEntity em) with
       | Some k => delete k (indentToEntity em)
       | None => indentToEntity em
       end;
     components := delete e (components em) |}.

Definition GetEntityByIdent (ident : string) (em : ECSManager) : Entity * bool :=
  match indentToEntity em !! StrKey ident with
  | Some e => (e, true)
  | None => (0%N, false)
  end.

Definition GetEntityByID (id : Entity) (em : ECSManager) : Entity * bool :=
  (id, bool_decide (is_Some (entities em !! id))).

Definition set_store (e : Entity) (cm : gmap string Component) (em : ECSManager)
    : ECSManager :=
  {| lastEntityID := lastEntityID em;
     entities := entities em;
     indentToEntity := indentToEntity em;
     components := <[e := cm]> (components em) |}.

(** [AddComponent] loads the store and asserts it to a [sync.Map] pointer
    without a check: that panics when the entity is listed but has no store. *)
Definition AddComponent (e : Entity) (name : string) (comp : Component)
    (em : ECSManager) : Outcome ECSManager :=
  match entities em !! e with
  | None => Ok em
  | Some _ =>
      match components em !! e with
      | None => Panic "interface conversion: interface {} is nil, not *sync.Map"
      | Some cm => Ok (set_store e (<[name := comp]> cm) em)
      end
  end.

Definition SetComponent (e : Entity) (name : string) (comp : Component)
    (em : ECSManager) : ECSManager :=
  match components em !! e with
  | None => em
  | Some cm => set_store e (<[name := comp]> cm) em
  end.

Definition GetComponent (em : ECSManager) (e : Entity) (name : string) : Component :=
  match components em !! e with
  | None => NilVal
  | Some cm => default NilVal (cm !! name)
  end.

Definition RemoveComponent (e : Entity) (name : string) (em : ECSManager)
    : ECSManager :=
  match components em !! e with
  | None => em
  | Some cm => set_store e (delete name cm) em
  end.

Definition HasComponent (em : ECSManager) (e : Entity) (name : string) : bool :=
  match components em !! e with
  | None => false
  | Some cm => bool_decide (is_Some (cm !! name))
  end.

(** The inner [for _, n := range names] of [GetEntitiesWithComponents]. *)
Fixpoint has_all (cm : gmap string Component) (names : list string) : bool :=
  match names with
  | [] => true
  | n :: names' =>
      match cm !! n with
      | None => false
      | Some _ => has_all cm names'
      end
  end.

(** The test [GetEntitiesWithComponents] makes on one entity. *)
Definition carries_all (em : ECSManager) (names : list string) (e : Entity) : bool :=
  match components em !! e with
  | None => false
  | Some cm => has_all cm names
  end.

Definition GetEntitiesWithComponents (em : ECSManager) (names : list string)
    : list Entity :=
  Range (entities em)
    (λ e _ result,
       match components em !! e with
       | None => (result, true)
       | Some cm =>
           if has_all cm names then (result ++ [e], true) else (result, true)
       end)
    [].

(** [RemoveEntities]: drop every entity without a "persistent" component. *)
Definition RemoveEntities (em : ECSManager) : ECSManager :=
  Range (entities em)
    (λ e _ acc,
       match GetComponent acc e "persistent" with
       | NilVal => (RemoveEntity e acc, true)
       | _ => (acc, true)
       end)
    em.

(** The values of Go's [uint32], and a registry whose entities are such
    values, as the type [Entity] grants. *)
Definition is_uint32 (n : N) : Prop := (n < uint32_mod)%N.

Definition uint32_ids (em : ECSManager) : Prop :=
  ∀ e, is_Some (entities em !! e) → is_uint32 e.

(** Every listed entity has a component store: [AddEntity] and
    [FromSerializable] create both, [RemoveEntity] deletes both. *)
Definition store_inv (em : ECSManager) : Prop :=
  ∀ e, is_Some (entities em !! e) → is_Some (components em !! e).

(** ** Serialization ([ecs.go], [encoding/gob])

    [gob] is a library outside the repository: its encoders and decoders
    are operations of the class [Gob], about which nothing is assumed.
    What is fixed is what the Go documentation fixes: only the exported
    fields of a struct are transmitted, so the codec of
    [SerializableECSManager] works on [ExportedECSManager], and the
    unexported [identMap] of a decoded value keeps its zero value. *)

Record SerializableECSManager := {
  LastEntityID : N;
  Entities : gmap N bool;
  Components : gmap N (gmap string Component);
  identMap : gmap N N
}.

Record ExportedECSManager := {
  xLastEntityID : N;
  xEntities : gmap N bool;
  xComponents : gmap N (gmap string Component)
}.

Record SerializableEntity := {
  ID : N;
  Ident : string;
  seComponents : gmap string Component
}.

Inductive GobResult (A : Type) :=
| GobOk (a : A)
| GobErr (msg : string).

Arguments GobOk {A} a.
Arguments GobErr {A} msg.

Class Gob := {
  gobEncodeManager : ExportedECSManager → GobResult (list Byte.byte);
  gobDecodeManager : list Byte.byte → GobResult ExportedECSManager;
  gobEncodeEntity : SerializableEntity → GobResult (list Byte.byte);
  gobDecodeEntity : list Byte.byte → GobResult SerializableEntity
}.

Definition exported (s : SerializableECSManager) : ExportedECSManager :=
  {| xLastEntityID := LastEntityID s;
     xEntities := Entities s;
     xComponents := Components s |}.

(** A decoded [SerializableECSManager]: the three exported fields come from
    the stream, [identMap] stays nil. *)
Definition received (x : ExportedECSManager) : SerializableECSManager :=
  {| LastEntityID := xLastEntityID x;
     Entities := xEntities x;
     Components := xComponents x;
     identMap := ∅ |}.

(** Go's [for k, v := range m] over a built-in map. *)
Definition for_range `{Countable K} {V St : Type} (m : gmap K V)
    (body : K → V → St → St) (s : St) : St :=
  foldl (λ s kv, body kv.1 kv.2 s) s (map_to_list m).

Definition copy_store (cm : gmap string Component) : gmap string Component :=
  Range cm (λ ck cv cMap, (<[ck := cv]> cMap, true)) ∅.

(** [ToSerializable] asserts every key of [indentToEntity] to [uint32];
    the assertion panics on the [string] keys [AddEntity] stores. *)
Definition ToSerializable (em : ECSManager) : Outcome SerializableECSManager :=
  let ents := Range (entities em) (λ k v acc, (<[k := v]> acc, true)) ∅ in
  let comps :=
    Range (components em) (λ e cm acc, (<[e := copy_store cm]> acc, true)) ∅ in
  let idents :=
    Range (indentToEntity em)
      (λ k v acc,
         match acc, k with
         | Ok m, U32Key n => (Ok (<[n := v]> m), true)
         | Ok _, StrKey _ =>
             (Panic "interface conversion: interface {} is string, not uint32",
              false)
         | _, _ => (acc, false)
         end)
      (Ok ∅) in
  match idents with
  | Ok im =>
      Ok {| LastEntityID := lastEntityID em;
            Entities := ents;
            Components := comps;
            identMap := im |}
  | Err msg => Err msg
  | Panic msg => Panic msg
  end.

Definition FromSerializable (data : SerializableECSManager) (em : ECSManager)
    : ECSManager :=
  let em1 :=
    for_range (Entities data)
      (λ e active acc,
         let cm :=
           match Components data !! e with
           | Some comps => for_range comps (λ n c cm, <[n := c]> cm) ∅
           | None => ∅
           end in
         {| lastEntityID := lastEntityID acc;
            entities := <[e := active]> (entities acc);
            indentToEntity := indentToEntity acc;
            components := <[e := cm]> (components acc) |})
      {| lastEntityID := LastEntityID data;
         entities := entities em;
         indentToEntity := indentToEntity em;
         components := components em |} in
  for_range (identMap data)
    (λ ident e acc,
       {| lastEntityID := lastEntityID acc;
          entities := entities acc;
          indentToEntity := <[U32Key ident := e]> (indentToEntity acc);
          components := components acc |})
    em1.

Definition Encode `{Gob} (em : ECSManager) : Outcome (list Byte.byte) :=
  match ToSerializable em with
  | Ok s =>
      match gobEncodeManager (exported s) with
      | GobOk bytes => Ok bytes
      | GobErr msg => Err msg
      end
  | Err msg => Err msg
  | Panic msg => Panic msg
  end.

(** [Decode] returns Go's [error] (here [Ok tt] is the nil error) and the
    registry it leaves behind. *)
Definition Decode `{Gob} (data : list Byte.byte) (em : ECSManager)
    : Outcome unit * ECSManager :=
  match gobDecodeManager data with
  | GobErr msg => (Err msg, em)
  | GobOk x => (Ok tt, FromSerializable (received x) em)
  end.

(** The [Range] of [EncodeEntity] over [indentToEntity]: the first key
    bound to [e] is asserted to [string]. *)
Definition ident_string_of (e : Entity) (m : gmap IdentKey N) : Outcome string :=
  Range m
    (λ k val acc,
       if (val =? e)%N then
         match k with
         | StrKey s => (Ok s, false)
         | U32Key _ =>
             (Panic "interface conversion: interface {} is uint32, not string",
              false)
         end
       else (acc, true))
    (Ok ""%string).

Definition EncodeEntity `{Gob} (e : Entity) (em : ECSManager)
    : Outcome (list Byte.byte) :=
  match components em !! e with
  | None => Panic "interface conversion: interface {} is nil, not *sync.Map"
  | Some cm =>
      let comps := copy_store cm in
      match ident_string_of e (indentToEntity em) with
      | Ok ident =>
          match gobEncodeEntity {| ID := e; Ident := ident; seComponents := comps |} with
          | GobOk bytes => Ok bytes
          | GobErr msg => Err msg
          end
      | Err msg => Err msg
      | Panic msg => Panic msg
      end
  end.

(** [for name, comp := range entityData.Components { target.AddComponent(name, comp) }] *)
Definition add_all (target : Entity) (comps : gmap string Component)
    (em : ECSManager) : Outcome ECSManager :=
  for_range comps
    (λ name comp acc,
       match acc with
       | Ok em' => AddComponent target name comp em'
       | _ => acc
       end)
    (Ok em).

Definition DecodeEntity `{Gob} (data : list Byte.byte) (em : ECSManager)
    : Outcome Entity * ECSManager :=
  match gobDecodeEntity data with
  | GobErr msg => (Err msg, em)
  | GobOk entityData =>
      let '(target, em1) :=
        if String.eqb (Ident entityData) "" then AddEntity [] em
        else
          match GetEntityByIdent (Ident entityData) em with
          | (ex, true) => (ex, em)
          | (_, false) => AddEntity [Ident entityData] em
          end in
      match add_all target (seComponents entityData) em1 with
      | Ok em2 => (Ok target, em2)
      | Err msg => (Err msg, em1)
      | Panic msg => (Panic msg, em1)
      end
  end.

(** ** The rest of the registry ([ecs.go]) *)

(** [GetEntityIdent]: the first key, in [Range] order, bound to [e], asserted
    to [string]; the empty string counts as no identifier. *)
Definition GetEntityIdent (e : Entity) (em : ECSManager) : Outcome (string * bool) :=
  match ident_string_of e (indentToEntity em) with
  | Ok ident =>
      if String.eqb ident "" then Ok (""%string, false) else Ok (ident, true)
  | Err msg => Err msg
  | Panic msg => Panic msg
  end.

(** [AddComponents(comps)]: [AddComponent] for every entry of the map. *)
Definition AddComponents (e : Entity) (comps : gmap string Component)
    (em : ECSManager) : Outcome ECSManager :=
  for_range comps
    (λ n c acc,
       match acc with
       | Ok em' => AddComponent e n c em'
       | _ => acc
       end)
    (Ok em).

(** [RemoveComponents(names...)]. *)
Definition RemoveComponents (e : Entity) (names : list string) (em : ECSManager)
    : ECSManager :=
  foldl (λ acc n, RemoveComponent e n acc) em names.

(** Every listed entity is at most the counter: so it is in a registry
    built by [AddEntity] and [RemoveEntity] before the counter wraps. *)
Definition counter_inv (em : ECSManager) : Prop :=
  ∀ e, is_Some (entities em !! e) → (e ≤ lastEntityID em)%N.

(** The stores are those of the listed entities. *)
Definition store_eq (em : ECSManager) : Prop :=
  ∀ e, is_Some (entities em !! e) ↔ is_Some (components em !! e).

(** ** Collision engine ([collisions.go]) *)

Module Collision.

(** A callback is named by a label; a nil callback is [None]. The engine
    only calls callbacks, so a tick is described by the calls it makes. *)
Abbreviation Callback := string (only parsing).

Record CollisionHandler := {
  Enter : option Callback;
  Stay : option Callback;
  Leave : option Callback
}.

Record CollisionManager := {
  handlers : gmap string (gmap string CollisionHandler);
  previousCollisions : gmap string bool
}.

(** What a tick does, in order: [Tested e1 e2 hit] is one evaluation of
    [checkCollision] for the pair, [Call f a b] is the call [f(a, b)]. *)
Inductive Event :=
| Tested (e1 e2 : Entity) (hit : bool)
| Call (f : Callback) (a b : Entity).

Definition NewCollisionManager : CollisionManager :=
  {| handlers := ∅; previousCollisions := ∅ |}.

Definition AddResolve (groupA groupB : string) (handler : CollisionHandler)
    (cm : CollisionManager) : CollisionManager :=
  {| handlers :=
       <[groupA := <[groupB := handler]> (default ∅ (handlers cm !! groupA))]>
         (handlers cm);
     previousCollisions := previousCollisions cm |}.

Definition getHandler (cm : CollisionManager) (groupA groupB : string)
    : option CollisionHandler :=
  match handlers cm !! groupA with
  | Some hs => hs !! groupB
  | None => None
  end.

Definition getComponents (em : ECSManager) (e : Entity)
    : option (ColliderComponent * PositionComponent * SizeComponent) :=
  match GetComponent em e "collider" with
  | PtrCollider c =>
      match GetComponent em e "position", GetComponent em e "size" with
      | PtrPosition p, PtrSize s => Some (c, p, s)
      | _, _ => None
      end
  | _ => None
  end.

Definition rectOverlap (x1 y1 w1 h1 x2 y2 w2 h2 : float) : bool :=
  (x1 <? x2 + w2)%float && (x2 <? x1 + w1)%float
  && (y1 <? y2 + h2)%float && (y2 <? y1 + h1)%float.

Definition checkCollision (p1 : PositionComponent) (c1 : ColliderComponent)
    (p2 : PositionComponent) (c2 : ColliderComponent) : bool :=
  if CrossShape c1 then
    let hx1 := (pX p1 + OffsetX c1 - HorizWidth c1 / 2)%float in
    let hy1 := (pY p1 + OffsetY c1 - HorizHeight c1 / 2)%float in
    let vx1 := (pX p1 + OffsetX c1 - VertWidth c1 / 2)%float in
    let vy1 := (pY p1 + OffsetY c1 - VertHeight c1 / 2)%float in
    if rectOverlap hx1 hy1 (HorizWidth c1) (HorizHeight c1)
         (pX p2 + OffsetX c2) (pY p2 + OffsetY c2) (cWidth c2) (cHeight c2)
       || rectOverlap vx1 vy1 (VertWidth c1) (VertHeight c1)
            (pX p2 + OffsetX c2) (pY p2 + OffsetY c2) (cWidth c2) (cHeight c2)
    then true else false
  else
    let x1 := (pX p1 + OffsetX c1)%float in
    let y1 := (pY p1 + OffsetY c1)%float in
    if CrossShape c2 then
      let hx2 := (pX p2 + OffsetX c2 - HorizWidth c2 / 2)%float in
      let hy2 := (pY p2 + OffsetY c2 - HorizHeight c2 / 2)%float in
      let vx2 := (pX p2 + OffsetX c2 - VertWidth c2 / 2)%float in
      let vy2 := (pY p2 + OffsetY c2 - VertHeight c2 / 2)%float in
      if rectOverlap hx2 hy2 (HorizWidth c2) (HorizHeight c2)
           (pX p1 + OffsetX c1) (pY p1 + OffsetY c1) (cWidth c1) (cHeight c1)
         || rectOverlap vx2 vy2 (VertWidth c2) (VertHeight c2)
              (pX p1 + OffsetX c1) (pY p1 + OffsetY c1) (cWidth c1) (cHeight c1)
      then true else false
    else
      rectOverlap x1 y1 (cWidth c1) (cHeight c1)
        (pX p2 + OffsetX c2) (pY p2 + OffsetY c2) (cWidth c2) (cHeight c2).

(** [fmt.Sprintf] with the verb for decimal integers. *)
Definition decimal (n : N) : string := NilEmpty.string_of_uint (N.to_uint n).

Definition collisionKey (e1 e2 : Entity) : string :=
  decimal e1 +:+ "-" +:+ decimal e2.

Definition is_digit (c : ascii) : bool :=
  match c with
  | "0" | "1" | "2" | "3" | "4" | "5" | "6" | "7" | "8" | "9" => true
  | _ => false
  end%char.

(** The longest prefix of decimal digits, and what follows it. *)
Fixpoint scan_digits (s : string) : string * string :=
  match s with
  | String c s' =>
      if is_digit c then
        let '(tok, rest) := scan_digits s' in (String c tok, rest)
      else (EmptyString, s)
  | EmptyString => (EmptyString, EmptyString)
  end.

(** One decimal verb of [fmt.Sscanf] into a [uint32]: at least one digit,
    and a value that fits 32 bits; otherwise the scan stops with an error. *)
Definition scan_uint32 (s : string) : option (N * string) :=
  let '(tok, rest) := scan_digits s in
  match tok with
  | EmptyString => None
  | _ =>
      match NilEmpty.uint_of_string tok with
      | Some d =>
          let n := N.of_uint d in
          if (n <? uint32_mod)%N then Some (n, rest) else None
      | None => None
      end
  end.

(** The white space [fmt.Sscanf] skips before a verb other than the one
    for characters: the runes of Unicode's White_Space, read from the UTF-8
    bytes of the input. A line feed is the exception: on it the scan stops
    with an error ([None]); a carriage return is skipped whether or not a
    line feed follows, and the line feed then stops the scan. *)
Definition is_space3 (b1 b2 b3 : N) : bool :=
  ((b1 =? 225) && (b2 =? 154) && (b3 =? 128))%N
  || ((b1 =? 226) && (b2 =? 128)
      && (((128 <=? b3) && (b3 <=? 138)) || (b3 =? 168) || (b3 =? 169)
          || (b3 =? 175)))%N
  || ((b1 =? 226) && (b2 =? 129) && (b3 =? 159))%N
  || ((b1 =? 227) && (b2 =? 128) && (b3 =? 128))%N.

Fixpoint skip_space (s : string) : option string :=
  match s with
  | EmptyString => Some s
  | String c r =>
      let b := N_of_ascii c in
      if (b =? 10)%N then None
      else if (((9 <=? b) && (b <=? 13)) || (b =? 32))%N then skip_space r
      else if (b <? 128)%N then Some s
      else
        match r with
        | EmptyString => Some s
        | String c2 r2 =>
            let b2 := N_of_ascii c2 in
            if ((b =? 194) && ((b2 =? 133) || (b2 =? 160)))%N then skip_space r2
            else
              match r2 with
              | EmptyString => Some s
              | String c3 r3 =>
                  if is_space3 b b2 (N_of_ascii c3) then skip_space r3
                  else Some s
              end
        end
  end.

(** One decimal verb of the format: the white space before it is skipped,
    then the digits are read. *)
Definition scan_verb (s : string) : option (N * string) :=
  match skip_space s with
  | Some s' => scan_uint32 s'
  | None => None
  end.

(** [fmt.Sscanf(key, ...)] with two decimal verbs around a dash, its error
    ignored: an operand the scan does not reach keeps the value 0. *)
Definition parseCollisionKey (key : string) : Entity * Entity :=
  match scan_verb key with
  | None => (0%N, 0%N)
  | Some (e1, rest) =>
      match rest with
      | String "-"%char rest' =>
          match scan_verb rest' with
          | Some (e2, _) => (e1, e2)
          | None => (e1, 0%N)
          end
      | _ => (e1, 0%N)
      end
  end.

(** The local state of one [Update]: the two local maps, the tracked set,
    and the events so far. *)
Record Tick := {
  processed : gmap string bool;
  currentCollisions : gmap string bool;
  tracked : gmap string bool;
  events : list Event
}.

Definition fire (f : option Callback) (a b : Entity) (evs : list Event)
    : list Event :=
  match f with
  | Some cb => evs ++ [Call cb a b]
  | None => evs
  end.

(** The body of the inner loop, for the pair [(e1, e2)]. *)
Definition visit (cm : CollisionManager) (em : ECSManager) (e1 : Entity)
    (c1 : ColliderComponent) (p1 : PositionComponent) (t : Tick) (e2 : Entity)
    : Tick :=
  if (e1 =? e2)%N then t
  else
    match getComponents em e2 with
    | None => t
    | Some (c2, p2, _) =>
        match getHandler cm (Group c1) (Group c2) with
        | None => t
        | Some handler =>
            let key := collisionKey e1 e2 in
            match processed t !! key with
            | Some _ => t
            | None =>
                let hit := checkCollision p1 c1 p2 c2 in
                let evs := events t ++ [Tested e1 e2 hit] in
                if hit then
                  match tracked t !! key with
                  | None =>
                      {| processed := <[key := true]> (processed t);
                         currentCollisions := <[key := true]> (currentCollisions t);
                         tracked := <[key := true]> (tracked t);
                         events := fire (Enter handler) e1 e2 evs |}
                  | Some _ =>
                      {| processed := <[key := true]> (processed t);
                         currentCollisions := <[key := true]> (currentCollisions t);
                         tracked := tracked t;
                         events := fire (Stay handler) e1 e2 evs |}
                  end
                else
                  {| processed := <[key := true]> (processed t);
                     currentCollisions := currentCollisions t;
                     tracked := tracked t;
                     events := evs |}
            end
        end
    end.

(** The body of the outer loop, for [e1]. *)
Definition scan_from (cm : CollisionManager) (em : ECSManager)
    (ents : list Entity) (t : Tick) (e1 : Entity) : Tick :=
  match getComponents em e1 with
  | None => t
  | Some (c1, p1, _) => foldl (visit cm em e1 c1 p1) t ents
  end.

(** The callback of the closing [Range] over [previousCollisions]. *)
Definition release (cm : CollisionManager) (em : ECSManager)
    (current : gmap string bool) (k : string) (st : gmap string bool * list Event)
    : gmap string bool * list Event :=
  let '(prev, evs) := st in
  match current !! k with
  | Some _ => st
  | None =>
      let '(e1, e2) := parseCollisionKey k in
      match getComponents em e1, getComponents em e2 with
      | Some (c1, _, _), Some (c2, _, _) =>
          match getHandler cm (Group c1) (Group c2) with
          | Some handler => (delete k prev, fire (Leave handler) e1 e2 evs)
          | None => (delete k prev, evs)
          end
      | _, _ => (delete k prev, evs)
      end
  end.

(** The two nested loops of [Update]. *)
Definition detect (cm : CollisionManager) (em : ECSManager) : Tick :=
  let ents := GetEntitiesWithComponents em ["collider"; "position"; "size"] in
  let t0 := {| processed := ∅; currentCollisions := ∅;
               tracked := previousCollisions cm; events := [] |} in
  foldl (scan_from cm em ents) t0 ents.

Definition Update (cm : CollisionManager) (em : ECSManager)
    : CollisionManager * list Event :=
  let t := detect cm em in
  let '(prev, evs) :=
    Range (tracked t)
      (λ k _ st, (release cm em (currentCollisions t) k st, true))
      (tracked t, events t) in
  ({| handlers := handlers cm; previousCollisions := prev |}, evs).

(** A key written by [collisionKey] from two [uint32] values, and a
    tracked set that holds only such keys, as [Update] leaves it. *)
Definition written (k : string) : Prop :=
  ∃ x y, is_uint32 x ∧ is_uint32 y ∧ k = collisionKey x y.

Definition canonical (prev : gmap string bool) : Prop :=
  ∀ k, is_Some (prev !! k) → written k.

(** In registry [em], [a] and [b] are live and collidable, the handler
    registered for their groups, in this order, is [h], and their overlap
    is [hit]. *)
Definition pair_state (cm : CollisionManager) (em : ECSManager) (a b : Entity)
    (h : CollisionHandler) (hit : bool) : Prop :=
  is_Some (entities em !! a) ∧ is_Some (entities em !! b)
  ∧ ∃ ca pa sa cb pb sb,
      getComponents em a = Some (ca, pa, sa)
      ∧ getComponents em b = Some (cb, pb, sb)
      ∧ getHandler cm (Group ca) (Group cb) = Some h
      ∧ checkCollision pa ca pb cb = hit.

(** The calls a list of events makes on the ordered pair [(a, b)]. *)
Definition calls_on (a b : Entity) (evs : list Event) : list Callback :=
  omap (λ ev, match ev with
              | Call f x y => if (x =? a)%N && (y =? b)%N then Some f else None
              | Tested _ _ _ => None
              end) evs.

(** How often a list of events evaluates the overlap of [(a, b)]. *)
Definition is_test_of (a b : Entity) (ev : Event) : bool :=
  match ev with
  | Tested x y _ => (x =? a)%N && (y =? b)%N
  | Call _ _ _ => false
  end.

Definition tests_of (a b : Entity) (evs : list Event) : nat :=
  length (List.filter (is_test_of a b) evs).

(** What a tick has done so far about the ordered pair [(a, b)]: the calls
    made on it, and whether its key is in each of the three maps. *)
Record View := {
  seen_calls : list Callback;
  seen_processed : option bool;
  seen_current : option bool;
  seen_tracked : option bool
}.

Definition view (a b : Entity) (t : Tick) : View :=
  {| seen_calls := calls_on a b (events t);
     seen_processed := processed t !! collisionKey a b;
     seen_current := currentCollisions t !! collisionKey a b;
     seen_tracked := tracked t !! collisionKey a b |}.

(** The effect on the view of evaluating the pair, under handler [h], when
    its overlap is [hit]. *)
Definition step_view (h : CollisionHandler) (hit : bool) (v : View) : View :=
  if hit then
    match seen_tracked v with
    | None =>
        {| seen_calls := seen_calls v ++ option_list (Enter h);
           seen_processed := Some true;
           seen_current := Some true;
           seen_tracked := Some true |}
    | Some w =>
        {| seen_calls := seen_calls v ++ option_list (Stay h);
           seen_processed := Some true;
           seen_current := Some true;
           seen_tracked := Some w |}
    end
  else
    {| seen_calls := seen_calls v;
       seen_processed := Some true;
       seen_current := seen_current v;
       seen_tracked := seen_tracked v |}.

(** The pair [(a, b)] has been called at most as often as tested, and
    either was not tested and is not in [processed], or was tested once and
    is in [processed]. *)
Definition tested_once (a b : Entity) (t : Tick) : Prop :=
  length (calls_on a b (events t)) ≤ tests_of a b (events t)
  ∧ (tests_of a b (events t) = 0 ∧ processed t !! collisionKey a b = None
     ∨ tests_of a b (events t) = 1
       ∧ is_Some (processed t !! collisionKey a b)).

End Collision.

(** ** Physics system *)

Module Physics.

(** The loop variables of [processEntity] that the obstacles change:
    [newX], [newY], [vel.X] and [vel.Y]. *)
Record Motion := {
  newX : float;
  newY : float;
  velX : float;
  velY : float
}.

Fixpoint containsEntity (entities : list Entity) (entity : Entity) : bool :=
  match entities with
  | [] => false
  | e :: rest => if (e =? entity)%N then true else containsEntity rest entity
  end.

Definition isColliding (x1 y1 : float) (size1 : SizeComponent)
    (pos2 : PositionComponent) (size2 : SizeComponent) : bool :=
  let x1Min := (x1 - LeftOffset size1)%float in
  let x1Max := (x1 + Width size1 + RightOffset size1)%float in
  let y1Min := (y1 - TopOffset size1)%float in
  let y1Max := (y1 + Height size1 + BottomOffset size1)%float in
  let x2Min := (pX pos2 - LeftOffset size2)%float in
  let x2Max := (pX pos2 + Width size2 + RightOffset size2)%float in
  let y2Min := (pY pos2 - TopOffset size2)%float in
  let y2Max := (pY pos2 + Height size2 + BottomOffset size2)%float in
  (x1Min <? x2Max)%float && (x2Min <? x1Max)%float
  && (y1Min <? y2Max)%float && (y2Min <? y1Max)%float.

(** The body of the loop over [solidEntities]. *)
Definition resolve (em : ECSManager) (e : Entity) (pos : PositionComponent)
    (size : SizeComponent) (hasExclude : bool) (excludeEntities : list Entity)
    (m : Motion) (other : Entity) : Motion :=
  if (other =? e)%N || (hasExclude && containsEntity excludeEntities other) then m
  else
    match GetComponent em other "position", GetComponent em other "size" with
    | PtrPosition otherPos, PtrSize otherSize =>
        let wouldCollideX := isColliding (newX m) (pY pos) size otherPos otherSize in
        let wouldCollideY := isColliding (pX pos) (newY m) size otherPos otherSize in
        let m1 :=
          if wouldCollideX
          then {| newX := pX pos; newY := newY m; velX := 0; velY := velY m |}
          else m in
        if wouldCollideY
        then {| newX := newX m1; newY := pY pos; velX := velX m1; velY := 0 |}
        else m1
    | _, _ => m
    end.

(** [processEntity], with the package variable [Gravity] as an argument.
    The writes through [vel] and [pos] land in the entity's own slots. *)
Definition processEntity (Gravity : float) (e : Entity) (deltaTime : float)
    (em : ECSManager) : ECSManager :=
  match GetComponent em e "position", GetComponent em e "velocity",
        GetComponent em e "size" with
  | PtrPosition pos, PtrVelocity vel, PtrSize size =>
      let hasExclude :=
        match GetComponent em e "solidexclude" with
        | StringVal _ => true
        | _ => false
        end in
      let velY0 := (vY vel + Gravity * deltaTime)%float in
      let start :=
        {| newX := (pX pos + vX vel * deltaTime)%float;
           newY := (pY pos + velY0 * deltaTime)%float;
           velX := vX vel;
           velY := velY0 |} in
      let solidEntities :=
        GetEntitiesWithComponents em ["position"; "size"; "solid"] in
      let excludeEntities :=
        match GetComponent em e "solidexclude" with
        | StringVal excludeComp =>
            if String.eqb excludeComp "" then []
            else GetEntitiesWithComponents em [excludeComp]
        | _ => []
        end in
      let m :=
        foldl (resolve em e pos size hasExclude excludeEntities) start
          solidEntities in
      SetComponent e "position" (PtrPosition {| pX := newX m; pY := newY m |})
        (SetComponent e "velocity" (PtrVelocity {| vX := velX m; vY := velY m |})
           em)
  | _, _, _ => em
  end.

(** [Update] starts one goroutine per entity and waits for all of them;
    here the goroutines run one after the other, in query order. A
    goroutine writes the position and the velocity of its own entity only,
    and reads the positions of the solid entities: this is the outcome of
    the code when no goroutine reads a position another one writes, as
    when one entity moves. The runs in which two movers that are solid for
    one another race on their positions are not described. *)
Definition Update (Gravity : float) (deltaTime : float) (em : ECSManager)
    : ECSManager :=
  foldl (λ acc e, processEntity Gravity e deltaTime acc) em
    (GetEntitiesWithComponents em ["position"; "velocity"; "size"]).

(** The views of [processEntity] used to state its properties. *)

(** The obstacle the loop sees in [other]: none when [other] is skipped or
    lacks a position or a size of the right type. *)
Definition obstacle (em : ECSManager) (e : Entity) (hasExclude : bool)
    (excludeEntities : list Entity) (other : Entity)
    : option (PositionComponent * SizeComponent) :=
  if (other =? e)%N || (hasExclude && containsEntity excludeEntities other)
  then None
  else
    match GetComponent em other "position", GetComponent em other "size" with
    | PtrPosition otherPos, PtrSize otherSize => Some (otherPos, otherSize)
    | _, _ => None
    end.

(** The two tests and the two rejections against one obstacle. *)
Definition bump (pos : PositionComponent) (size : SizeComponent) (m : Motion)
    (o : PositionComponent * SizeComponent) : Motion :=
  let m1 :=
    if isColliding (newX m) (pY pos) size o.1 o.2
    then {| newX := pX pos; newY := newY m; velX := 0; velY := velY m |}
    else m in
  if isColliding (pX pos) (newY m) size o.1 o.2
  then {| newX := newX m1; newY := pY pos; velX := velX m1; velY := 0 |}
  else m1.

(** The values [processEntity] gives to [hasExclude] and [excludeEntities]. *)
Definition hasExclude_of (em : ECSManager) (e : Entity) : bool :=
  match GetComponent em e "solidexclude" with
  | StringVal _ => true
  | _ => false
  end.

Definition excludeEntities_of (em : ECSManager) (e : Entity) : list Entity :=
  match GetComponent em e "solidexclude" with
  | StringVal excludeComp =>
      if String.eqb excludeComp "" then []
      else GetEntitiesWithComponents em [excludeComp]
  | _ => []
  end.

(** The loop variables before the first obstacle. *)
Definition start_motion (Gravity deltaTime : float) (pos : PositionComponent)
    (vel : VelocityComponent) : Motion :=
  {| newX := (pX pos + vX vel * deltaTime)%float;
     newY := (pY pos + (vY vel + Gravity * deltaTime) * deltaTime)%float;
     velX := vX vel;
     velY := (vY vel + Gravity * deltaTime)%float |}.

(** The component name [e] excludes; empty when [e] has no "solidexclude"
    of type [string]. *)
Definition excluded_name (em : ECSManager) (e : Entity) : string :=
  match GetComponent em e "solidexclude" with
  | StringVal g => g
  | _ => ""
  end.

Definition position_of (em : ECSManager) (e : Entity) : option PositionComponent :=
  match GetComponent em e "position" with
  | PtrPosition p => Some p
  | _ => None
  end.

Definition velocity_of (em : ECSManager) (e : Entity) : option VelocityComponent :=
  match GetComponent em e "velocity" with
  | PtrVelocity v => Some v
  | _ => None
  end.

(** The obstacles [e] tests, in the order of the loop, and the loop
    variables after the last of them. *)
Definition seen_obstacles (em : ECSManager) (e : Entity)
    : list (PositionComponent * SizeComponent) :=
  omap (obstacle em e (hasExclude_of em e) (excludeEntities_of em e))
    (GetEntitiesWithComponents em ["position"; "size"; "solid"]).

Definition final_motion (Gravity deltaTime : float) (em : ECSManager)
    (e : Entity) (pos : PositionComponent) (vel : VelocityComponent)
    (size : SizeComponent) : Motion :=
  foldl (bump pos size) (start_motion Gravity deltaTime pos vel)
    (seen_obstacles em e).

(** [other] is a solid entity that [e], which excludes the component name
    [g] (or nothing, when [g] is empty), has to test: listed as solid,
    not [e] itself, not carrying [g], with position [op] and size [os]. *)
Definition faces (em : ECSManager) (e : Entity) (g : string) (other : Entity)
    (op : PositionComponent) (os : SizeComponent) : Prop :=
  other ∈ GetEntitiesWithComponents em ["position"; "size"; "solid"]
  ∧ other ≠ e
  ∧ (g ≠ ""%string → HasComponent em other g = false)
  ∧ GetComponent em other "position" = PtrPosition op
  ∧ GetComponent em other "size" = PtrSize os.

(** The loop of [CheckIfColliding] over [solidEntities]. *)
Fixpoint check_solids (em : ECSManager) (entity : Entity)
    (pos : PositionComponent) (size : SizeComponent) (newx newy : float)
    (solidEntities : list Entity) : bool :=
  match solidEntities with
  | [] => false
  | other :: rest =>
      if (other =? entity)%N then check_solids em entity pos size newx newy rest
      else
        match GetComponent em other "position", GetComponent em other "size" with
        | PtrPosition otherPos, PtrSize otherSize =>
            let wouldCollideX := isColliding newx (pY pos) size otherPos otherSize in
            let wouldCollideY := isColliding (pX pos) newy size otherPos otherSize in
            if wouldCollideX || wouldCollideY then true
            else check_solids em entity pos size newx newy rest
        | _, _ => check_solids em entity pos size newx newy rest
        end
  end.

Definition CheckIfColliding (entity : Entity) (newx newy : float)
    (em : ECSManager) : bool :=
  match GetComponent em entity "position", GetComponent em entity "size" with
  | PtrPosition pos, PtrSize size =>
      check_solids em entity pos size newx newy
        (GetEntitiesWithComponents em ["position"; "size"; "solid"])
  | _, _ => false
  end.

End Physics.

(** ** Animations *)

Module Animations.

(** Go's [int] on the platforms the engine runs on. *)
Definition int_wrap (z : Z) : Z :=
  ((z + 9223372036854775808) mod 18446744073709551616 - 9223372036854775808)%Z.

(** An image is named by a handle; only the number of frames matters to
    the state machine. *)
Record Animation := {
  frames : list N;
  frameDuration : float;
  currentFrame : Z;
  elapsedTime : float;
  loop : bool;
  completed : bool
}.

Definition len_frames (a : Animation) : Z := Z.of_nat (length (frames a)).

(** The [for] loop of [UpdateAnimation]; [fuel] bounds the number of times
    the loop condition is evaluated, [None] is a loop still running. *)
Fixpoint advance (fuel : nat) (a : Animation) : option Animation :=
  match fuel with
  | O => None
  | S fuel' =>
      if (frameDuration a <=? elapsedTime a)%float then
        let elapsed := (elapsedTime a - frameDuration a)%float in
        let frame := int_wrap (currentFrame a + 1) in
        if (len_frames a <=? frame)%Z then
          if loop a then
            advance fuel'
              {| frames := frames a; frameDuration := frameDuration a;
                 currentFrame := 0; elapsedTime := elapsed;
                 loop := loop a; completed := completed a |}
          else
            Some {| frames := frames a; frameDuration := frameDuration a;
                    currentFrame := int_wrap (len_frames a - 1);
                    elapsedTime := elapsed;
                    loop := loop a; completed := true |}
        else
          advance fuel'
            {| frames := frames a; frameDuration := frameDuration a;
               currentFrame := frame; elapsedTime := elapsed;
               loop := loop a; completed := completed a |}
      else Some a
  end.

Definition UpdateAnimation (fuel : nat) (dt : float) (a : Animation)
    : option Animation :=
  if (completed a && negb (loop a)) || (dt <=? 0)%float
     || (len_frames a =? 0)%Z
  then Some a
  else
    advance fuel
      {| frames := frames a; frameDuration := frameDuration a;
         currentFrame := currentFrame a;
         elapsedTime := (elapsedTime a + dt)%float;
         loop := loop a; completed := completed a |}.

(** [DrawAnimation] draws [a.frames[a.currentFrame]]: the handle drawn,
    none for an animation without frames, a panic for an index out of
    range. *)
Definition DrawAnimation (a : Animation) : Outcome (option N) :=
  match frames a with
  | [] => Ok None
  | _ =>
      if (currentFrame a <? 0)%Z then Panic "runtime error: index out of range"
      else
        match frames a !! Z.to_nat (currentFrame a) with
        | Some img => Ok (Some img)
        | None => Panic "runtime error: index out of range"
        end
  end.

Definition Reset (a : Animation) : Animation :=
  {| frames := frames a; frameDuration := frameDuration a;
     currentFrame := 0; elapsedTime := 0;
     loop := loop a; completed := false |}.

(** The frame index names a frame, when there is one: what a new
    animation starts with, [currentFrame] being 0. *)
Definition frame_in_range (a : Animation) : Prop :=
  frames a = [] ∨ (0 ≤ currentFrame a < len_frames a)%Z.

End Animations.

(** ** Scenarios *)

Definition box10 : SizeComponent :=
  {| Width := 10; Height := 10; TopOffset := 0; BottomOffset := 0;
     LeftOffset := 0; RightOffset := 0 |}.

(** Entity 1 (A) at (0,0), 10 by 10, with velocity [v]; entity 2 (B), solid,
    at (10,0), 10 by 10. *)
Definition contact_scenario (v : VelocityComponent) : ECSManager :=
  let '(a, em) := AddEntity [] NewECSManager in
  let em := SetComponent a "position" (PtrPosition {| pX := 0; pY := 0 |}) em in
  let em := SetComponent a "size" (PtrSize box10) em in
  let em := SetComponent a "velocity" (PtrVelocity v) em in
  let '(b, em) := AddEntity [] em in
  let em := SetComponent b "position" (PtrPosition {| pX := 10; pY := 0 |}) em in
  let em := SetComponent b "size" (PtrSize box10) em in
  SetComponent b "solid" (BoolVal true) em.

(** The same, with A excluding the component name "ghost"; B carries a
    component of that name iff [ghostly]. *)
Definition ghost_scenario (v : VelocityComponent) (ghostly : bool) : ECSManager :=
  let em := SetComponent 1 "solidexclude" (StringVal "ghost") (contact_scenario v) in
  if ghostly then SetComponent 2 "ghost" (BoolVal true) em else em.

(** A plain 10 by 10 collider of group [g]. *)
Definition square_collider (g : string) : ColliderComponent :=
  {| Group := g; CrossShape := false; OffsetX := 0; OffsetY := 0;
     cWidth := 10; cHeight := 10;
     HorizWidth := 0; HorizHeight := 0; VertWidth := 0; VertHeight := 0 |}.

(** Entities 1 and 2, both collidable, of group "npc", 10 by 10; entity 1
    is at the origin and entity 2 at abscissa [x2]. *)
Definition two_npcs (x2 : float) : ECSManager :=
  let '(a, em) := AddEntity [] NewECSManager in
  let em := SetComponent a "position" (PtrPosition {| pX := 0; pY := 0 |}) em in
  let em := SetComponent a "size" (PtrSize box10) em in
  let em := SetComponent a "collider" (PtrCollider (square_collider "npc")) em in
  let '(b, em) := AddEntity [] em in
  let em := SetComponent b "position" (PtrPosition {| pX := x2; pY := 0 |}) em in
  let em := SetComponent b "size" (PtrSize box10) em in
  SetComponent b "collider" (PtrCollider (square_collider "npc")) em.

Definition npc_handler : Collision.CollisionHandler :=
  {| Collision.Enter := Some "enter";
     Collision.Stay := Some "stay";
     Collision.Leave := Some "leave" |}.

(** A new collision manager with [npc_handler] registered for the groups
    ("npc", "npc"). *)
Definition npc_manager : Collision.CollisionManager :=
  Collision.AddResolve "npc" "npc" npc_handler Collision.NewCollisionManager.

(** The [float64] constant 0.1. *)
Definition tick_seconds : float := 0x1.999999999999ap-4.

(** ** Codecs and registries used in examples *)

(** A codec that accepts nothing: every stream is rejected as truncated and
    every value as unsupported. *)
Definition rejecting_gob : Gob :=
  {| gobEncodeManager := λ _, GobErr "gob: type not registered for interface";
     gobDecodeManager := λ _, GobErr "unexpected EOF";
     gobEncodeEntity := λ _, GobErr "gob: type not registered for interface";
     gobDecodeEntity := λ _, GobErr "unexpected EOF" |}.

(** A registry with one entity, created under the stable identifier
    "player". *)
Definition player_registry : ECSManager :=
  (AddEntity ["player"] NewECSManager).2.

(** A registry whose counter is at the last [uint32] value, with entity 0
    listed and holding a component. *)
Definition full_counter_registry : ECSManager :=
  {| lastEntityID := 4294967295;
     entities := {[ 0%N := true ]};
     indentToEntity := ∅;
     components := {[ 0%N := {[ "solid" := BoolVal true ]} ]} |}.

(** A registry in which entity 5 is known under two identifiers, as after
    [FromSerializable] of a map with two keys for one entity. *)
Definition two_names_registry : ECSManager :=
  {| lastEntityID := 5;
     entities := {[ 5%N := true ]};
     indentToEntity := {[ U32Key 1 := 5%N; U32Key 2 := 5%N ]};
     components := {[ 5%N := ∅ ]} |}.

(** A registry in which entity 0 is known under two [string] identifiers,
    as when the counter has wrapped between two calls of [AddEntity] with
    an identifier. *)
Definition twice_named_registry : ECSManager :=
  {| lastEntityID := 0;
     entities := {[ 0%N := true ]};
     indentToEntity := {[ StrKey "hero" := 0%N; StrKey "player" := 0%N ]};
     components := {[ 0%N := ∅ ]} |}.

(** A codec with one blob: every value is written as the empty stream and
    every stream is read as the registry [x] and as the entity [sd]. *)
Definition fixed_gob (x : ExportedECSManager) (sd : SerializableEntity) : Gob :=
  {| gobEncodeManager := λ _, GobOk [];
     gobDecodeManager := λ _, GobOk x;
     gobEncodeEntity := λ _, GobOk [];
     gobDecodeEntity := λ _, GobOk sd |}.

Definition no_registry : ExportedECSManager :=
  {| xLastEntityID := 0; xEntities := ∅; xComponents := ∅ |}.

(** The blob of an entity known as "player" with one component. *)
Definition player_blob : SerializableEntity :=
  {| ID := 77; Ident := "player";
     seComponents := {[ "solid" := BoolVal true ]} |}.

(** The blob of an entity without identifier. *)
Definition anonymous_blob : SerializableEntity :=
  {| ID := 77; Ident := ""; seComponents := {[ "solid" := BoolVal true ]} |}.

(** ** Registry lemmas *)

Lemma has_all_spec (cm : gmap string Component) (names : list string) :
  has_all cm names = true ↔ ∀ n, n ∈ names → is_Some (cm !! n).
Proof.
  induction names as [|n names IH]; simpl.
  - split; [intros _ n Hn; inversion Hn | done].
  - destruct (cm !! n) as [c|] eqn:Hn.
    + rewrite IH. split.
      * intros H n' [->|Hin]%elem_of_cons; [rewrite Hn; eauto | auto].
      * intros H n' Hin. apply H. by right.
    + split; [done|]. intros H.
      destruct (H n) as [c Hc]; [by left | congruence].
Qed.

Lemma HasComponent_store (em : ECSManager) (e : Entity) (cm : gmap string Component)
    (n : string) :
  components em !! e = Some cm →
  HasComponent em e n = true ↔ is_Some (cm !! n).
Proof.
  intros H. unfold HasComponent. rewrite H. apply bool_decide_eq_true.
Qed.

(** The query callback never stops early and appends the keys that pass
    the test, so the query is a filter of the key list. *)
Lemma range_list_query (em : ECSManager) (names : list string)
    (l : list (N * bool)) (acc : list Entity) :
  range_list
    (λ e (_ : bool) result,
       match components em !! e with
       | None => (result, true)
       | Some cm =>
           if has_all cm names then (result ++ [e], true) else (result, true)
       end) l acc
  = acc ++ filter (λ e, carries_all em names e = true) (l.*1).
Proof.
  revert acc. induction l as [|[k v] l IH]; intros acc; simpl.
  - by rewrite app_nil_r.
  - rewrite filter_cons.
    destruct (components em !! k) as [cm|] eqn:Hk;
      [destruct (has_all cm names) eqn:Hall|]; rewrite IH.
    + rewrite decide_True by (unfold carries_all; by rewrite Hk).
      by rewrite <- app_assoc.
    + rewrite decide_False; [done|].
      unfold carries_all. rewrite Hk, Hall. done.
    + rewrite decide_False; [done|].
      unfold carries_all. by rewrite Hk.
Qed.

Lemma GetEntitiesWithComponents_filter (em : ECSManager) (names : list string) :
  GetEntitiesWithComponents em names
  = filter (λ e, carries_all em names e = true) ((map_to_list (entities em)).*1).
Proof. unfold GetEntitiesWithComponents, Range. by rewrite range_list_query. Qed.

Lemma GetEntitiesWithComponents_NoDup (em : ECSManager) (names : list string) :
  NoDup (GetEntitiesWithComponents em names).
Proof.
  rewrite GetEntitiesWithComponents_filter.
  apply NoDup_filter, NoDup_fst_map_to_list.
Qed.

Lemma elem_of_GetEntitiesWithComponents (em : ECSManager) (names : list string)
    (e : Entity) :
  e ∈ GetEntitiesWithComponents em names
  ↔ is_Some (entities em !! e) ∧ carries_all em names e = true.
Proof.
  rewrite GetEntitiesWithComponents_filter, list_elem_of_filter.
  rewrite list_elem_of_fmap.
  split.
  - intros [Hc [[k v] [-> Hin%elem_of_map_to_list]]]. simpl in *. eauto.
  - intros [[v Hv] Hc]. split; [done|].
    exists (e, v). split; [done|]. by apply elem_of_map_to_list.
Qed.

Lemma carries_all_HasComponent (em : ECSManager) (names : list string) (e : Entity) :
  is_Some (components em !! e) →
  carries_all em names e = true ↔ ∀ n, n ∈ names → HasComponent em e n = true.
Proof.
  intros [cm Hcm]. unfold carries_all, HasComponent. rewrite Hcm, has_all_spec.
  by setoid_rewrite bool_decide_eq_true.
Qed.

Lemma store_inv_new : store_inv NewECSManager.
Proof. intros e [b Hb]. simpl in Hb. by rewrite lookup_empty in Hb. Qed.

Lemma store_inv_AddEntity (ident : list string) (em : ECSManager) :
  store_inv em → store_inv (AddEntity ident em).2.
Proof.
  intros Hinv e. simpl. rewrite !lookup_insert.
  case_decide; [eauto | apply Hinv].
Qed.

Lemma store_inv_RemoveEntity (e : Entity) (em : ECSManager) :
  store_inv em → store_inv (RemoveEntity e em).
Proof.
  intros Hinv e'. simpl. rewrite !lookup_delete.
  case_decide; [by intros [? ?] | apply Hinv].
Qed.

Lemma store_inv_set_store (e : Entity) (cm : gmap string Component)
    (em : ECSManager) :
  store_inv em → store_inv (set_store e cm em).
Proof.
  intros Hinv e'. simpl. rewrite lookup_insert.
  case_decide; [eauto | apply Hinv].
Qed.

Lemma store_inv_SetComponent (e : Entity) (name : string) (comp : Component)
    (em : ECSManager) :
  store_inv em → store_inv (SetComponent e name comp em).
Proof.
  intros Hinv. unfold SetComponent.
  destruct (components em !! e); [by apply store_inv_set_store | done].
Qed.

Lemma store_inv_AddComponent (e : Entity) (name : string) (comp : Component)
    (em em' : ECSManager) :
  store_inv em → AddComponent e name comp em = Ok em' → store_inv em'.
Proof.
  intros Hinv. unfold AddComponent.
  destruct (entities em !! e); [|by intros [= <-]].
  destruct (components em !! e); [|done].
  intros [= <-]. by apply store_inv_set_store.
Qed.

(** Under [store_inv], [AddComponent] never reaches its unchecked assertion. *)
Lemma AddComponent_no_panic (e : Entity) (name : string) (comp : Component)
    (em : ECSManager) :
  store_inv em → ∃ em', AddComponent e name comp em = Ok em'.
Proof.
  intros Hinv. unfold AddComponent.
  destruct (entities em !! e) as [b|] eqn:He; [|eauto].
  destruct (Hinv e) as [cm ->]; eauto.
Qed.

Lemma uint32_ids_new : uint32_ids NewECSManager.
Proof. intros e [v Hv]. simpl in Hv. by rewrite lookup_empty in Hv. Qed.

Lemma uint32_ids_AddEntity (ident : list string) (em : ECSManager) :
  uint32_ids em → uint32_ids (AddEntity ident em).2.
Proof.
  intros Hids e. simpl. rewrite lookup_insert.
  case_decide as Heq; [|apply Hids].
  intros _. subst e. unfold is_uint32. by apply N.mod_lt.
Qed.

Lemma uint32_ids_SetComponent (e : Entity) (name : string) (comp : Component)
    (em : ECSManager) :
  uint32_ids em → uint32_ids (SetComponent e name comp em).
Proof.
  intros Hids. unfold SetComponent. by destruct (components em !! e).
Qed.

Lemma uint32_ids_RemoveEntity (e : Entity) (em : ECSManager) :
  uint32_ids em → uint32_ids (RemoveEntity e em).
Proof.
  intros Hids e'. simpl. rewrite lookup_delete.
  case_decide; [by intros [? ?] | apply Hids].
Qed.

(** A registry that lists finitely many entities can be checked by
    looking at each. *)
Lemma uint32_ids_check (em : ECSManager) :
  forallb (λ kv : N * bool, (kv.1 <? uint32_mod)%N) (map_to_list (entities em))
  = true →
  uint32_ids em.
Proof.
  intros Hall e [v Hv]. rewrite forallb_forall in Hall.
  apply elem_of_map_to_list, list_elem_of_In, Hall in Hv.
  by apply N.ltb_lt in Hv.
Qed.

(** ** Component-signature query *)

(** C9: for a live entity [E] and component names [S], the query over [S]
    lists [E] iff [E] holds every name of [S], and then lists it once: the
    result has no duplicates, so [E] occurs once when it holds them all and
    not at all otherwise. *)
Theorem query_lists_exactly_the_holders (em : ECSManager) (S : list string)
    (E : Entity) :
  store_inv em →
  is_Some (entities em !! E) →
  NoDup (GetEntitiesWithComponents em S)
  ∧ (E ∈ GetEntitiesWithComponents em S
     ↔ ∀ n, n ∈ S → HasComponent em E n = true)
  ∧ ((∀ n, n ∈ S → HasComponent em E n = true)
     → length (filter (λ e, e = E) (GetEntitiesWithComponents em S)) = 1)
  ∧ (¬ (∀ n, n ∈ S → HasComponent em E n = true)
     → length (filter (λ e, e = E) (GetEntitiesWithComponents em S)) = 0).
Proof.
  intros Hinv Hlive.
  pose proof (GetEntitiesWithComponents_NoDup em S) as Hnd.
  assert (Hiff : E ∈ GetEntitiesWithComponents em S
                 ↔ ∀ n, n ∈ S → HasComponent em E n = true).
  { rewrite elem_of_GetEntitiesWithComponents.
    rewrite <- (carries_all_HasComponent em S E) by auto. tauto. }
  split; [done|]. split; [done|].
  assert (Hcount : ∀ l : list Entity, NoDup l →
            length (filter (λ e, e = E) l) = if decide (E ∈ l) then 1 else 0).
  { induction 1 as [|x l Hx Hl IH]; [done|].
    rewrite filter_cons. destruct (decide (x = E)) as [->|Hne]; simpl.
    - rewrite IH. rewrite (decide_False (P := E ∈ l)) by done.
      rewrite decide_True; [done | by left].
    - rewrite IH. destruct (decide (E ∈ l)) as [Hin|Hnin].
      + rewrite decide_True; [done | by right].
      + rewrite decide_False; [done|].
        intros [->|?]%elem_of_cons; done. }
  rewrite (Hcount _ Hnd). split; intros Hall.
  - rewrite decide_True; [done | by apply Hiff].
  - rewrite decide_False; [done | by rewrite Hiff].
Qed.

Lemma query_lists_exactly_the_holders_witness :
  let em := SetComponent 1 "solid" (BoolVal true) (AddEntity [] NewECSManager).2 in
  1%N ∈ GetEntitiesWithComponents em ["solid"].
Proof.
  intros em.
  apply (query_lists_exactly_the_holders em ["solid"] 1%N).
  - apply store_inv_SetComponent, store_inv_AddEntity, store_inv_new.
  - exists true. vm_compute. reflexivity.
  - intros n ->%list_elem_of_singleton. vm_compute. reflexivity.
Defined.

(** ** Serialization *)

Lemma range_list_all {K V St : Type} (g : K → V → St → St) (l : list (K * V))
    (s : St) :
  range_list (λ k v s, (g k v s, true)) l s = foldl (λ s kv, g kv.1 kv.2 s) s l.
Proof.
  revert s. induction l as [|[k v] l IH]; intros s; simpl; [done | apply IH].
Qed.

(** The identifier loop of [ToSerializable] panics at the first [string]
    key it meets. *)
Lemma range_idents_panics (l : list (IdentKey * N)) (m : gmap N N) (s : string)
    (e : Entity) :
  (StrKey s, e) ∈ l →
  range_list
    (λ k v (acc : Outcome (gmap N N)),
       match acc, k with
       | Ok m, U32Key n => (Ok (<[n := v]> m), true)
       | Ok _, StrKey _ =>
           (Panic "interface conversion: interface {} is string, not uint32",
            false)
       | _, _ => (acc, false)
       end) l (Ok m)
  = Panic "interface conversion: interface {} is string, not uint32".
Proof.
  revert m. induction l as [|[k v] l IH]; intros m Hin.
  - inversion Hin.
  - apply elem_of_cons in Hin as [Heq|Hin].
    + injection Heq as <- <-. reflexivity.
    + destruct k as [s'|n]; simpl; [reflexivity | by apply IH].
Qed.

Lemma ToSerializable_panics (em : ECSManager) (s : string) (e : Entity) :
  indentToEntity em !! StrKey s = Some e →
  ToSerializable em
  = Panic "interface conversion: interface {} is string, not uint32".
Proof.
  intros Hs. unfold ToSerializable, Range.
  rewrite (range_idents_panics _ _ s e); [done|].
  by apply elem_of_map_to_list.
Qed.

Lemma Encode_panics `{Gob} (em : ECSManager) (s : string) (e : Entity) :
  indentToEntity em !! StrKey s = Some e →
  Encode em = Panic "interface conversion: interface {} is string, not uint32".
Proof. intros Hs. unfold Encode. by rewrite (ToSerializable_panics em s e). Qed.

Lemma foldl_indentToEntity {A : Type} (step : ECSManager → A → ECSManager)
    (l : list A) (em : ECSManager) :
  (∀ acc a, indentToEntity (step acc a) = indentToEntity acc) →
  indentToEntity (foldl step em l) = indentToEntity em.
Proof.
  intros Hstep. revert em. induction l as [|a l IH]; intros em; simpl; [done|].
  by rewrite IH, Hstep.
Qed.

(** A decoded registry carries no identifiers: [FromSerializable] finds
    [identMap] empty and leaves [indentToEntity] as it was. *)
Lemma Decode_keeps_idents `{Gob} (data : list Byte.byte) (em : ECSManager) :
  indentToEntity (Decode data em).2 = indentToEntity em.
Proof.
  unfold Decode. destruct (gobDecodeManager data) as [x|msg]; [|done].
  unfold FromSerializable, for_range; simpl.
  rewrite map_to_list_empty; simpl.
  by rewrite foldl_indentToEntity.
Qed.

Lemma foldl_store_inv {A : Type} (step : ECSManager → A → ECSManager)
    (l : list A) (em : ECSManager) :
  (∀ acc a, store_inv acc → store_inv (step acc a)) →
  store_inv em → store_inv (foldl step em l).
Proof.
  intros Hstep. revert em. induction l as [|a l IH]; intros em Hinv; simpl; auto.
Qed.

(** A decoded registry keeps the invariant of the query: [FromSerializable]
    stores a component map for every entity it lists. *)
Lemma store_inv_FromSerializable (data : SerializableECSManager)
    (em : ECSManager) :
  store_inv em → store_inv (FromSerializable data em).
Proof.
  intros Hinv. unfold FromSerializable, for_range.
  apply foldl_store_inv; [by intros acc [ident e] Hacc|].
  apply foldl_store_inv; [|done].
  intros acc [e active] Hacc e'. simpl. rewrite !lookup_insert.
  case_decide; [eauto | apply Hacc].
Qed.

(** C1 (the code departs from the claim): the registry with one entity
    created under the stable identifier "player" cannot be encoded; for
    every codec, [Encode] panics on the type assertion of the identifier
    key, so no round trip restores this state. And no decode ever writes
    the identifier mapping, [identMap] being unexported. *)
Theorem encode_panics_on_stable_identifier `{Gob} :
  Encode player_registry
  = Panic "interface conversion: interface {} is string, not uint32"
  ∧ ∀ data em, indentToEntity (Decode data em).2 = indentToEntity em.
Proof.
  split.
  - apply (Encode_panics player_registry "player" 1%N). reflexivity.
  - intros data em. apply Decode_keeps_idents.
Qed.

(** C8: when the bytes do not deserialize, [Decode] and [DecodeEntity]
    return the decoder's error and the registry is the one they were given:
    nothing of the blob is applied. *)
Theorem failed_decode_changes_nothing `{Gob} (data : list Byte.byte)
    (em : ECSManager) (msg : string) :
  (gobDecodeManager data = GobErr msg → Decode data em = (Err msg, em))
  ∧ (gobDecodeEntity data = GobErr msg → DecodeEntity data em = (Err msg, em)).
Proof.
  split; intros Hfail.
  - unfold Decode. by rewrite Hfail.
  - unfold DecodeEntity. by rewrite Hfail.
Qed.

Lemma failed_decode_changes_nothing_witness :
  @Decode rejecting_gob [] player_registry = (Err "unexpected EOF", player_registry)
  ∧ @DecodeEntity rejecting_gob [] player_registry
    = (Err "unexpected EOF", player_registry).
Proof.
  split.
  - apply (proj1 (@failed_decode_changes_nothing rejecting_gob [] player_registry
                    "unexpected EOF")).
    reflexivity.
  - apply (proj2 (@failed_decode_changes_nothing rejecting_gob [] player_registry
                    "unexpected EOF")).
    reflexivity.
Defined.

(** Only [AddEntity] and the decoders create a component store: setting,
    adding or removing a component, or removing an entity, leaves an
    entity without a store as it is. *)
Lemma store_absent_stays_absent (e e' : Entity) (name : string)
    (comp : Component) (em : ECSManager) :
  components em !! e = None →
  components (SetComponent e' name comp em) !! e = None
  ∧ components (RemoveComponent e' name em) !! e = None
  ∧ components (RemoveEntity e' em) !! e = None
  ∧ ∀ em', AddComponent e' name comp em = Ok em' → components em' !! e = None.
Proof.
  intros Hno.
  split; [|split; [|split]].
  - unfold SetComponent. destruct (components em !! e') eqn:He'; [|done].
    simpl. rewrite lookup_insert_ne; [done | congruence].
  - unfold RemoveComponent. destruct (components em !! e') eqn:He'; [|done].
    simpl. rewrite lookup_insert_ne; [done | congruence].
  - simpl. rewrite lookup_delete. by case_decide.
  - intros em'. unfold AddComponent.
    destruct (entities em !! e'); [|by intros [= <-]].
    destruct (components em !! e') eqn:He'; [|done].
    intros [= <-]. simpl. rewrite lookup_insert_ne; [done | congruence].
Qed.

(** C10: [EncodeEntity] returns (a blob or an error) only for an entity
    whose component store exists. Without the store the unchecked
    assertion panics: so it does for every id of a new registry and for an
    entity that was just removed. *)
Theorem EncodeEntity_panics_without_store `{Gob} (e : Entity) (em : ECSManager) :
  (components em !! e = None →
   EncodeEntity e em
   = Panic "interface conversion: interface {} is nil, not *sync.Map")
  ∧ (∀ bytes, EncodeEntity e em = Ok bytes → is_Some (components em !! e))
  ∧ (∀ msg, EncodeEntity e em = Err msg → is_Some (components em !! e))
  ∧ EncodeEntity e NewECSManager
    = Panic "interface conversion: interface {} is nil, not *sync.Map"
  ∧ EncodeEntity e (RemoveEntity e em)
    = Panic "interface conversion: interface {} is nil, not *sync.Map".
Proof.
  assert (Hnone : ∀ em', components em' !! e = None →
            EncodeEntity e em'
            = Panic "interface conversion: interface {} is nil, not *sync.Map").
  { intros em' Hno. unfold EncodeEntity. by rewrite Hno. }
  split; [|split; [|split; [|split]]].
  - apply Hnone.
  - intros bytes. unfold EncodeEntity.
    destruct (components em !! e); [eauto | done].
  - intros msg. unfold EncodeEntity.
    destruct (components em !! e); [eauto | done].
  - apply Hnone. apply lookup_empty.
  - apply Hnone. simpl. apply lookup_delete_eq.
Qed.

Lemma EncodeEntity_panics_without_store_witness :
  @EncodeEntity rejecting_gob 7%N player_registry
  = Panic "interface conversion: interface {} is nil, not *sync.Map".
Proof.
  apply (proj1 (@EncodeEntity_panics_without_store rejecting_gob 7%N player_registry)).
  vm_compute. reflexivity.
Defined.

(** ** Pairwise overlap ([checkCollision]) *)

(** C5: when the first collider is cross-shaped, the pair overlaps iff the
    first entity's horizontal bar or its vertical bar overlaps the
    rectangle made of the second collider's offset, width and height. A
    bar is centred on the first entity's position plus offset; a bar with
    corner (x, y), width w and height h overlaps the rectangle with corner
    (x2, y2), width w2 and height h2 when x < x2 + w2, x + w > x2,
    y < y2 + h2 and y + h > y2, all four strictly. The answer does not
    depend on whether the second collider is cross-shaped, nor on the bars
    of the second collider. *)
Theorem cross_first_tests_two_bars (p1 p2 : PositionComponent)
    (c1 c2 : ColliderComponent) :
  CrossShape c1 = true →
  let x2 := (pX p2 + OffsetX c2)%float in
  let y2 := (pY p2 + OffsetY c2)%float in
  let hx := (pX p1 + OffsetX c1 - HorizWidth c1 / 2)%float in
  let hy := (pY p1 + OffsetY c1 - HorizHeight c1 / 2)%float in
  let vx := (pX p1 + OffsetX c1 - VertWidth c1 / 2)%float in
  let vy := (pY p1 + OffsetY c1 - VertHeight c1 / 2)%float in
  (Collision.checkCollision p1 c1 p2 c2 = true
   ↔ ((hx <? x2 + cWidth c2)%float = true
      ∧ (x2 <? hx + HorizWidth c1)%float = true
      ∧ (hy <? y2 + cHeight c2)%float = true
      ∧ (y2 <? hy + HorizHeight c1)%float = true)
     ∨ ((vx <? x2 + cWidth c2)%float = true
        ∧ (x2 <? vx + VertWidth c1)%float = true
        ∧ (vy <? y2 + cHeight c2)%float = true
        ∧ (y2 <? vy + VertHeight c1)%float = true))
  ∧ ∀ cross2 hw hh vw vh,
      Collision.checkCollision p1 c1 p2
        {| Group := Group c2; CrossShape := cross2;
           OffsetX := OffsetX c2; OffsetY := OffsetY c2;
           cWidth := cWidth c2; cHeight := cHeight c2;
           HorizWidth := hw; HorizHeight := hh;
           VertWidth := vw; VertHeight := vh |}
      = Collision.checkCollision p1 c1 p2 c2.
Proof.
  intros Hcross x2 y2 hx hy vx vy.
  unfold Collision.checkCollision. rewrite Hcross. cbv zeta.
  fold x2 y2 hx hy vx vy. split.
  - unfold Collision.rectOverlap.
    destruct (hx <? x2 + cWidth c2)%float, (x2 <? hx + HorizWidth c1)%float,
      (hy <? y2 + cHeight c2)%float, (y2 <? hy + HorizHeight c1)%float,
      (vx <? x2 + cWidth c2)%float, (x2 <? vx + VertWidth c1)%float,
      (vy <? y2 + cHeight c2)%float, (y2 <? vy + VertHeight c1)%float;
      cbn; intuition congruence.
  - intros cross2 hw hh vw vh. cbn. by destruct (_ || _).
Qed.

(** A plus-shaped collider at the origin, with a horizontal bar 6 by 2 and
    a vertical bar 2 by 6, against a collider at (2, 0) whose rectangle is
    2 by 2: the horizontal bar reaches it, the vertical bar does not; the
    second collider is cross-shaped too, and its own bars are not used. *)
Lemma cross_first_tests_two_bars_witness :
  let plus := {| Group := "npc"; CrossShape := true;
                 OffsetX := 0; OffsetY := 0; cWidth := 0; cHeight := 0;
                 HorizWidth := 6; HorizHeight := 2;
                 VertWidth := 2; VertHeight := 6 |} in
  let other := {| Group := "npc"; CrossShape := true;
                  OffsetX := 0; OffsetY := 0; cWidth := 2; cHeight := 2;
                  HorizWidth := 0; HorizHeight := 0;
                  VertWidth := 0; VertHeight := 0 |} in
  Collision.checkCollision {| pX := 0; pY := 0 |} plus {| pX := 2; pY := 0 |} other
  = true.
Proof.
  intros plus other.
  apply (proj1 (cross_first_tests_two_bars {| pX := 0; pY := 0 |}
                  {| pX := 2; pY := 0 |} plus other eq_refl)).
  left. vm_compute. done.
Defined.

(** ** Physics: one entity, one tick *)

Section ProcessEntity.

Import Physics.

Variables (em : ECSManager) (e : Entity).
Variables (pos : PositionComponent) (size : SizeComponent).

Lemma resolve_obstacle (hasExclude : bool) (excl : list Entity) (m : Motion)
    (other : Entity) :
  resolve em e pos size hasExclude excl m other
  = match obstacle em e hasExclude excl other with
    | Some o => bump pos size m o
    | None => m
    end.
Proof.
  unfold resolve, obstacle, bump.
  destruct ((other =? e)%N || (hasExclude && containsEntity excl other)); [done|].
  destruct (GetComponent em other "position"); try done.
  destruct (GetComponent em other "size"); done.
Qed.

Lemma foldl_resolve (hasExclude : bool) (excl : list Entity) (l : list Entity)
    (m : Motion) :
  foldl (resolve em e pos size hasExclude excl) m l
  = foldl (bump pos size) m (omap (obstacle em e hasExclude excl) l).
Proof.
  revert m. induction l as [|other l IH]; intros m; simpl; [done|].
  rewrite IH, resolve_obstacle.
  by destruct (obstacle em e hasExclude excl other).
Qed.

Lemma bump_X (m : Motion) (o : PositionComponent * SizeComponent) :
  newX (bump pos size m o)
  = (if isColliding (newX m) (pY pos) size o.1 o.2 then pX pos else newX m)
  ∧ velX (bump pos size m o)
    = (if isColliding (newX m) (pY pos) size o.1 o.2 then 0%float else velX m).
Proof.
  unfold bump.
  by destruct (isColliding (newX m) _ _ _ _), (isColliding (pX pos) _ _ _ _).
Qed.

Lemma bump_Y (m : Motion) (o : PositionComponent * SizeComponent) :
  newY (bump pos size m o)
  = (if isColliding (pX pos) (newY m) size o.1 o.2 then pY pos else newY m)
  ∧ velY (bump pos size m o)
    = (if isColliding (pX pos) (newY m) size o.1 o.2 then 0%float else velY m).
Proof.
  unfold bump.
  by destruct (isColliding (newX m) _ _ _ _), (isColliding (pX pos) _ _ _ _).
Qed.

(** A rejected horizontal move stays rejected: the later tests are made at
    the current abscissa, and can only reject again. *)
Lemma foldl_bump_X_stuck (obs : list (PositionComponent * SizeComponent))
    (m : Motion) :
  newX m = pX pos → velX m = 0%float →
  newX (foldl (bump pos size) m obs) = pX pos
  ∧ velX (foldl (bump pos size) m obs) = 0%float.
Proof.
  revert m. induction obs as [|o obs IH]; intros m Hx Hv; simpl; [done|].
  destruct (bump_X m o) as [Hx' Hv'].
  apply IH; [rewrite Hx' | rewrite Hv']; by destruct (isColliding _ _ _ _ _).
Qed.

Lemma foldl_bump_X_hit (obs : list (PositionComponent * SizeComponent))
    (m : Motion) (o : PositionComponent * SizeComponent) :
  o ∈ obs → isColliding (newX m) (pY pos) size o.1 o.2 = true →
  newX (foldl (bump pos size) m obs) = pX pos
  ∧ velX (foldl (bump pos size) m obs) = 0%float.
Proof.
  revert m. induction obs as [|o' obs IH]; intros m Hin Hhit; [inversion Hin|].
  simpl. destruct (bump_X m o') as [Hx' Hv'].
  destruct (isColliding (newX m) (pY pos) size o'.1 o'.2) eqn:Hhit'.
  - by apply foldl_bump_X_stuck.
  - apply elem_of_cons in Hin as [->|Hin]; [congruence|].
    apply IH; [done | by rewrite Hx'].
Qed.

Lemma foldl_bump_X_free (obs : list (PositionComponent * SizeComponent))
    (m : Motion) :
  (∀ o, o ∈ obs → isColliding (newX m) (pY pos) size o.1 o.2 = false) →
  newX (foldl (bump pos size) m obs) = newX m
  ∧ velX (foldl (bump pos size) m obs) = velX m.
Proof.
  revert m. induction obs as [|o obs IH]; intros m Hfree; simpl; [done|].
  destruct (bump_X m o) as [Hx' Hv'].
  rewrite (Hfree o) in Hx', Hv' by (by left).
  rewrite <- Hx', <- Hv'. apply IH.
  intros o' Hin. rewrite Hx'. apply Hfree. by right.
Qed.

Lemma foldl_bump_Y_stuck (obs : list (PositionComponent * SizeComponent))
    (m : Motion) :
  newY m = pY pos → velY m = 0%float →
  newY (foldl (bump pos size) m obs) = pY pos
  ∧ velY (foldl (bump pos size) m obs) = 0%float.
Proof.
  revert m. induction obs as [|o obs IH]; intros m Hy Hv; simpl; [done|].
  destruct (bump_Y m o) as [Hy' Hv'].
  apply IH; [rewrite Hy' | rewrite Hv']; by destruct (isColliding _ _ _ _ _).
Qed.

Lemma foldl_bump_Y_hit (obs : list (PositionComponent * SizeComponent))
    (m : Motion) (o : PositionComponent * SizeComponent) :
  o ∈ obs → isColliding (pX pos) (newY m) size o.1 o.2 = true →
  newY (foldl (bump pos size) m obs) = pY pos
  ∧ velY (foldl (bump pos size) m obs) = 0%float.
Proof.
  revert m. induction obs as [|o' obs IH]; intros m Hin Hhit; [inversion Hin|].
  simpl. destruct (bump_Y m o') as [Hy' Hv'].
  destruct (isColliding (pX pos) (newY m) size o'.1 o'.2) eqn:Hhit'.
  - by apply foldl_bump_Y_stuck.
  - apply elem_of_cons in Hin as [->|Hin]; [congruence|].
    apply IH; [done | by rewrite Hy'].
Qed.

Lemma foldl_bump_Y_free (obs : list (PositionComponent * SizeComponent))
    (m : Motion) :
  (∀ o, o ∈ obs → isColliding (pX pos) (newY m) size o.1 o.2 = false) →
  newY (foldl (bump pos size) m obs) = newY m
  ∧ velY (foldl (bump pos size) m obs) = velY m.
Proof.
  revert m. induction obs as [|o obs IH]; intros m Hfree; simpl; [done|].
  destruct (bump_Y m o) as [Hy' Hv'].
  rewrite (Hfree o) in Hy', Hv' by (by left).
  rewrite <- Hy', <- Hv'. apply IH.
  intros o' Hin. rewrite Hy'. apply Hfree. by right.
Qed.

Lemma containsEntity_elem_of (l : list Entity) (x : Entity) :
  containsEntity l x = true ↔ x ∈ l.
Proof.
  induction l as [|y l IH]; simpl.
  - split; [done | inversion 1].
  - destruct (N.eqb_spec y x) as [->|Hne].
    + split; [intros _; by left | done].
    + rewrite IH. split; [by right|].
      intros [->|?]%elem_of_cons; done.
Qed.

Lemma GetComponent_is_Some_store (n : string) :
  GetComponent em e n ≠ NilVal → is_Some (components em !! e).
Proof. unfold GetComponent. destruct (components em !! e); [eauto | done]. Qed.

Lemma GetComponent_SetComponent_eq (n : string) (c : Component) :
  is_Some (components em !! e) →
  GetComponent (SetComponent e n c em) e n = c.
Proof.
  intros [cm Hcm]. unfold SetComponent, GetComponent. rewrite Hcm. simpl.
  by rewrite !lookup_insert_eq.
Qed.

Lemma GetComponent_SetComponent_ne (n n' : string) (c : Component) (e' : Entity) :
  e' ≠ e ∨ n' ≠ n →
  GetComponent (SetComponent e n c em) e' n' = GetComponent em e' n'.
Proof.
  intros Hne. unfold SetComponent, GetComponent.
  destruct (components em !! e) as [cm|] eqn:Hcm; [|done]. simpl.
  destruct (decide (e' = e)) as [->|He].
  - rewrite lookup_insert_eq, Hcm.
    destruct Hne as [?|Hn]; [done|]. by rewrite lookup_insert_ne.
  - by rewrite lookup_insert_ne.
Qed.

Lemma SetComponent_store (n : string) (c : Component) :
  is_Some (components em !! e) →
  is_Some (components (SetComponent e n c em) !! e).
Proof.
  intros [cm Hcm]. unfold SetComponent. rewrite Hcm. simpl.
  rewrite lookup_insert_eq. eauto.
Qed.

End ProcessEntity.

Section ProcessEntityOutcome.

Import Physics.

Variables (Gravity deltaTime : float) (em : ECSManager) (e : Entity).
Variables (pos : PositionComponent) (vel : VelocityComponent)
  (size : SizeComponent).

Hypothesis Hpos : GetComponent em e "position" = PtrPosition pos.
Hypothesis Hvel : GetComponent em e "velocity" = PtrVelocity vel.
Hypothesis Hsize : GetComponent em e "size" = PtrSize size.

Local Abbreviation seen := (seen_obstacles em e).
Local Abbreviation final := (final_motion Gravity deltaTime em e pos vel size).

Lemma processEntity_commits :
  position_of (processEntity Gravity e deltaTime em) e
  = Some {| pX := newX final; pY := newY final |}
  ∧ velocity_of (processEntity Gravity e deltaTime em) e
    = Some {| vX := velX final; vY := velY final |}.
Proof.
  assert (Hstore : is_Some (components em !! e)).
  { apply (GetComponent_is_Some_store em e "position"). by rewrite Hpos. }
  unfold processEntity, position_of, velocity_of.
  rewrite Hpos, Hvel, Hsize. rewrite foldl_resolve.
  fold (hasExclude_of em e) (excludeEntities_of em e).
  fold (start_motion Gravity deltaTime pos vel).
  fold seen. fold final.
  split.
  - rewrite GetComponent_SetComponent_eq; [done|].
    by apply SetComponent_store.
  - rewrite GetComponent_SetComponent_ne by (by right).
    by rewrite GetComponent_SetComponent_eq.
Qed.

(** What the loop sees in a solid entity is what [faces] says. *)
Lemma obstacle_faces (other : Entity) (op : PositionComponent)
    (os : SizeComponent) :
  other ∈ GetEntitiesWithComponents em ["position"; "size"; "solid"]
  ∧ obstacle em e (hasExclude_of em e) (excludeEntities_of em e) other
    = Some (op, os)
  ↔ faces em e (excluded_name em e) other op os.
Proof.
  unfold faces. split.
  - intros [Hin Hobs]. split; [done|].
    unfold obstacle in Hobs.
    destruct (N.eqb_spec other e) as [->|Hne]; [done|]. simpl in Hobs.
    split; [done|].
    destruct (hasExclude_of em e && containsEntity (excludeEntities_of em e) other)
      eqn:Hskip; [done|].
    split.
    + intros Hg. unfold hasExclude_of, excludeEntities_of, excluded_name in *.
      destruct (GetComponent em e "solidexclude") as [| | | | | |g| |]; try done.
      simpl in Hskip. destruct (String.eqb_spec g "") as [|_]; [done|].
      destruct (HasComponent em other g) eqn:Hhas; [|done].
      exfalso. apply not_true_iff_false in Hskip. apply Hskip.
      apply containsEntity_elem_of, elem_of_GetEntitiesWithComponents.
      apply elem_of_GetEntitiesWithComponents in Hin as [Hlive Hc].
      split; [done|].
      unfold carries_all in *.
      destruct (components em !! other) as [cm|] eqn:Hcm; [|done]. simpl.
      unfold HasComponent in Hhas. rewrite Hcm in Hhas.
      apply bool_decide_eq_true in Hhas as [c ->]. done.
    + destruct (GetComponent em other "position"); try done.
      destruct (GetComponent em other "size"); try done.
      by injection Hobs as -> ->.
  - intros (Hin & Hne & Hg & Hp & Hs). split; [done|].
    unfold obstacle. rewrite Hp, Hs.
    destruct (N.eqb_spec other e) as [|_]; [done|]. simpl.
    destruct (hasExclude_of em e && containsEntity (excludeEntities_of em e) other)
      eqn:Hskip; [|done].
    exfalso. apply andb_true_iff in Hskip as [Hhas Hcont].
    unfold hasExclude_of, excludeEntities_of, excluded_name in *.
    destruct (GetComponent em e "solidexclude") as [| | | | | |g| |]; try done.
    destruct (String.eqb_spec g "") as [|Hne']; [done|].
    specialize (Hg Hne').
    apply containsEntity_elem_of, elem_of_GetEntitiesWithComponents in Hcont
      as [_ Hc].
    unfold carries_all in Hc. unfold HasComponent in Hg.
    destruct (components em !! other) as [cm|]; [|done]. simpl in Hc.
    destruct (cm !! g) eqn:Hcg; [|done].
    apply bool_decide_eq_false in Hg. apply Hg. eauto.
Qed.

Lemma seen_faces (o : PositionComponent * SizeComponent) :
  o ∈ seen ↔ ∃ other, faces em e (excluded_name em e) other o.1 o.2.
Proof.
  unfold seen_obstacles. rewrite list_elem_of_omap. destruct o as [op os]. simpl.
  split.
  - intros (other & Hin & Hobs). exists other. by apply obstacle_faces.
  - intros (other & Hf). exists other. by apply obstacle_faces.
Qed.

(** The horizontal move is rejected as soon as one faced obstacle overlaps
    the entity at its candidate abscissa. *)
Lemma processEntity_X_rejected (other : Entity) (op : PositionComponent)
    (os : SizeComponent) :
  faces em e (excluded_name em e) other op os →
  isColliding (pX pos + vX vel * deltaTime) (pY pos) size op os = true →
  pX <$> position_of (processEntity Gravity e deltaTime em) e = Some (pX pos)
  ∧ vX <$> velocity_of (processEntity Gravity e deltaTime em) e = Some 0%float.
Proof.
  intros Hf Hhit. destruct processEntity_commits as [-> ->].
  change (Some (newX final) = Some (pX pos) ∧ Some (velX final) = Some 0%float).
  unfold final_motion.
  destruct (foldl_bump_X_hit pos size seen
              (start_motion Gravity deltaTime pos vel) (op, os)) as [-> ->];
    [apply seen_faces; eauto | done | done].
Qed.

(** It is accepted when no faced obstacle does. *)
Lemma processEntity_X_accepted :
  (∀ other op os, faces em e (excluded_name em e) other op os →
     isColliding (pX pos + vX vel * deltaTime) (pY pos) size op os = false) →
  pX <$> position_of (processEntity Gravity e deltaTime em) e
  = Some (pX pos + vX vel * deltaTime)%float
  ∧ vX <$> velocity_of (processEntity Gravity e deltaTime em) e = Some (vX vel).
Proof.
  intros Hfree. destruct processEntity_commits as [-> ->].
  change (Some (newX final) = Some (pX pos + vX vel * deltaTime)%float
          ∧ Some (velX final) = Some (vX vel)).
  unfold final_motion.
  destruct (foldl_bump_X_free pos size seen
              (start_motion Gravity deltaTime pos vel)) as [-> ->]; [|done].
  intros [op os] (other & Hf)%seen_faces. by apply (Hfree other).
Qed.

Lemma processEntity_Y_rejected (other : Entity) (op : PositionComponent)
    (os : SizeComponent) :
  faces em e (excluded_name em e) other op os →
  isColliding (pX pos)
    (pY pos + (vY vel + Gravity * deltaTime) * deltaTime) size op os = true →
  pY <$> position_of (processEntity Gravity e deltaTime em) e = Some (pY pos)
  ∧ vY <$> velocity_of (processEntity Gravity e deltaTime em) e = Some 0%float.
Proof.
  intros Hf Hhit. destruct processEntity_commits as [-> ->].
  change (Some (newY final) = Some (pY pos) ∧ Some (velY final) = Some 0%float).
  unfold final_motion.
  destruct (foldl_bump_Y_hit pos size seen
              (start_motion Gravity deltaTime pos vel) (op, os)) as [-> ->];
    [apply seen_faces; eauto | done | done].
Qed.

Lemma processEntity_Y_accepted :
  (∀ other op os, faces em e (excluded_name em e) other op os →
     isColliding (pX pos)
       (pY pos + (vY vel + Gravity * deltaTime) * deltaTime) size op os = false) →
  pY <$> position_of (processEntity Gravity e deltaTime em) e
  = Some (pY pos + (vY vel + Gravity * deltaTime) * deltaTime)%float
  ∧ vY <$> velocity_of (processEntity Gravity e deltaTime em) e
    = Some (vY vel + Gravity * deltaTime)%float.
Proof.
  intros Hfree. destruct processEntity_commits as [-> ->].
  change (Some (newY final)
          = Some (pY pos + (vY vel + Gravity * deltaTime) * deltaTime)%float
          ∧ Some (velY final) = Some (vY vel + Gravity * deltaTime)%float).
  unfold final_motion.
  destruct (foldl_bump_Y_free pos size seen
              (start_motion Gravity deltaTime pos vel)) as [-> ->]; [|done].
  intros [op os] (other & Hf)%seen_faces. by apply (Hfree other).
Qed.

End ProcessEntityOutcome.

(** ** Physics: the properties of a tick *)

(** In the scenario one entity moves: A is the only entity with a
    position, a velocity and a size, so [Update] runs one goroutine. *)
Example contact_scenario_has_one_mover (v : VelocityComponent) :
  ∀ e, e ∈ GetEntitiesWithComponents (contact_scenario v)
             ["position"; "velocity"; "size"] ↔ e = 1%N.
Proof.
  intros e.
  assert (Hquery : GetEntitiesWithComponents (contact_scenario v)
                     ["position"; "velocity"; "size"] = [1%N])
    by (vm_compute; reflexivity).
  rewrite Hquery. apply list_elem_of_singleton.
Qed.

(** C3 (as stated, refuted): with velocity (200, 50), after the tick A is
    not at (0, 5) with horizontal velocity 0. *)
Lemma scenario_200_not_rejected :
  let em := Physics.Update 0 tick_seconds
              (contact_scenario {| vX := 200; vY := 50 |}) in
  ¬ (Physics.position_of em 1 = Some {| pX := 0; pY := 5 |}
     ∧ vX <$> Physics.velocity_of em 1 = Some 0%float).
Proof.
  intros em [Hp _].
  apply (f_equal (λ o, match o with
                       | Some p => PrimFloat.ltb 0 (pX p)
                       | None => false
                       end)) in Hp.
  vm_compute in Hp. discriminate.
Qed.

(** C3 (amended): with gravity 0 and a tick of 0.1, A at (0,0), 10 by 10,
    with velocity (200, 50), and solid B at (10,0), 10 by 10: the candidate
    abscissa is 20, where A's rectangle only touches B's (20 is not below
    B's right edge 20), so the test finds no overlap and the move is kept:
    after the tick A is at (20, 5) and its velocity is still (200, 50). *)
Theorem scenario_200_passes_the_obstacle :
  let em := Physics.Update 0 tick_seconds
              (contact_scenario {| vX := 200; vY := 50 |}) in
  Physics.isColliding 20 0 box10 {| pX := 10; pY := 0 |} box10 = false
  ∧ Physics.position_of em 1 = Some {| pX := 20; pY := 5 |}
  ∧ Physics.velocity_of em 1 = Some {| vX := 200; vY := 50 |}.
Proof. vm_compute. done. Qed.

(** With velocity (100, 50) the candidate abscissa is 10, A's rectangle
    overlaps B's, and the horizontal move is rejected. *)
Example scenario_100_is_rejected :
  let em := Physics.Update 0 tick_seconds
              (contact_scenario {| vX := 100; vY := 50 |}) in
  Physics.position_of em 1 = Some {| pX := 0; pY := 5 |}
  ∧ Physics.velocity_of em 1 = Some {| vX := 0; vY := 50 |}.
Proof. vm_compute. done. Qed.

(** C6: an entity whose "solidexclude" is "ghost" is stopped, on each
    axis, by a solid obstacle without a component named "ghost" that
    overlaps its candidate position, and only by such obstacles: if none of
    them overlaps, the move on that axis is kept, whatever the solid
    entities carrying "ghost" are and wherever they stand. *)
Theorem solidexclude_ghost_passes_ghosts_only (Gravity deltaTime : float)
    (em : ECSManager) (e : Entity) (pos : PositionComponent)
    (vel : VelocityComponent) (size : SizeComponent) :
  GetComponent em e "position" = PtrPosition pos →
  GetComponent em e "velocity" = PtrVelocity vel →
  GetComponent em e "size" = PtrSize size →
  GetComponent em e "solidexclude" = StringVal "ghost" →
  let em' := Physics.processEntity Gravity e deltaTime em in
  let candX := (pX pos + vX vel * deltaTime)%float in
  let candY := (pY pos + (vY vel + Gravity * deltaTime) * deltaTime)%float in
  (∀ other op os, HasComponent em other "ghost" = true →
     ¬ Physics.faces em e "ghost" other op os)
  ∧ (∀ other op os, Physics.faces em e "ghost" other op os →
       Physics.isColliding candX (pY pos) size op os = true →
       pX <$> Physics.position_of em' e = Some (pX pos)
       ∧ vX <$> Physics.velocity_of em' e = Some 0%float)
  ∧ (∀ other op os, Physics.faces em e "ghost" other op os →
       Physics.isColliding (pX pos) candY size op os = true →
       pY <$> Physics.position_of em' e = Some (pY pos)
       ∧ vY <$> Physics.velocity_of em' e = Some 0%float)
  ∧ ((∀ other op os, Physics.faces em e "ghost" other op os →
        Physics.isColliding candX (pY pos) size op os = false) →
     pX <$> Physics.position_of em' e = Some candX
     ∧ vX <$> Physics.velocity_of em' e = Some (vX vel))
  ∧ ((∀ other op os, Physics.faces em e "ghost" other op os →
        Physics.isColliding (pX pos) candY size op os = false) →
     pY <$> Physics.position_of em' e = Some candY
     ∧ vY <$> Physics.velocity_of em' e = Some (vY vel + Gravity * deltaTime)%float).
Proof.
  intros Hpos Hvel Hsize Hex em' candX candY.
  assert (Hname : Physics.excluded_name em e = "ghost").
  { unfold Physics.excluded_name. by rewrite Hex. }
  split; [|split; [|split; [|split]]].
  - intros other op os Hghost (_ & _ & Hno & _).
    rewrite Hno in Hghost; done.
  - intros other op os Hf Hhit. rewrite <- Hname in Hf.
    by apply (processEntity_X_rejected Gravity deltaTime em e pos vel size
                Hpos Hvel Hsize other op os).
  - intros other op os Hf Hhit. rewrite <- Hname in Hf.
    by apply (processEntity_Y_rejected Gravity deltaTime em e pos vel size
                Hpos Hvel Hsize other op os).
  - intros Hfree.
    apply (processEntity_X_accepted Gravity deltaTime em e pos vel size
             Hpos Hvel Hsize).
    rewrite Hname. apply Hfree.
  - intros Hfree.
    apply (processEntity_Y_accepted Gravity deltaTime em e pos vel size
             Hpos Hvel Hsize).
    rewrite Hname. apply Hfree.
Qed.

(** B carries "ghost": A, heading into B, moves on to abscissa 10. *)
Lemma solidexclude_ghost_passes_ghosts_only_witness :
  let em := ghost_scenario {| vX := 100; vY := 50 |} true in
  pX <$> Physics.position_of (Physics.processEntity 0 1 tick_seconds em) 1
  = Some 10%float
  ∧ vX <$> Physics.velocity_of (Physics.processEntity 0 1 tick_seconds em) 1
    = Some 100%float.
Proof.
  intros em.
  refine (proj1 (proj2 (proj2 (proj2
    (solidexclude_ghost_passes_ghosts_only 0 tick_seconds em 1
       {| pX := 0; pY := 0 |} {| vX := 100; vY := 50 |} box10
       eq_refl eq_refl eq_refl eq_refl)))) _).
  intros other op os (Hin & _ & Hno & _).
  assert (Hsolid : GetEntitiesWithComponents em ["position"; "size"; "solid"]
                   = [2%N]) by (vm_compute; reflexivity).
  rewrite Hsolid in Hin. apply list_elem_of_singleton in Hin as ->.
  assert (Hhas : HasComponent em 2 "ghost" = true) by (vm_compute; reflexivity).
  rewrite Hno in Hhas; done.
Defined.

(** C7: when some obstacle the entity faces overlaps it at the candidate
    abscissa and none overlaps it at the candidate ordinate, the tick
    leaves the abscissa as it was, sets the horizontal velocity to 0, and
    moves the ordinate by [velocity.y * dt], where [velocity.y] already
    includes this tick's gravity; the vertical velocity keeps that value. *)
Theorem horizontal_block_keeps_vertical_move (Gravity deltaTime : float)
    (em : ECSManager) (e : Entity) (pos : PositionComponent)
    (vel : VelocityComponent) (size : SizeComponent) :
  GetComponent em e "position" = PtrPosition pos →
  GetComponent em e "velocity" = PtrVelocity vel →
  GetComponent em e "size" = PtrSize size →
  let velY := (vY vel + Gravity * deltaTime)%float in
  let candX := (pX pos + vX vel * deltaTime)%float in
  let candY := (pY pos + velY * deltaTime)%float in
  (∃ other op os, Physics.faces em e (Physics.excluded_name em e) other op os
     ∧ Physics.isColliding candX (pY pos) size op os = true) →
  (∀ other op os, Physics.faces em e (Physics.excluded_name em e) other op os →
     Physics.isColliding (pX pos) candY size op os = false) →
  Physics.position_of (Physics.processEntity Gravity e deltaTime em) e
  = Some {| pX := pX pos; pY := candY |}
  ∧ Physics.velocity_of (Physics.processEntity Gravity e deltaTime em) e
    = Some {| vX := 0; vY := velY |}.
Proof.
  intros Hpos Hvel Hsize velY candX candY (other & op & os & Hf & Hhit) Hfree.
  destruct (processEntity_X_rejected Gravity deltaTime em e pos vel size
              Hpos Hvel Hsize other op os Hf Hhit) as [Hx Hvx].
  destruct (processEntity_Y_accepted Gravity deltaTime em e pos vel size
              Hpos Hvel Hsize Hfree) as [Hy Hvy].
  destruct (Physics.position_of _ e) as [[x y]|]; [|done].
  destruct (Physics.velocity_of _ e) as [[vx vy]|]; [|done].
  simpl in *. by simplify_eq.
Qed.

Lemma horizontal_block_keeps_vertical_move_witness :
  let em := contact_scenario {| vX := 100; vY := 50 |} in
  Physics.position_of (Physics.processEntity 0 1 tick_seconds em) 1
  = Some {| pX := 0; pY := 5 |}
  ∧ Physics.velocity_of (Physics.processEntity 0 1 tick_seconds em) 1
    = Some {| vX := 0; vY := 50 |}.
Proof.
  intros em.
  assert (Hsolid : GetEntitiesWithComponents em ["position"; "size"; "solid"]
                   = [2%N]) by (vm_compute; reflexivity).
  apply (horizontal_block_keeps_vertical_move 0 tick_seconds em 1
           {| pX := 0; pY := 0 |} {| vX := 100; vY := 50 |} box10
           eq_refl eq_refl eq_refl).
  - exists 2%N, {| pX := 10; pY := 0 |}, box10.
    split; [|vm_compute; reflexivity].
    split; [rewrite Hsolid; by left|].
    split; [done|]. split; [done|]. split; vm_compute; reflexivity.
  - intros other op os (Hin & _ & _ & Hp & Hs).
    rewrite Hsolid in Hin. apply list_elem_of_singleton in Hin as ->.
    vm_compute in Hp, Hs. injection Hp as <-. injection Hs as <-.
    vm_compute. reflexivity.
Defined.

(** ** Collision keys *)

Section Keys.

Import Collision.

Lemma scan_digits_uint (d : uint) (rest : string) :
  (∀ c r, rest = String c r → is_digit c = false) →
  scan_digits (NilEmpty.string_of_uint d +:+ rest)
  = (NilEmpty.string_of_uint d, rest).
Proof.
  intros Hrest.
  induction d as [|d IH|d IH|d IH|d IH|d IH|d IH|d IH|d IH|d IH|d IH];
    simpl; try (by rewrite IH).
  destruct rest as [|c r]; [done|]. simpl.
  by rewrite (Hrest c r).
Qed.

Lemma decimal_not_empty (n : N) : decimal n ≠ EmptyString.
Proof.
  unfold decimal. intros Hempty.
  pose proof (NilEmpty.usu (N.to_uint n)) as Husu.
  rewrite Hempty in Husu. simpl in Husu. injection Husu as Hnil.
  pose proof (Unsigned.of_to n) as Hn. rewrite <- Hnil in Hn. simpl in Hn.
  subst n. done.
Qed.

Lemma decimal_inj (m n : N) : decimal m = decimal n → m = n.
Proof.
  unfold decimal. intros Heq.
  pose proof (NilEmpty.usu (N.to_uint m)) as Hm.
  rewrite Heq, NilEmpty.usu in Hm. injection Hm as Hm.
  by rewrite <- (Unsigned.of_to m), <- (Unsigned.of_to n), Hm.
Qed.

Lemma scan_uint32_decimal (n : N) (rest : string) :
  is_uint32 n →
  (∀ c r, rest = String c r → is_digit c = false) →
  scan_uint32 (decimal n +:+ rest) = Some (n, rest).
Proof.
  intros Hn Hrest. unfold scan_uint32, decimal.
  rewrite scan_digits_uint by done. fold (decimal n).
  destruct (decimal n) as [|c tok] eqn:Htok; [by apply decimal_not_empty in Htok|].
  rewrite <- Htok. unfold decimal. rewrite NilEmpty.usu, Unsigned.of_to.
  by apply N.ltb_lt in Hn as ->.
Qed.

Lemma append_empty_r (s : string) : s +:+ "" = s.
Proof.
  induction s as [|c s IH]; [done|].
  change (String c (s +:+ "") = String c s). by rewrite IH.
Qed.

(** What [collisionKey] writes starts with a digit: no white space is
    skipped in front of it. *)
Lemma skip_space_digit (c : ascii) (r : string) :
  is_digit c = true → skip_space (String c r) = Some (String c r).
Proof. by destruct c as [[] [] [] [] [] [] [] []]. Qed.

Lemma decimal_head_digit (n : N) (c : ascii) (tok : string) :
  decimal n = String c tok → is_digit c = true.
Proof.
  unfold decimal.
  destruct (N.to_uint n) as [|d|d|d|d|d|d|d|d|d|d]; simpl; [done|..];
    by intros [= <- _].
Qed.

Lemma scan_verb_decimal (n : N) (rest : string) :
  is_uint32 n →
  (∀ c r, rest = String c r → is_digit c = false) →
  scan_verb (decimal n +:+ rest) = Some (n, rest).
Proof.
  intros Hn Hrest. unfold scan_verb.
  destruct (decimal n) as [|c tok] eqn:Htok; [by apply decimal_not_empty in Htok|].
  change (String c tok +:+ rest) with (String c (tok +:+ rest)).
  rewrite skip_space_digit by (by apply (decimal_head_digit n c tok)).
  change (String c (tok +:+ rest)) with (String c tok +:+ rest).
  rewrite <- Htok. by apply scan_uint32_decimal.
Qed.

(** Reading a key back gives the pair it was written from. *)
Lemma parseCollisionKey_collisionKey (a b : Entity) :
  is_uint32 a → is_uint32 b →
  parseCollisionKey (collisionKey a b) = (a, b).
Proof.
  intros Ha Hb. unfold parseCollisionKey, collisionKey.
  change ("-" +:+ decimal b) with (String "-"%char (decimal b)).
  rewrite scan_verb_decimal; [|done|by intros c r [= <- _]].
  simpl.
  rewrite <- (append_empty_r (decimal b)).
  by rewrite scan_verb_decimal.
Qed.

Example collisionKey_12_305 :
  collisionKey 12 305 = "12-305"
  ∧ parseCollisionKey "12-305" = (12%N, 305%N)
  ∧ parseCollisionKey "7-" = (7%N, 0%N)
  ∧ parseCollisionKey "4294967296-1" = (0%N, 0%N)
  ∧ parseCollisionKey " 1-2" = (1%N, 2%N)
  ∧ parseCollisionKey "1- 2" = (1%N, 2%N)
  ∧ parseCollisionKey "1 -2" = (1%N, 0%N)
  ∧ parseCollisionKey (String "010" "1-2") = (0%N, 0%N).
Proof. vm_compute. done. Qed.

Lemma collisionKey_inj (a b a' b' : Entity) :
  collisionKey a b = collisionKey a' b' → a = a' ∧ b = b'.
Proof.
  unfold collisionKey, decimal. intros Heq.
  apply (f_equal scan_digits) in Heq.
  rewrite !scan_digits_uint in Heq by (simpl; by intros c r [= <- _]).
  injection Heq as Ha Hb.
  split; by apply decimal_inj.
Qed.

Lemma collisionKey_ordered (a b : Entity) :
  a ≠ b → collisionKey a b ≠ collisionKey b a.
Proof. intros Hne Heq. by apply collisionKey_inj in Heq as [? _]. Qed.

End Keys.

(** ** Collision engine: what one tick does to one ordered pair *)

Section Pair.

Import Collision.

Variables (cm : CollisionManager) (em : ECSManager) (a b : Entity).

Lemma calls_on_app (l1 l2 : list Event) :
  calls_on a b (l1 ++ l2) = calls_on a b l1 ++ calls_on a b l2.
Proof. apply omap_app. Qed.

Lemma tests_of_app (l1 l2 : list Event) :
  tests_of a b (l1 ++ l2) = tests_of a b l1 + tests_of a b l2.
Proof. unfold tests_of. by rewrite List.filter_app, length_app. Qed.

Lemma calls_on_fire (f : option Callback) (x y : Entity) (evs : list Event) :
  calls_on a b (fire f x y evs)
  = calls_on a b evs
    ++ (if (x =? a)%N && (y =? b)%N then option_list f else []).
Proof.
  destruct f as [cb|]; simpl.
  - rewrite calls_on_app. simpl. by destruct ((x =? a)%N && (y =? b)%N).
  - destruct ((x =? a)%N && (y =? b)%N); by rewrite app_nil_r.
Qed.

Lemma tests_of_fire (f : option Callback) (x y : Entity) (evs : list Event) :
  tests_of a b (fire f x y evs) = tests_of a b evs.
Proof.
  destruct f as [cb|]; simpl; [|done].
  unfold tests_of. rewrite List.filter_app, length_app. simpl. lia.
Qed.

Lemma other_key (e1 e2 : Entity) :
  (e1 =? a)%N && (e2 =? b)%N = false → collisionKey e1 e2 ≠ collisionKey a b.
Proof.
  intros Hne [-> ->]%collisionKey_inj. by rewrite !N.eqb_refl in Hne.
Qed.

(** Evaluating another pair does not show in the view of [(a, b)]. *)
Lemma visit_other (e1 e2 : Entity) (c1 : ColliderComponent)
    (p1 : PositionComponent) (t : Tick) :
  (e1 =? a)%N && (e2 =? b)%N = false →
  view a b (visit cm em e1 c1 p1 t e2) = view a b t.
Proof.
  intros Hne. pose proof (other_key e1 e2 Hne) as Hkey.
  unfold visit.
  destruct (e1 =? e2)%N; [done|].
  destruct (getComponents em e2) as [[[c2 p2] s2]|]; [|done].
  destruct (getHandler cm (Group c1) (Group c2)) as [h|]; [|done].
  destruct (processed t !! collisionKey e1 e2); [done|].
  destruct (checkCollision p1 c1 p2 c2);
    [destruct (tracked t !! collisionKey e1 e2)|];
    unfold view; simpl;
    rewrite ?calls_on_fire, ?calls_on_app, ?Hne, ?lookup_insert_ne by done;
    simpl; by rewrite ?app_nil_r.
Qed.

(** Evaluating [(a, b)] itself, the first time. *)
Lemma visit_same (ca cb : ColliderComponent) (pa pb : PositionComponent)
    (sb : SizeComponent) (h : CollisionHandler) (t : Tick) :
  a ≠ b →
  getComponents em b = Some (cb, pb, sb) →
  getHandler cm (Group ca) (Group cb) = Some h →
  processed t !! collisionKey a b = None →
  view a b (visit cm em a ca pa t b)
  = step_view h (checkCollision pa ca pb cb) (view a b t).
Proof.
  intros Hab Hb Hh Hfresh. unfold visit.
  destruct (N.eqb_spec a b) as [|_]; [done|].
  rewrite Hb, Hh, Hfresh. unfold step_view, view at 2. simpl.
  destruct (checkCollision pa ca pb cb);
    [destruct (tracked t !! collisionKey a b) eqn:Htracked|];
    unfold view; simpl;
    rewrite ?calls_on_fire, ?calls_on_app, ?N.eqb_refl, ?lookup_insert_eq;
    simpl; by rewrite ?app_nil_r, ?Htracked.
Qed.

Lemma inner_skip (e1 : Entity) (c1 : ColliderComponent) (p1 : PositionComponent)
    (l : list Entity) (t : Tick) :
  (∀ e2, e2 ∈ l → (e1 =? a)%N && (e2 =? b)%N = false) →
  view a b (foldl (visit cm em e1 c1 p1) t l) = view a b t.
Proof.
  revert t. induction l as [|e2 l IH]; intros t Hl; simpl; [done|].
  rewrite IH by (intros e2' Hin; apply Hl; by right).
  apply visit_other, Hl. by left.
Qed.

Lemma inner_hit (ca cb : ColliderComponent) (pa pb : PositionComponent)
    (sb : SizeComponent) (h : CollisionHandler) (l : list Entity) (t : Tick) :
  a ≠ b →
  getComponents em b = Some (cb, pb, sb) →
  getHandler cm (Group ca) (Group cb) = Some h →
  NoDup l → b ∈ l →
  processed t !! collisionKey a b = None →
  view a b (foldl (visit cm em a ca pa) t l)
  = step_view h (checkCollision pa ca pb cb) (view a b t).
Proof.
  intros Hab Hb Hh Hnd. revert t.
  induction Hnd as [|e2 l Hnotin Hnd IH]; intros t Hin Hfresh; [inversion Hin|].
  simpl. destruct (decide (e2 = b)) as [->|Hne].
  - rewrite inner_skip.
    + by apply (visit_same ca cb pa pb sb).
    + intros e2 Hin'. destruct (N.eqb_spec e2 b) as [->|_]; [done|].
      by rewrite andb_false_r.
  - assert (Hskip : (a =? a)%N && (e2 =? b)%N = false).
    { destruct (N.eqb_spec e2 b); [done | by rewrite andb_false_r]. }
    pose proof (visit_other a e2 ca pa t Hskip) as Hview.
    rewrite IH.
    + by rewrite Hview.
    + apply elem_of_cons in Hin as [?|?]; done.
    + apply (f_equal seen_processed) in Hview. simpl in Hview. congruence.
Qed.

Lemma outer_skip (ents l : list Entity) (t : Tick) :
  a ∉ l →
  view a b (foldl (scan_from cm em ents) t l) = view a b t.
Proof.
  revert t. induction l as [|e1 l IH]; intros t Hl; simpl; [done|].
  apply not_elem_of_cons in Hl as [Hne Hl].
  rewrite IH by done. unfold scan_from.
  destruct (getComponents em e1) as [[[c1 p1] s1]|]; [|done].
  apply inner_skip. intros e2 _.
  by destruct (N.eqb_spec e1 a).
Qed.

Lemma outer_hit (ca cb : ColliderComponent) (pa pb : PositionComponent)
    (sa sb : SizeComponent) (h : CollisionHandler) (ents l : list Entity)
    (t : Tick) :
  a ≠ b →
  getComponents em a = Some (ca, pa, sa) →
  getComponents em b = Some (cb, pb, sb) →
  getHandler cm (Group ca) (Group cb) = Some h →
  NoDup ents → b ∈ ents →
  NoDup l → a ∈ l →
  processed t !! collisionKey a b = None →
  view a b (foldl (scan_from cm em ents) t l)
  = step_view h (checkCollision pa ca pb cb) (view a b t).
Proof.
  intros Hab Ha Hb Hh Hnd Hbin Hndl. revert t.
  induction Hndl as [|e1 l Hnotin Hndl IH]; intros t Hin Hfresh; [inversion Hin|].
  simpl. destruct (decide (e1 = a)) as [->|Hne].
  - rewrite outer_skip by done. unfold scan_from. rewrite Ha.
    by apply (inner_hit ca cb pa pb sb).
  - assert (Hview : view a b (scan_from cm em ents t e1) = view a b t).
    { unfold scan_from.
      destruct (getComponents em e1) as [[[c1 p1] s1]|]; [|done].
      apply inner_skip. intros e2 _. by destruct (N.eqb_spec e1 a). }
    rewrite IH.
    + by rewrite Hview.
    + apply elem_of_cons in Hin as [?|?]; done.
    + apply (f_equal seen_processed) in Hview. simpl in Hview. congruence.
Qed.

Lemma tests_of_single (x y : Entity) (hit : bool) :
  tests_of a b [Tested x y hit] = if (x =? a)%N && (y =? b)%N then 1 else 0.
Proof. unfold tests_of. simpl. by destruct ((x =? a)%N && (y =? b)%N). Qed.

Lemma option_list_length {A : Type} (o : option A) : length (option_list o) ≤ 1.
Proof. destruct o; simpl; lia. Qed.

(** Recording one evaluation keeps [tested_once]: the pair evaluated was
    not yet in [processed]. *)
Lemma tested_once_record (t : Tick) (e1 e2 : Entity) (hit : bool)
    (f : option Callback) (cur trk : gmap string bool) :
  tested_once a b t →
  processed t !! collisionKey e1 e2 = None →
  tested_once a b
    {| processed := <[collisionKey e1 e2 := true]> (processed t);
       currentCollisions := cur;
       tracked := trk;
       events := fire f e1 e2 (events t ++ [Tested e1 e2 hit]) |}.
Proof.
  intros [Hcalls Htests] Hfresh. unfold tested_once. simpl.
  rewrite calls_on_fire, tests_of_fire, calls_on_app, tests_of_app.
  rewrite tests_of_single, !length_app. simpl.
  pose proof (option_list_length f) as Hf.
  destruct ((e1 =? a)%N && (e2 =? b)%N) eqn:Hpair; simpl.
  - apply andb_true_iff in Hpair as [->%N.eqb_eq ->%N.eqb_eq].
    destruct Htests as [[Hzero _]|[_ [v Hv]]]; [|congruence].
    rewrite Hzero in *. split; [lia|]. right. split; [done|].
    rewrite lookup_insert_eq. eauto.
  - split; [lia|].
    rewrite lookup_insert_ne by by apply other_key.
    destruct Htests as [[Hzero Hproc]|[Hone Hproc]]; [left | right];
      (split; [lia | done]).
Qed.

Lemma visit_tested_once (e1 e2 : Entity) (c1 : ColliderComponent)
    (p1 : PositionComponent) (t : Tick) :
  tested_once a b t → tested_once a b (visit cm em e1 c1 p1 t e2).
Proof.
  intros Hinv. unfold visit.
  destruct (e1 =? e2)%N; [done|].
  destruct (getComponents em e2) as [[[c2 p2] s2]|]; [|done].
  destruct (getHandler cm (Group c1) (Group c2)) as [h|]; [|done].
  destruct (processed t !! collisionKey e1 e2) eqn:Hfresh; [done|].
  destruct (checkCollision p1 c1 p2 c2);
    [destruct (tracked t !! collisionKey e1 e2)|].
  - by apply tested_once_record.
  - by apply tested_once_record.
  - by apply (tested_once_record t e1 e2 false None).
Qed.

Lemma inner_tested_once (e1 : Entity) (c1 : ColliderComponent)
    (p1 : PositionComponent) (l : list Entity) (t : Tick) :
  tested_once a b t → tested_once a b (foldl (visit cm em e1 c1 p1) t l).
Proof.
  revert t. induction l as [|e2 l IH]; intros t Ht; simpl; [done|].
  by apply IH, visit_tested_once.
Qed.

Lemma outer_tested_once (ents l : list Entity) (t : Tick) :
  tested_once a b t → tested_once a b (foldl (scan_from cm em ents) t l).
Proof.
  revert t. induction l as [|e1 l IH]; intros t Ht; simpl; [done|].
  apply IH. unfold scan_from.
  destruct (getComponents em e1) as [[[c1 p1] s1]|]; [|done].
  by apply inner_tested_once.
Qed.

Lemma detect_tested_once : tested_once a b (detect cm em).
Proof.
  unfold detect. apply outer_tested_once. split; [done|]. by left.
Qed.

(** The closing [Range] only adds calls. *)
Lemma release_tests (cur : gmap string bool) (k : string)
    (st : gmap string bool * list Event) :
  tests_of a b (release cm em cur k st).2 = tests_of a b st.2.
Proof.
  destruct st as [prev evs]. unfold release.
  destruct (cur !! k); [done|].
  destruct (parseCollisionKey k) as [e1 e2].
  destruct (getComponents em e1) as [[[c1 p1] s1]|]; [|done].
  destruct (getComponents em e2) as [[[c2 p2] s2]|]; [|done].
  destruct (getHandler cm (Group c1) (Group c2)); [|done].
  simpl. apply tests_of_fire.
Qed.

Lemma Update_events :
  (Update cm em).2
  = (foldl (λ st kv, release cm em (currentCollisions (detect cm em)) kv.1 st)
       (tracked (detect cm em), events (detect cm em))
       (map_to_list (tracked (detect cm em)))).2
  ∧ previousCollisions (Update cm em).1
    = (foldl (λ st kv, release cm em (currentCollisions (detect cm em)) kv.1 st)
         (tracked (detect cm em), events (detect cm em))
         (map_to_list (tracked (detect cm em)))).1
  ∧ handlers (Update cm em).1 = handlers cm.
Proof.
  unfold Update, Range.
  rewrite (range_list_all
             (λ k (_ : bool) st,
                release cm em (currentCollisions (detect cm em)) k st)).
  by destruct (foldl _ _ _).
Qed.

Lemma Update_tests : tests_of a b (Update cm em).2 = tests_of a b (events (detect cm em)).
Proof.
  destruct Update_events as [-> _].
  generalize (map_to_list (tracked (detect cm em))). intros l.
  change (events (detect cm em))
    with (tracked (detect cm em), events (detect cm em)).2 at 2.
  generalize (tracked (detect cm em), events (detect cm em)).
  induction l as [|kv l IH]; intros st; simpl; [done|].
  by rewrite IH, release_tests.
Qed.

(** Being collidable, a live entity is among those the tick walks. *)
Lemma collidable_listed (e : Entity)
    (x : ColliderComponent * PositionComponent * SizeComponent) :
  is_Some (entities em !! e) →
  getComponents em e = Some x →
  e ∈ GetEntitiesWithComponents em ["collider"; "position"; "size"].
Proof.
  intros Hlive Hx. apply elem_of_GetEntitiesWithComponents. split; [done|].
  unfold getComponents, GetComponent, carries_all in *.
  destruct (components em !! e) as [store|]; [|done]. simpl.
  destruct (store !! "collider"); [|done].
  destruct (store !! "position"); [|by destruct c].
  destruct (store !! "size"); [done|]. simpl in Hx. by destruct c, c0.
Qed.

(** The nested loops, seen from the pair [(a, b)]. *)
Lemma detect_view (h : CollisionHandler) (hit : bool) :
  a ≠ b →
  pair_state cm em a b h hit →
  view a b (detect cm em)
  = step_view h hit
      {| seen_calls := []; seen_processed := None; seen_current := None;
         seen_tracked := previousCollisions cm !! collisionKey a b |}.
Proof.
  intros Hab (Hla & Hlb & ca & pa & sa & cb & pb & sb & Ha & Hb & Hh & <-).
  unfold detect.
  rewrite (outer_hit ca cb pa pb sa sb h); try done.
  - apply GetEntitiesWithComponents_NoDup.
  - by apply (collidable_listed b (cb, pb, sb)).
  - apply GetEntitiesWithComponents_NoDup.
  - by apply (collidable_listed a (ca, pa, sa)).
Qed.

End Pair.

(** ** Collision engine: the closing pass and the tracked set *)

Section Release.

Import Collision.

Variables (cm : CollisionManager) (em : ECSManager) (a b : Entity).

(** The release of another key shows neither in the calls on [(a, b)] nor
    in whether the key of [(a, b)] is tracked. *)
Lemma release_other (cur : gmap string bool) (k : string)
    (st : gmap string bool * list Event) :
  k ≠ collisionKey a b → written k →
  calls_on a b (release cm em cur k st).2 = calls_on a b st.2
  ∧ (release cm em cur k st).1 !! collisionKey a b = st.1 !! collisionKey a b.
Proof.
  intros Hne (x & y & Hx & Hy & ->). destruct st as [prev evs].
  unfold release. destruct (cur !! collisionKey x y); [done|].
  rewrite parseCollisionKey_collisionKey by done.
  assert (Hpair : (x =? a)%N && (y =? b)%N = false).
  { apply not_true_iff_false. intros [->%N.eqb_eq ->%N.eqb_eq]%andb_true_iff.
    done. }
  destruct (getComponents em x) as [[[c1 p1] s1]|];
    [destruct (getComponents em y) as [[[c2 p2] s2]|];
       [destruct (getHandler cm (Group c1) (Group c2))|]|];
    simpl; rewrite ?calls_on_fire, ?Hpair, ?app_nil_r, lookup_delete_ne; done.
Qed.

Lemma release_kept (cur : gmap string bool) (k : string)
    (st : gmap string bool * list Event) :
  is_Some (cur !! k) → release cm em cur k st = st.
Proof. intros [v Hv]. destruct st. unfold release. by rewrite Hv. Qed.

Lemma release_same (cur : gmap string bool) (st : gmap string bool * list Event)
    (h : CollisionHandler) (hit : bool) :
  is_uint32 a → is_uint32 b →
  pair_state cm em a b h hit →
  cur !! collisionKey a b = None →
  calls_on a b (release cm em cur (collisionKey a b) st).2
  = calls_on a b st.2 ++ option_list (Leave h)
  ∧ (release cm em cur (collisionKey a b) st).1 !! collisionKey a b = None.
Proof.
  intros Ha Hb (_ & _ & ca & pa & sa & cb & pb & sb & Hca & Hcb & Hh & _) Hcur.
  destruct st as [prev evs]. unfold release.
  rewrite Hcur, parseCollisionKey_collisionKey, Hca, Hcb, Hh by done.
  simpl. rewrite calls_on_fire, !N.eqb_refl, lookup_delete_eq. done.
Qed.

Lemma release_canonical (cur : gmap string bool) (k : string)
    (st : gmap string bool * list Event) :
  canonical st.1 → canonical (release cm em cur k st).1.
Proof.
  intros Hcan. destruct st as [prev evs]. unfold release.
  destruct (cur !! k); [done|].
  destruct (parseCollisionKey k) as [e1 e2].
  assert (Hdel : canonical (delete k prev)).
  { intros k' [v Hv]. apply lookup_delete_Some in Hv as [_ Hv].
    apply Hcan. eauto. }
  destruct (getComponents em e1) as [[[c1 p1] s1]|]; [|done].
  destruct (getComponents em e2) as [[[c2 p2] s2]|]; [|done].
  by destruct (getHandler cm (Group c1) (Group c2)).
Qed.

Lemma closing_canonical (cur : gmap string bool) (l : list (string * bool))
    (st : gmap string bool * list Event) :
  canonical st.1 →
  canonical (foldl (λ st kv, release cm em cur kv.1 st) st l).1.
Proof.
  revert st. induction l as [|kv l IH]; intros st Hcan; simpl; [done|].
  by apply IH, release_canonical.
Qed.

(** The closing pass over keys none of which is the key of [(a, b)], or
    when the pair is among this tick's collisions. *)
Lemma closing_skip (cur : gmap string bool) (l : list (string * bool))
    (st : gmap string bool * list Event) :
  (∀ kv, kv ∈ l → written kv.1) →
  is_Some (cur !! collisionKey a b) ∨ (∀ kv, kv ∈ l → kv.1 ≠ collisionKey a b) →
  calls_on a b (foldl (λ st kv, release cm em cur kv.1 st) st l).2
  = calls_on a b st.2
  ∧ (foldl (λ st kv, release cm em cur kv.1 st) st l).1 !! collisionKey a b
    = st.1 !! collisionKey a b.
Proof.
  revert st. induction l as [|kv l IH]; intros st Hwr Hskip; simpl; [done|].
  destruct (IH (release cm em cur kv.1 st)) as [-> ->].
  - intros kv' Hin. apply Hwr. by right.
  - destruct Hskip as [?|Hskip]; [by left|].
    right. intros kv' Hin. apply Hskip. by right.
  - destruct (decide (kv.1 = collisionKey a b)) as [Heq|Hne].
    + destruct Hskip as [Hcur|Hskip].
      * rewrite Heq, release_kept; done.
      * exfalso. apply (Hskip kv); [by left | done].
    + apply release_other; [done|]. apply Hwr. by left.
Qed.

(** The closing pass when the key of [(a, b)] is tracked and the pair is
    not among this tick's collisions. *)
Lemma closing_hit (cur : gmap string bool) (l : list (string * bool))
    (st : gmap string bool * list Event) (h : CollisionHandler) (hit : bool) :
  is_uint32 a → is_uint32 b →
  pair_state cm em a b h hit →
  cur !! collisionKey a b = None →
  (∀ kv, kv ∈ l → written kv.1) →
  NoDup (l.*1) → collisionKey a b ∈ l.*1 →
  calls_on a b (foldl (λ st kv, release cm em cur kv.1 st) st l).2
  = calls_on a b st.2 ++ option_list (Leave h)
  ∧ (foldl (λ st kv, release cm em cur kv.1 st) st l).1 !! collisionKey a b
    = None.
Proof.
  intros Ha Hb Hpair Hcur. revert st.
  induction l as [|kv l IH]; intros st Hwr Hnd Hin; [inversion Hin|].
  simpl in *. apply NoDup_cons in Hnd as [Hnotin Hnd].
  destruct (decide (kv.1 = collisionKey a b)) as [Heq|Hne].
  - destruct (closing_skip cur l (release cm em cur kv.1 st)) as [-> ->].
    + intros kv' Hin'. apply Hwr. by right.
    + right. intros kv' Hin' Heq'. apply Hnotin. rewrite Heq, <- Heq'.
      by apply list_elem_of_fmap_2.
    + rewrite Heq. by apply (release_same cur st h hit).
  - destruct (IH (release cm em cur kv.1 st)) as [-> ->].
    + intros kv' Hin'. apply Hwr. by right.
    + done.
    + apply elem_of_cons in Hin as [?|?]; done.
    + destruct (release_other cur kv.1 st) as [-> _]; [done| |done].
      apply Hwr. by left.
Qed.

(** The detection loops add only keys written from the entities walked. *)
Lemma visit_canonical (e1 e2 : Entity) (c1 : ColliderComponent)
    (p1 : PositionComponent) (t : Tick) :
  is_uint32 e1 → is_uint32 e2 →
  canonical (tracked t) → canonical (tracked (visit cm em e1 c1 p1 t e2)).
Proof.
  intros He1 He2 Hcan. unfold visit.
  destruct (e1 =? e2)%N; [done|].
  destruct (getComponents em e2) as [[[c2 p2] s2]|]; [|done].
  destruct (getHandler cm (Group c1) (Group c2)) as [h|]; [|done].
  destruct (processed t !! collisionKey e1 e2); [done|].
  destruct (checkCollision p1 c1 p2 c2); [|done].
  destruct (tracked t !! collisionKey e1 e2); [done|]. simpl.
  intros k [v Hv]. apply lookup_insert_Some in Hv as [[<- _]|[_ Hv]].
  - by exists e1, e2.
  - apply Hcan. eauto.
Qed.

Lemma detect_canonical :
  uint32_ids em → canonical (previousCollisions cm) →
  canonical (tracked (detect cm em)).
Proof.
  intros Hids Hcan. unfold detect.
  assert (Hents : ∀ e,
            e ∈ GetEntitiesWithComponents em ["collider"; "position"; "size"] →
            is_uint32 e).
  { intros e [Hlive _]%elem_of_GetEntitiesWithComponents. by apply Hids. }
  revert Hents.
  generalize (GetEntitiesWithComponents em ["collider"; "position"; "size"]).
  intros ents Hents.
  assert (Houter : ∀ l t, (∀ e, e ∈ l → is_uint32 e) → canonical (tracked t) →
            canonical (tracked (foldl (scan_from cm em ents) t l))).
  { induction l as [|e1 l IH]; intros t Hl Ht; simpl; [done|].
    apply IH; [intros e' ?; apply Hl; by right|].
    unfold scan_from.
    destruct (getComponents em e1) as [[[c1 p1] s1]|]; [|done].
    assert (He1 : is_uint32 e1) by (apply Hl; by left).
    clear IH Hl. revert t Ht.
    assert (Hinner : ∀ inner t, (∀ e, e ∈ inner → is_uint32 e) →
              canonical (tracked t) →
              canonical (tracked (foldl (visit cm em e1 c1 p1) t inner))).
    { induction inner as [|e2 inner IH]; intros t Hl Ht; simpl; [done|].
      apply IH; [intros e' ?; apply Hl; by right|].
      apply visit_canonical; [done | apply Hl; by left | done]. }
    intros t Ht. by apply Hinner. }
  by apply Houter.
Qed.

Lemma Update_canonical :
  uint32_ids em → canonical (previousCollisions cm) →
  canonical (previousCollisions (Update cm em).1).
Proof.
  intros Hids Hcan. destruct (Update_events cm em) as (_ & -> & _).
  apply closing_canonical. simpl. by apply detect_canonical.
Qed.

(** One tick, seen from the pair [(a, b)]: the calls made on it and
    whether it is tracked afterwards are decided by its overlap and by
    whether it was tracked before. *)
Lemma Update_pair (h : CollisionHandler) (hit : bool) :
  a ≠ b →
  uint32_ids em → canonical (previousCollisions cm) →
  pair_state cm em a b h hit →
  calls_on a b (Update cm em).2
  = match hit, previousCollisions cm !! collisionKey a b with
    | true, None => option_list (Enter h)
    | true, Some _ => option_list (Stay h)
    | false, Some _ => option_list (Leave h)
    | false, None => []
    end
  ∧ (if hit then is_Some (previousCollisions (Update cm em).1 !! collisionKey a b)
     else previousCollisions (Update cm em).1 !! collisionKey a b = None).
Proof.
  intros Hab Hids Hcan Hpair.
  pose proof (detect_view cm em a b h hit Hab Hpair) as Hview.
  pose proof (detect_canonical Hids Hcan) as Hcan'.
  destruct (Update_events cm em) as (-> & -> & _).
  assert (Hwr : ∀ kv, kv ∈ map_to_list (tracked (detect cm em)) → written kv.1).
  { intros [k v] Hin%elem_of_map_to_list. apply Hcan'. eauto. }
  assert (Ha : is_uint32 a) by (apply Hids, Hpair).
  assert (Hb : is_uint32 b) by (apply Hids, Hpair).
  pose proof (f_equal seen_calls Hview) as Hcalls.
  pose proof (f_equal seen_current Hview) as Hcur.
  pose proof (f_equal seen_tracked Hview) as Htrk.
  destruct hit, (previousCollisions cm !! collisionKey a b) as [w|] eqn:Hwas;
    unfold step_view in Hcalls, Hcur, Htrk; simpl in Hcalls, Hcur, Htrk.
  - destruct (closing_skip (currentCollisions (detect cm em))
                (map_to_list (tracked (detect cm em)))
                (tracked (detect cm em), events (detect cm em))) as [-> ->];
      [done | left; rewrite Hcur; eauto | ].
    simpl. rewrite Hcalls, Htrk. eauto.
  - destruct (closing_skip (currentCollisions (detect cm em))
                (map_to_list (tracked (detect cm em)))
                (tracked (detect cm em), events (detect cm em))) as [-> ->];
      [done | left; rewrite Hcur; eauto | ].
    simpl. rewrite Hcalls, Htrk. eauto.
  - destruct (closing_hit (currentCollisions (detect cm em))
                (map_to_list (tracked (detect cm em)))
                (tracked (detect cm em), events (detect cm em)) h false)
      as [-> ->]; try done.
    + apply NoDup_fst_map_to_list.
    + apply list_elem_of_fmap. exists (collisionKey a b, w).
      split; [done|]. by apply elem_of_map_to_list.
    + simpl. by rewrite Hcalls.
  - destruct (closing_skip (currentCollisions (detect cm em))
                (map_to_list (tracked (detect cm em)))
                (tracked (detect cm em), events (detect cm em))) as [-> ->];
      [done | right | ].
    + intros [k v] Hin%elem_of_map_to_list Heq. simpl in Heq. subst k.
      congruence.
    + simpl. by rewrite Hcalls, Htrk.
Qed.

Lemma pair_state_handlers (cm' : CollisionManager) (h : CollisionHandler)
    (hit : bool) :
  handlers cm' = handlers cm →
  pair_state cm em a b h hit → pair_state cm' em a b h hit.
Proof.
  intros Hh (Hla & Hlb & ca & pa & sa & cb & pb & sb & Ha & Hb & Hget & Hhit).
  split; [done|]. split; [done|].
  exists ca, pa, sa, cb, pb, sb. repeat split; try done.
  unfold getHandler in *. by rewrite Hh.
Qed.

End Release.

(** ** Collision engine: enter, stay, leave *)

Lemma canonical_new : Collision.canonical ∅.
Proof. intros k [v Hv]. by rewrite lookup_empty in Hv. Qed.

Lemma uint32_ids_two_npcs (x2 : float) : uint32_ids (two_npcs x2).
Proof. apply uint32_ids_check. vm_compute. reflexivity. Qed.

(** C4 (as stated, refuted): the pair (1, 2) is collidable with a handler
    for its groups and its overlap in four consecutive ticks is false,
    true, true, false, but it overlapped in the tick before them, so its
    key is tracked when the first of the four starts: the first tick calls
    Leave, and the calls on the pair are Leave, Enter, Stay, Leave. *)
Lemma window_after_an_overlap_starts_with_leave :
  let cm0 := (Collision.Update npc_manager (two_npcs 5)).1 in
  let tick1 := Collision.Update cm0 (two_npcs 20) in
  let tick2 := Collision.Update tick1.1 (two_npcs 5) in
  let tick3 := Collision.Update tick2.1 (two_npcs 5) in
  let tick4 := Collision.Update tick3.1 (two_npcs 20) in
  Collision.pair_state cm0 (two_npcs 20) 1 2 npc_handler false
  ∧ Collision.pair_state cm0 (two_npcs 5) 1 2 npc_handler true
  ∧ Collision.calls_on 1 2 tick1.2 ≠ []
  ∧ Collision.calls_on 1 2 tick1.2 ++ Collision.calls_on 1 2 tick2.2
    ++ Collision.calls_on 1 2 tick3.2 ++ Collision.calls_on 1 2 tick4.2
    = ["leave"; "enter"; "stay"; "leave"].
Proof.
  intros cm0 tick1 tick2 tick3 tick4.
  assert (Hstate : ∀ x2 hit,
            Collision.checkCollision {| pX := 0; pY := 0 |} (square_collider "npc")
              {| pX := x2; pY := 0 |} (square_collider "npc") = hit →
            Collision.pair_state cm0 (two_npcs x2) 1 2 npc_handler hit).
  { intros x2 hit Hhit.
    split; [by exists true|]. split; [by exists true|].
    exists (square_collider "npc"), {| pX := 0; pY := 0 |}, box10,
      (square_collider "npc"), {| pX := x2; pY := 0 |}, box10.
    split; [done|]. split; [done|]. split; [|done].
    vm_compute. reflexivity. }
  split; [apply Hstate; vm_compute; reflexivity|].
  split; [apply Hstate; vm_compute; reflexivity|].
  split; vm_compute; done.
Qed.

(** C4 (amended): for a pair of distinct collidable entities with handler
    [h] registered for their groups, whose overlap in four consecutive
    ticks is false, true, true, false: the calls made on the pair are
    [h]'s Enter in the second tick, [h]'s Stay in the third and [h]'s
    Leave, once, in the fourth, after which the key of the pair is no
    longer tracked. In the first tick nothing is called on the pair when
    its key is not tracked as the tick starts, and [h]'s Leave is called
    when it is tracked, as after a tick in which the pair overlapped. (A
    callback [h] does not have is not called; the registry may change
    between ticks.) *)
Theorem overlap_false_true_true_false_fires_enter_stay_leave
    (cm0 : Collision.CollisionManager) (em1 em2 em3 em4 : ECSManager)
    (a b : Entity) (h : Collision.CollisionHandler) :
  a ≠ b →
  Collision.canonical (Collision.previousCollisions cm0) →
  uint32_ids em1 → uint32_ids em2 → uint32_ids em3 → uint32_ids em4 →
  Collision.pair_state cm0 em1 a b h false →
  Collision.pair_state cm0 em2 a b h true →
  Collision.pair_state cm0 em3 a b h true →
  Collision.pair_state cm0 em4 a b h false →
  let tick1 := Collision.Update cm0 em1 in
  let tick2 := Collision.Update tick1.1 em2 in
  let tick3 := Collision.Update tick2.1 em3 in
  let tick4 := Collision.Update tick3.1 em4 in
  Collision.calls_on a b tick1.2
  = match Collision.previousCollisions cm0 !! Collision.collisionKey a b with
    | None => []
    | Some _ => option_list (Collision.Leave h)
    end
  ∧ Collision.calls_on a b tick2.2 = option_list (Collision.Enter h)
  ∧ Collision.calls_on a b tick3.2 = option_list (Collision.Stay h)
  ∧ Collision.calls_on a b tick4.2 = option_list (Collision.Leave h)
  ∧ Collision.previousCollisions tick4.1 !! Collision.collisionKey a b = None.
Proof.
  intros Hab Hcan0 Hid1 Hid2 Hid3 Hid4 Hs1 Hs2 Hs3 Hs4
    tick1 tick2 tick3 tick4.
  assert (Hh1 : Collision.handlers tick1.1 = Collision.handlers cm0)
    by apply Update_events.
  assert (Hh2 : Collision.handlers tick2.1 = Collision.handlers cm0)
    by (unfold tick2; by rewrite (proj2 (proj2 (Update_events _ _)))).
  assert (Hh3 : Collision.handlers tick3.1 = Collision.handlers cm0)
    by (unfold tick3; by rewrite (proj2 (proj2 (Update_events _ _)))).
  pose proof (Update_canonical cm0 em1 Hid1 Hcan0) as Hcan1.
  pose proof (Update_canonical tick1.1 em2 Hid2 Hcan1) as Hcan2.
  pose proof (Update_canonical tick2.1 em3 Hid3 Hcan2) as Hcan3.
  destruct (Update_pair cm0 em1 a b h false Hab Hid1 Hcan0 Hs1) as [Hc1 Ht1].
  destruct (Update_pair tick1.1 em2 a b h true Hab Hid2 Hcan1
              (pair_state_handlers cm0 em2 a b _ h true Hh1 Hs2)) as [Hc2 Ht2].
  fold tick1 in Ht1. rewrite Ht1 in Hc2.
  destruct (Update_pair tick2.1 em3 a b h true Hab Hid3 Hcan2
              (pair_state_handlers cm0 em3 a b _ h true Hh2 Hs3)) as [Hc3 Ht3].
  fold tick2 in Ht2. destruct Ht2 as [w2 Ht2]. rewrite Ht2 in Hc3.
  destruct (Update_pair tick3.1 em4 a b h false Hab Hid4 Hcan3
              (pair_state_handlers cm0 em4 a b _ h false Hh3 Hs4)) as [Hc4 Ht4].
  fold tick3 in Ht3. destruct Ht3 as [w3 Ht3]. rewrite Ht3 in Hc4.
  done.
Qed.

Lemma overlap_false_true_true_false_fires_enter_stay_leave_witness :
  let tick1 := Collision.Update npc_manager (two_npcs 20) in
  let tick2 := Collision.Update tick1.1 (two_npcs 5) in
  let tick3 := Collision.Update tick2.1 (two_npcs 5) in
  let tick4 := Collision.Update tick3.1 (two_npcs 20) in
  Collision.calls_on 1 2 tick1.2 = []
  ∧ Collision.calls_on 1 2 tick2.2 = ["enter"]
  ∧ Collision.calls_on 1 2 tick3.2 = ["stay"]
  ∧ Collision.calls_on 1 2 tick4.2 = ["leave"]
  ∧ Collision.previousCollisions tick4.1 !! Collision.collisionKey 1 2 = None.
Proof.
  assert (Hstate : ∀ x2 hit,
            Collision.checkCollision {| pX := 0; pY := 0 |} (square_collider "npc")
              {| pX := x2; pY := 0 |} (square_collider "npc") = hit →
            Collision.pair_state npc_manager (two_npcs x2) 1 2 npc_handler hit).
  { intros x2 hit Hhit.
    split; [by exists true|]. split; [by exists true|].
    exists (square_collider "npc"), {| pX := 0; pY := 0 |}, box10,
      (square_collider "npc"), {| pX := x2; pY := 0 |}, box10.
    repeat split; done. }
  apply (overlap_false_true_true_false_fires_enter_stay_leave npc_manager
           (two_npcs 20) (two_npcs 5) (two_npcs 5) (two_npcs 20) 1 2 npc_handler).
  - done.
  - apply canonical_new.
  - apply uint32_ids_two_npcs.
  - apply uint32_ids_two_npcs.
  - apply uint32_ids_two_npcs.
  - apply uint32_ids_two_npcs.
  - apply Hstate. vm_compute. reflexivity.
  - apply Hstate. vm_compute. reflexivity.
  - apply Hstate. vm_compute. reflexivity.
  - apply Hstate. vm_compute. reflexivity.
Defined.

(** ** Collision engine: ordered pairs *)

(** C2 (as stated, refuted): two overlapping entities of the same group,
    with a handler for that group pair: one tick tests both (1, 2) and
    (2, 1), and calls Enter on both. *)
Lemma both_orders_are_evaluated :
  let evs := (Collision.Update npc_manager (two_npcs 5)).2 in
  ¬ (Collision.tests_of 1 2 evs + Collision.tests_of 2 1 evs ≤ 1)
  ∧ Collision.calls_on 1 2 evs = ["enter"]
  ∧ Collision.calls_on 2 1 evs = ["enter"].
Proof. vm_compute. split; [lia | done]. Qed.

(** C2 (amended): in one tick every ordered pair of entities is evaluated
    at most once: its overlap is tested at most once, and the two loops
    make at most one call (Enter or Stay) on it. The key of the processed
    set is order-sensitive: (e1, e2) and (e2, e1) have different keys, and
    each is evaluated on its own: an ordered pair of distinct live
    collidable entities with a handler registered for its groups is tested
    exactly once, whatever happens to the pair in the other order. *)
Theorem each_ordered_pair_is_evaluated_once (cm : Collision.CollisionManager)
    (em : ECSManager) (e1 e2 : Entity) :
  Collision.tests_of e1 e2 (Collision.Update cm em).2 ≤ 1
  ∧ length (Collision.calls_on e1 e2 (Collision.events (Collision.detect cm em))) ≤ 1
  ∧ (e1 ≠ e2 → Collision.collisionKey e1 e2 ≠ Collision.collisionKey e2 e1)
  ∧ (e1 ≠ e2 →
     ∀ h hit, Collision.pair_state cm em e1 e2 h hit →
       Collision.tests_of e1 e2 (Collision.Update cm em).2 = 1).
Proof.
  destruct (detect_tested_once cm em e1 e2) as [Hcalls Htests].
  rewrite Update_tests.
  split; [|split; [|split]].
  - destruct Htests as [[-> _]|[-> _]]; lia.
  - destruct Htests as [[Hzero _]|[Hone _]]; lia.
  - apply collisionKey_ordered.
  - intros Hne h hit Hpair.
    pose proof (f_equal Collision.seen_processed
                  (detect_view cm em e1 e2 h hit Hne Hpair)) as Hproc.
    simpl in Hproc.
    assert (Hdone : Collision.processed (Collision.detect cm em)
                    !! Collision.collisionKey e1 e2 = Some true).
    { rewrite Hproc. unfold Collision.step_view.
      destruct hit; [|done].
      by destruct (Collision.previousCollisions cm !! _). }
    destruct Htests as [[_ Hnone]|[Hone _]]; congruence.
Qed.

Lemma each_ordered_pair_is_evaluated_once_witness :
  Collision.tests_of 1 2 (Collision.Update npc_manager (two_npcs 5)).2 = 1
  ∧ Collision.tests_of 2 1 (Collision.Update npc_manager (two_npcs 5)).2 = 1.
Proof.
  split.
  - apply (proj2 (proj2 (proj2
      (each_ordered_pair_is_evaluated_once npc_manager (two_npcs 5) 1 2)))
      ltac:(done) npc_handler true).
    split; [by exists true|]. split; [by exists true|].
    exists (square_collider "npc"), {| pX := 0; pY := 0 |}, box10,
      (square_collider "npc"), {| pX := 5; pY := 0 |}, box10.
    repeat split; vm_compute; reflexivity.
  - apply (proj2 (proj2 (proj2
      (each_ordered_pair_is_evaluated_once npc_manager (two_npcs 5) 2 1)))
      ltac:(done) npc_handler true).
    split; [by exists true|]. split; [by exists true|].
    exists (square_collider "npc"), {| pX := 5; pY := 0 |}, box10,
      (square_collider "npc"), {| pX := 0; pY := 0 |}, box10.
    repeat split; vm_compute; reflexivity.
Defined.

(** * Further properties of the registry *)

Section FoldInsert.

Context `{Countable K} {V W : Type}.

(** Storing every entry of a list whose keys are distinct: each key of the
    list ends up bound to (the image of) its value, the others are as
    before. *)
Lemma foldl_insert_lookup (g : V → W) (l : list (K * V)) (acc : gmap K W) (k : K) :
  NoDup (l.*1) →
  foldl (λ acc kv, <[kv.1 := g kv.2]> acc) acc l !! k
  = match (list_to_map l : gmap K V) !! k with
    | Some v => Some (g v)
    | None => acc !! k
    end.
Proof.
  revert acc. induction l as [|[k0 v0] l IH]; intros acc Hnd; simpl.
  - by rewrite lookup_empty.
  - apply NoDup_cons in Hnd as [Hnotin Hnd]. rewrite IH by done.
    destruct (decide (k = k0)) as [->|Hne].
    + rewrite lookup_insert_eq.
      rewrite (not_elem_of_list_to_map_1 (M := gmap K) l k0) by done.
      by rewrite lookup_insert_eq.
    + rewrite !(lookup_insert_ne _ k0 k) by done.
      by destruct (list_to_map l !! k).
Qed.

Lemma foldl_insert_map (g : V → W) (m : gmap K V) (acc : gmap K W) (k : K) :
  foldl (λ acc kv, <[kv.1 := g kv.2]> acc) acc (map_to_list m) !! k
  = match m !! k with
    | Some v => Some (g v)
    | None => acc !! k
    end.
Proof.
  rewrite foldl_insert_lookup by apply NoDup_fst_map_to_list.
  by rewrite list_to_map_to_list.
Qed.

End FoldInsert.

(** Copying a map entry by entry, as [ToSerializable] and [EncodeEntity]
    do, gives the map. *)
Lemma Range_copy `{Countable K} {V : Type} (m : gmap K V) :
  Range m (λ k v acc, (<[k := v]> acc, true)) ∅ = m.
Proof.
  unfold Range.
  rewrite (range_list_all (λ k v (acc : gmap K V), <[k := v]> acc)).
  apply map_eq. intros k.
  rewrite (foldl_insert_map (λ v, v)). rewrite lookup_empty.
  by destruct (m !! k).
Qed.

Lemma copy_store_id (cm : gmap string Component) : copy_store cm = cm.
Proof. apply Range_copy. Qed.

(** ** Creating entities *)

Lemma counter_inv_new : counter_inv NewECSManager.
Proof. intros e [v Hv]. simpl in Hv. by rewrite lookup_empty in Hv. Qed.

Lemma counter_inv_RemoveEntity (e : Entity) (em : ECSManager) :
  counter_inv em → counter_inv (RemoveEntity e em).
Proof.
  intros Hinv e'. simpl. rewrite lookup_delete.
  case_decide; [by intros [? ?] | apply Hinv].
Qed.

Lemma counter_inv_SetComponent (e : Entity) (name : string) (comp : Component)
    (em : ECSManager) :
  counter_inv em → counter_inv (SetComponent e name comp em).
Proof. intros Hinv. unfold SetComponent. by destruct (components em !! e). Qed.

(** X1: while the counter is below the last [uint32] value, [AddEntity]
    returns the counter plus one, which is greater than every listed
    entity and so not listed yet; the counter moves to it, and it is again
    at least every listed entity. *)
Theorem AddEntity_returns_a_fresh_id (ident : list string) (em : ECSManager) :
  counter_inv em →
  (lastEntityID em + 1 < uint32_mod)%N →
  (AddEntity ident em).1 = (lastEntityID em + 1)%N
  ∧ entities em !! (AddEntity ident em).1 = None
  ∧ (∀ e, is_Some (entities em !! e) → (e < (AddEntity ident em).1)%N)
  ∧ lastEntityID (AddEntity ident em).2 = (AddEntity ident em).1
  ∧ counter_inv (AddEntity ident em).2.
Proof.
  intros Hinv Hroom.
  assert (Hid : (AddEntity ident em).1 = (lastEntityID em + 1)%N).
  { simpl. by apply N.mod_small. }
  assert (Hbelow : ∀ e, is_Some (entities em !! e) → (e < (AddEntity ident em).1)%N).
  { intros e He. rewrite Hid. apply Hinv in He. lia. }
  split; [done|]. split; [|split; [done|split; [done|]]].
  - destruct (entities em !! (AddEntity ident em).1) eqn:Hlisted; [|done].
    specialize (Hbelow _ (mk_is_Some _ _ Hlisted)). lia.
  - intros e. cbn [snd]. unfold AddEntity. cbn [snd entities lastEntityID].
    rewrite lookup_insert. case_decide as Heq; [subst e; lia|].
    intros He. apply Hinv in He. rewrite N.mod_small by done. lia.
Qed.

Lemma AddEntity_returns_a_fresh_id_witness :
  (AddEntity [] player_registry).1 = 2%N
  ∧ entities player_registry !! (AddEntity [] player_registry).1 = None.
Proof.
  assert (Hinv : counter_inv player_registry).
  { intros e. unfold player_registry. simpl. rewrite lookup_insert.
    case_decide as Heq; [subst e; vm_compute; discriminate|].
    rewrite lookup_empty. by intros [? ?]. }
  destruct (AddEntity_returns_a_fresh_id [] player_registry Hinv)
    as (Hid & Hfresh & _); [vm_compute; reflexivity|].
  split; [exact Hid | exact Hfresh].
Defined.

(** X2: at the last [uint32] value the counter wraps: [AddEntity] returns
    0, and an entity 0 that is already listed loses its components, its
    store being replaced by an empty one. *)
Theorem AddEntity_wraps_to_zero (ident : list string) (em : ECSManager) :
  lastEntityID em = 4294967295%N →
  (AddEntity ident em).1 = 0%N
  ∧ components (AddEntity ident em).2 !! 0%N = Some ∅
  ∧ (∀ n, GetComponent (AddEntity ident em).2 0 n = NilVal)
  ∧ (∀ n, HasComponent (AddEntity ident em).2 0 n = false).
Proof.
  intros Hlast.
  assert (Hid : ((lastEntityID em + 1) mod uint32_mod = 0)%N)
    by (rewrite Hlast; reflexivity).
  unfold AddEntity, GetComponent, HasComponent. cbn [fst snd components].
  rewrite Hid, lookup_insert_eq.
  repeat split; intros n; by rewrite lookup_empty.
Qed.

Lemma AddEntity_wraps_to_zero_witness :
  HasComponent full_counter_registry 0 "solid" = true
  ∧ HasComponent (AddEntity [] full_counter_registry).2 0 "solid" = false.
Proof.
  split; [vm_compute; reflexivity|].
  apply (AddEntity_wraps_to_zero [] full_counter_registry eq_refl).
Defined.

(** ** Removing entities *)

(** X3: after [RemoveEntity e], [e] is unknown to every read and write of
    the registry: it is not listed, holds no component, appears in no
    query, and setting or adding a component on it changes nothing. The
    entities other than [e] are listed with the stores they had. *)
Theorem RemoveEntity_is_final (e : Entity) (em : ECSManager) :
  let em' := RemoveEntity e em in
  GetEntityByID e em' = (e, false)
  ∧ (∀ n, GetComponent em' e n = NilVal ∧ HasComponent em' e n = false)
  ∧ (∀ names, e ∉ GetEntitiesWithComponents em' names)
  ∧ (∀ n c, SetComponent e n c em' = em' ∧ AddComponent e n c em' = Ok em')
  ∧ (∀ e', e' ≠ e →
       entities em' !! e' = entities em !! e'
       ∧ components em' !! e' = components em !! e'
       ∧ ∀ names, e' ∈ GetEntitiesWithComponents em' names
                  ↔ e' ∈ GetEntitiesWithComponents em names).
Proof.
  intros em'.
  assert (Hent : entities em' !! e = None) by apply lookup_delete_eq.
  assert (Hcomp : components em' !! e = None) by apply lookup_delete_eq.
  split; [|split; [|split; [|split]]].
  - unfold GetEntityByID. rewrite Hent. reflexivity.
  - intros n. unfold GetComponent, HasComponent. by rewrite Hcomp.
  - intros names [[v Hv] _]%elem_of_GetEntitiesWithComponents. congruence.
  - intros n c. unfold SetComponent, AddComponent. by rewrite Hcomp, Hent.
  - intros e' Hne.
    assert (He : entities em' !! e' = entities em !! e')
      by (by apply lookup_delete_ne).
    assert (Hc : components em' !! e' = components em !! e')
      by (by apply lookup_delete_ne).
    split; [done|]. split; [done|]. intros names.
    rewrite !elem_of_GetEntitiesWithComponents. unfold carries_all.
    by rewrite He, Hc.
Qed.

(** The search of [RemoveEntity], [GetEntityIdent] and [EncodeEntity] for a
    key bound to [e] finds one if there is one. *)
Lemma first_ident_of_spec (e : Entity) (m : gmap IdentKey N) :
  match first_ident_of e m with
  | Some k => m !! k = Some e
  | None => ∀ k, m !! k ≠ Some e
  end.
Proof.
  unfold first_ident_of, Range.
  assert (Hlist : ∀ l : list (IdentKey * N),
            match range_list
                    (λ k v (found : option IdentKey),
                       if (v =? e)%N then (Some k, false) else (found, true))
                    l None with
            | Some k => (k, e) ∈ l
            | None => ∀ k, (k, e) ∉ l
            end).
  { induction l as [|[k v] l IH]; simpl.
    - intros k Hin. inversion Hin.
    - destruct (N.eqb_spec v e) as [->|Hne]; [by left|].
      destruct (range_list _ l None) as [k'|]; [by right|].
      intros k'' [[= _ ?]|Hin]%elem_of_cons; [done | by apply (IH k'')]. }
  specialize (Hlist (map_to_list m)).
  destruct (range_list _ (map_to_list m) None) as [k|].
  - by apply elem_of_map_to_list.
  - intros k Hk. by apply (Hlist k), elem_of_map_to_list.
Qed.

Lemma GetEntityByIdent_found (s : string) (x : Entity) (em : ECSManager) :
  GetEntityByIdent s em = (x, true) ↔ indentToEntity em !! StrKey s = Some x.
Proof.
  unfold GetEntityByIdent.
  destruct (indentToEntity em !! StrKey s) as [y|]; [|done].
  split; by intros [= ->].
Qed.

(** X4: [RemoveEntity e] deletes exactly one identifier bound to [e], if
    there is one, and no other: the identifiers after it are those before
    it less one key bound to [e]. So [GetEntityByIdent] answers as before
    for the identifiers of the other entities; an entity known under one
    identifier is no longer found by it; and of two identifiers of the
    removed entity, one at least still answers it. *)
Theorem RemoveEntity_deletes_one_identifier (e : Entity) (em : ECSManager) :
  let em' := RemoveEntity e em in
  (((∀ k, indentToEntity em !! k ≠ Some e)
    ∧ indentToEntity em' = indentToEntity em)
   ∨ ∃ k, indentToEntity em !! k = Some e
          ∧ indentToEntity em' = delete k (indentToEntity em))
  ∧ (∀ s e', e' ≠ e → GetEntityByIdent s em = (e', true) →
       GetEntityByIdent s em' = (e', true))
  ∧ (∀ s, GetEntityByIdent s em = (e, true) →
       (∀ k, indentToEntity em !! k = Some e → k = StrKey s) →
       GetEntityByIdent s em' = (0%N, false))
  ∧ (∀ s1 s2, s1 ≠ s2 →
       GetEntityByIdent s1 em = (e, true) →
       GetEntityByIdent s2 em = (e, true) →
       GetEntityByIdent s1 em' = (e, true)
       ∨ GetEntityByIdent s2 em' = (e, true)).
Proof.
  intros em'.
  pose proof (first_ident_of_spec e (indentToEntity em)) as Hfirst.
  assert (Hidents : indentToEntity em'
                    = match first_ident_of e (indentToEntity em) with
                      | Some k => delete k (indentToEntity em)
                      | None => indentToEntity em
                      end) by done.
  destruct (first_ident_of e (indentToEntity em)) as [k0|].
  - split; [right; by exists k0|]. split; [|split].
    + intros s e' Hne Hs%GetEntityByIdent_found. apply GetEntityByIdent_found.
      rewrite Hidents, lookup_delete_ne; [done|]. congruence.
    + intros s Hs%GetEntityByIdent_found Huniq.
      unfold GetEntityByIdent. rewrite Hidents, <- (Huniq k0 Hfirst).
      by rewrite lookup_delete_eq.
    + intros s1 s2 Hne Hs1%GetEntityByIdent_found Hs2%GetEntityByIdent_found.
      destruct (decide (StrKey s1 = k0)) as [<-|Hne1].
      * right. apply GetEntityByIdent_found.
        rewrite Hidents, lookup_delete_ne; [done|]. congruence.
      * left. apply GetEntityByIdent_found.
        by rewrite Hidents, lookup_delete_ne.
  - split; [left; by split|]. split; [|split].
    + intros s e' _ Hs%GetEntityByIdent_found. apply GetEntityByIdent_found.
      by rewrite Hidents.
    + intros s Hs%GetEntityByIdent_found. by destruct (Hfirst (StrKey s)).
    + intros s1 s2 _ Hs1%GetEntityByIdent_found. by destruct (Hfirst (StrKey s1)).
Qed.

(** The entity created as "player", removed: the identifier finds nothing.
    The entity known as "hero" and as "player", removed: one of the two
    identifiers still answers it. *)
Lemma RemoveEntity_deletes_one_identifier_witness :
  GetEntityByIdent "player" (RemoveEntity 1 player_registry) = (0%N, false)
  ∧ (GetEntityByIdent "hero" (RemoveEntity 0 twice_named_registry) = (0%N, true)
     ∨ GetEntityByIdent "player" (RemoveEntity 0 twice_named_registry)
       = (0%N, true)).
Proof.
  split.
  - apply (proj1 (proj2 (proj2
      (RemoveEntity_deletes_one_identifier 1 player_registry))) "player").
    + vm_compute. reflexivity.
    + intros [s|n] Hk; vm_compute in Hk.
      * destruct (decide (s = "player")) as [->|Hne]; [done|].
        exfalso. revert Hk.
        change ((<[StrKey "player" := 1%N]> (∅ : gmap IdentKey N))
                !! StrKey s = Some 1%N → False).
        rewrite lookup_insert_ne by congruence. by rewrite lookup_empty.
      * exfalso. revert Hk.
        change ((<[StrKey "player" := 1%N]> (∅ : gmap IdentKey N))
                !! U32Key n = Some 1%N → False).
        rewrite lookup_insert_ne by congruence. by rewrite lookup_empty.
  - apply (proj2 (proj2 (proj2
      (RemoveEntity_deletes_one_identifier 0 twice_named_registry)))
      "hero" "player").
    + discriminate.
    + vm_compute. reflexivity.
    + vm_compute. reflexivity.
Defined.

(** ** Stable identifiers *)

(** What the identifier search of [GetEntityIdent] and [EncodeEntity]
    answers: a [string] key bound to [e]; the empty string when no key is
    bound to [e]; a panic only if a [uint32] key is bound to [e]. *)
Lemma ident_string_of_spec (e : Entity) (m : gmap IdentKey N) :
  match ident_string_of e m with
  | Ok s => m !! StrKey s = Some e ∨ (s = ""%string ∧ ∀ k, m !! k ≠ Some e)
  | Panic _ => ∃ n, m !! U32Key n = Some e
  | Err _ => False
  end.
Proof.
  unfold ident_string_of, Range.
  assert (Hlist : ∀ l : list (IdentKey * N),
            match range_list
                    (λ k val (acc : Outcome string),
                       if (val =? e)%N then
                         match k with
                         | StrKey s => (Ok s, false)
                         | U32Key _ =>
                             (Panic "interface conversion: interface {} is uint32, not string",
                              false)
                         end
                       else (acc, true))
                    l (Ok ""%string) with
            | Ok s => (StrKey s, e) ∈ l ∨ (s = ""%string ∧ ∀ k, (k, e) ∉ l)
            | Panic _ => ∃ n, (U32Key n, e) ∈ l
            | Err _ => False
            end).
  { induction l as [|[k v] l IH]; simpl.
    - right. split; [done|]. intros k Hin. inversion Hin.
    - destruct (N.eqb_spec v e) as [->|Hne].
      + destruct k as [s|n]; [left; by left | exists n; by left].
      + destruct (range_list _ l (Ok ""%string)) as [s|msg|msg]; [|done|].
        * destruct IH as [Hin|[-> Hnone]]; [left; by right|].
          right. split; [done|].
          intros k' [[= _ ?]|Hin]%elem_of_cons; [done | by apply (Hnone k')].
        * destruct IH as [n Hin]. exists n. by right. }
  specialize (Hlist (map_to_list m)).
  destruct (range_list _ (map_to_list m) (Ok ""%string)) as [s|msg|msg]; [|done|].
  - destruct Hlist as [Hin|[-> Hnone]]; [left; by apply elem_of_map_to_list|].
    right. split; [done|]. intros k Hk. by apply (Hnone k), elem_of_map_to_list.
  - destruct Hlist as [n Hin]. exists n. by apply elem_of_map_to_list.
Qed.

Lemma GetEntityIdent_ident_bound (e : Entity) (em : ECSManager) :
  (∀ s, GetEntityIdent e em = Ok (s, true) →
     s ≠ ""%string ∧ indentToEntity em !! StrKey s = Some e)
  ∧ ((∀ n, indentToEntity em !! U32Key n = None) →
     ∃ r, GetEntityIdent e em = Ok r).
Proof.
  pose proof (ident_string_of_spec e (indentToEntity em)) as Hspec.
  unfold GetEntityIdent.
  destruct (ident_string_of e (indentToEntity em)) as [s0|msg|msg]; [|done|].
  - split.
    + intros s. destruct (String.eqb_spec s0 "") as [->|Hne]; [done|].
      intros [= <-]. split; [done|].
      destruct Hspec as [?|[? _]]; done.
    + intros _. destruct (String.eqb s0 ""); eauto.
  - split; [done|]. intros Hnone. destruct Hspec as [n Hn].
    by rewrite Hnone in Hn.
Qed.

(** X5: an identifier [GetEntityIdent] reports for [e] is not empty and
    leads back to [e] through [GetEntityByIdent]; and a registry that only
    holds [string] identifiers never makes [GetEntityIdent] panic. *)
Theorem GetEntityIdent_leads_back (e : Entity) (em : ECSManager) :
  (∀ s, GetEntityIdent e em = Ok (s, true) →
     s ≠ ""%string ∧ GetEntityByIdent s em = (e, true))
  ∧ ((∀ n, indentToEntity em !! U32Key n = None) →
     ∃ r, GetEntityIdent e em = Ok r).
Proof.
  pose proof (ident_string_of_spec e (indentToEntity em)) as Hspec.
  unfold GetEntityIdent, GetEntityByIdent.
  destruct (ident_string_of e (indentToEntity em)) as [s0|msg|msg]; [|done|].
  - split.
    + intros s. destruct (String.eqb_spec s0 "") as [->|Hne]; [done|].
      intros [= <-]. split; [done|].
      destruct Hspec as [->|[? _]]; done.
    + intros _. destruct (String.eqb s0 ""); eauto.
  - split; [done|]. intros Hnone. destruct Hspec as [n Hn].
    by rewrite Hnone in Hn.
Qed.

Lemma GetEntityIdent_leads_back_witness :
  GetEntityByIdent "player" player_registry = (1%N, true).
Proof.
  apply (proj1 (GetEntityIdent_leads_back 1 player_registry) "player").
  vm_compute. reflexivity.
Defined.

(** X6: an entity created under the empty identifier can be found by it,
    but [GetEntityIdent] reports that the entity has no identifier: when
    the empty string is the only key bound to [e], [GetEntityByIdent]
    answers [e] and [GetEntityIdent] answers "none". *)
Theorem empty_identifier_is_not_reported (e : Entity) (em : ECSManager) :
  indentToEntity em !! StrKey "" = Some e →
  (∀ k, indentToEntity em !! k = Some e → k = StrKey "") →
  GetEntityByIdent "" em = (e, true)
  ∧ GetEntityIdent e em = Ok (""%string, false).
Proof.
  intros Hempty Honly.
  split; [unfold GetEntityByIdent; by rewrite Hempty|].
  pose proof (ident_string_of_spec e (indentToEntity em)) as Hspec.
  unfold GetEntityIdent.
  destruct (ident_string_of e (indentToEntity em)) as [s0|msg|msg]; [|done|].
  - destruct Hspec as [Hs|[-> _]]; [|done].
    apply Honly in Hs. by injection Hs as ->.
  - destruct Hspec as [n Hn]. by apply Honly in Hn.
Qed.

Lemma empty_identifier_is_not_reported_witness :
  GetEntityByIdent "" (AddEntity [""%string] NewECSManager).2 = (1%N, true)
  ∧ GetEntityIdent 1 (AddEntity [""%string] NewECSManager).2 = Ok (""%string, false).
Proof.
  apply (empty_identifier_is_not_reported 1 (AddEntity [""%string] NewECSManager).2).
  - vm_compute. reflexivity.
  - intros k. cbn [AddEntity snd indentToEntity NewECSManager].
    rewrite lookup_insert. case_decide as Heq; [by intros _|].
    by rewrite lookup_empty.
Defined.

(** ** Components of one entity *)

Lemma set_store_set_store (e : Entity) (cm cm' : gmap string Component)
    (em : ECSManager) :
  set_store e cm' (set_store e cm em) = set_store e cm' em.
Proof. unfold set_store. cbn. by rewrite insert_insert_eq. Qed.

Lemma set_store_same (e : Entity) (cm : gmap string Component) (em : ECSManager) :
  components em !! e = Some cm → set_store e cm em = em.
Proof.
  intros Hcm. destruct em as [last ents idents comps]. unfold set_store. cbn in *.
  by rewrite insert_id.
Qed.

(** X7: the components of an entity that has a store behave as a map from
    names: a component set is the one read back, it is present, and
    setting it again overwrites it; every other slot of the registry is as
    before; a removed component is absent. A nil component is the edge: it
    is present for [HasComponent] (and for queries) although
    [GetComponent] answers nil. *)
Theorem component_slots_are_a_map (e : Entity) (n : string) (c c' : Component)
    (em : ECSManager) :
  is_Some (components em !! e) →
  GetComponent (SetComponent e n c em) e n = c
  ∧ HasComponent (SetComponent e n c em) e n = true
  ∧ SetComponent e n c' (SetComponent e n c em) = SetComponent e n c' em
  ∧ (∀ e' n', e' ≠ e ∨ n' ≠ n →
       GetComponent (SetComponent e n c em) e' n' = GetComponent em e' n'
       ∧ HasComponent (SetComponent e n c em) e' n' = HasComponent em e' n')
  ∧ GetComponent (RemoveComponent e n em) e n = NilVal
  ∧ HasComponent (RemoveComponent e n em) e n = false
  ∧ (∀ e' n', e' ≠ e ∨ n' ≠ n →
       GetComponent (RemoveComponent e n em) e' n' = GetComponent em e' n').
Proof.
  intros [cm Hcm].
  split; [by apply GetComponent_SetComponent_eq|].
  unfold SetComponent, RemoveComponent, HasComponent, GetComponent.
  rewrite Hcm. cbn [set_store components]. rewrite !lookup_insert_eq.
  split; [apply bool_decide_eq_true; eauto|].
  split; [by rewrite set_store_set_store, insert_insert_eq|].
  split; [|split; [by rewrite lookup_delete_eq|
           split; [rewrite lookup_delete_eq; apply bool_decide_eq_false;
                   by intros [? ?]|]]].
  - intros e' n' Hne. destruct (decide (e' = e)) as [->|He].
    + rewrite lookup_insert_eq, Hcm.
      destruct Hne as [?|Hn]; [done|]. by rewrite lookup_insert_ne.
    + by rewrite lookup_insert_ne.
  - intros e' n' Hne. destruct (decide (e' = e)) as [->|He].
    + rewrite lookup_insert_eq, Hcm.
      destruct Hne as [?|Hn]; [done|]. by rewrite lookup_delete_ne.
    + by rewrite lookup_insert_ne.
Qed.

Lemma component_slots_are_a_map_witness :
  HasComponent (SetComponent 1 "target" NilVal player_registry) 1 "target" = true
  ∧ GetComponent (SetComponent 1 "target" NilVal player_registry) 1 "target" = NilVal.
Proof.
  assert (Hstore : is_Some (components player_registry !! 1%N))
    by (exists ∅; vm_compute; reflexivity).
  destruct (component_slots_are_a_map 1 "target" NilVal NilVal player_registry
              Hstore) as (Hget & Hhas & _).
  split; [exact Hhas | exact Hget].
Defined.

(** The loop of [AddComponents] and of [DecodeEntity] on a listed entity
    with a store: it stores every entry in that store. *)
Lemma add_loop_listed (e : Entity) (em : ECSManager) (l : list (string * Component))
    (cm : gmap string Component) :
  is_Some (entities em !! e) →
  foldl (λ (acc : Outcome ECSManager) kv,
           match acc with
           | Ok em' => AddComponent e kv.1 kv.2 em'
           | _ => acc
           end) (Ok (set_store e cm em)) l
  = Ok (set_store e (foldl (λ acc kv, <[kv.1 := kv.2]> acc) cm l) em).
Proof.
  intros Hlisted. revert cm. induction l as [|[n c] l IH]; intros cm; [done|].
  cbn [foldl]. unfold AddComponent at 2. cbn [set_store entities components fst snd].
  destruct Hlisted as [v Hv]. rewrite Hv, lookup_insert_eq.
  fold (set_store e cm em). rewrite set_store_set_store.
  apply IH.
Qed.

Lemma add_loop_unlisted (e : Entity) (em : ECSManager) (l : list (string * Component)) :
  entities em !! e = None →
  foldl (λ (acc : Outcome ECSManager) kv,
           match acc with
           | Ok em' => AddComponent e kv.1 kv.2 em'
           | _ => acc
           end) (Ok em) l
  = Ok em.
Proof.
  intros Hno. induction l as [|[n c] l IH]; [done|].
  cbn [foldl]. unfold AddComponent at 2. by rewrite Hno.
Qed.

(** X8: on a listed entity with a store, [AddComponents] succeeds and
    merges the map into the store: the names of the map read as in the
    map, the other names of the entity and the other entities as before.
    On an entity that is not listed it changes nothing. *)
Theorem AddComponents_merges (e : Entity) (comps : gmap string Component)
    (em : ECSManager) :
  (is_Some (entities em !! e) → is_Some (components em !! e) →
   ∃ em', AddComponents e comps em = Ok em'
     ∧ (∀ n, GetComponent em' e n
             = match comps !! n with
               | Some c => c
               | None => GetComponent em e n
               end)
     ∧ (∀ e' n, e' ≠ e → GetComponent em' e' n = GetComponent em e' n)
     ∧ entities em' = entities em)
  ∧ (entities em !! e = None → AddComponents e comps em = Ok em).
Proof.
  split.
  - intros Hlisted [cm Hcm]. unfold AddComponents, for_range.
    replace (Ok em) with (Ok (set_store e cm em))
      by (by rewrite set_store_same).
    rewrite add_loop_listed by done.
    eexists. split; [done|]. split; [|split; [|done]].
    + intros n. unfold GetComponent. cbn [set_store components].
      rewrite lookup_insert_eq, Hcm.
      rewrite (foldl_insert_map (λ c, c)). by destruct (comps !! n).
    + intros e' n Hne. unfold GetComponent. cbn [set_store components].
      by rewrite lookup_insert_ne.
  - intros Hno. unfold AddComponents, for_range. by apply add_loop_unlisted.
Qed.

Lemma AddComponents_merges_witness :
  AddComponents 9 {[ "solid" := BoolVal true ]} player_registry = Ok player_registry.
Proof.
  apply (proj2 (AddComponents_merges 9 {[ "solid" := BoolVal true ]} player_registry)).
  vm_compute. reflexivity.
Defined.

(** The slot [(e, n)] of the registry: the stored value, if any. *)
Lemma RemoveComponent_slot (e e' : Entity) (n n' : string) (em : ECSManager) :
  components (RemoveComponent e n em) !! e' ≫= (.!! n')
  = if decide (e' = e ∧ n' = n) then None
    else components em !! e' ≫= (.!! n').
Proof.
  unfold RemoveComponent.
  destruct (components em !! e) as [cm|] eqn:Hcm; cbn [set_store components].
  - destruct (decide (e' = e)) as [->|He].
    + rewrite lookup_insert_eq, Hcm. cbn.
      destruct (decide (n' = n)) as [->|Hn].
      * rewrite decide_True by done. apply lookup_delete_eq.
      * rewrite decide_False by (by intros [_ ?]). by apply lookup_delete_ne.
    + rewrite decide_False by (by intros [? _]). by rewrite lookup_insert_ne.
  - case_decide as Heq; [|done]. destruct Heq as [-> _]. by rewrite Hcm.
Qed.

Lemma RemoveComponents_slot (e e' : Entity) (names : list string) (n : string)
    (em : ECSManager) :
  components (RemoveComponents e names em) !! e' ≫= (.!! n)
  = if decide (e' = e ∧ n ∈ names) then None
    else components em !! e' ≫= (.!! n).
Proof.
  unfold RemoveComponents. revert em.
  induction names as [|n0 names IH]; intros em; cbn [foldl].
  - rewrite decide_False; [done|]. intros [_ Hin]. inversion Hin.
  - rewrite IH, RemoveComponent_slot.
    destruct (decide (e' = e ∧ n ∈ names)) as [[-> Hin]|Hno].
    + rewrite decide_True; [done|]. split; [done | by right].
    + destruct (decide (e' = e ∧ n = n0)) as [[-> ->]|Hno'].
      * rewrite decide_True; [done|]. split; [done | by left].
      * rewrite decide_False; [done|].
        intros [-> [->|Hin]%elem_of_cons]; [by apply Hno' | by apply Hno].
Qed.

(** X9: [RemoveComponents] leaves none of the listed names on the entity,
    and touches no other name and no other entity. *)
Theorem RemoveComponents_removes_the_names (e : Entity) (names : list string)
    (em : ECSManager) :
  (∀ n, n ∈ names → HasComponent (RemoveComponents e names em) e n = false)
  ∧ (∀ e' n, e' ≠ e ∨ n ∉ names →
       GetComponent (RemoveComponents e names em) e' n = GetComponent em e' n)
  ∧ entities (RemoveComponents e names em) = entities em.
Proof.
  assert (Hget : ∀ acc e' n, GetComponent acc e' n
                   = default NilVal (components acc !! e' ≫= (.!! n))).
  { intros acc e' n. unfold GetComponent. by destruct (components acc !! e'). }
  assert (Hhas : ∀ acc e' n, HasComponent acc e' n
                   = bool_decide (is_Some (components acc !! e' ≫= (.!! n)))).
  { intros acc e' n. unfold HasComponent.
    by destruct (components acc !! e'). }
  split; [|split].
  - intros n Hin. rewrite Hhas, RemoveComponents_slot.
    rewrite decide_True by done. apply bool_decide_eq_false. by intros [? ?].
  - intros e' n Hne. rewrite !Hget, RemoveComponents_slot.
    rewrite decide_False; [done|]. intros [-> Hin]. by destruct Hne.
  - unfold RemoveComponents. revert em.
    induction names as [|n0 names IH]; intros em; cbn [foldl]; [done|].
    rewrite IH. unfold RemoveComponent. by destruct (components em !! e).
Qed.

(** ** Removing the entities that are not persistent *)

(** A [Range] whose callback never stops is a fold. *)
Lemma range_list_never_stops {K V St : Type} (f : K → V → St → St * bool)
    (l : list (K * V)) (s : St) :
  (∀ k v s, (f k v s).2 = true) →
  range_list f l s = foldl (λ s kv, (f kv.1 kv.2 s).1) s l.
Proof.
  intros Hgo. revert s. induction l as [|[k v] l IH]; intros s; simpl; [done|].
  specialize (Hgo k v s). destruct (f k v s) as [s' go]. simpl in *.
  subst go. apply IH.
Qed.

(** One step of [RemoveEntities]. *)
Lemma RemoveEntities_step (e e' : Entity) (acc : ECSManager) :
  let acc' := match GetComponent acc e "persistent" with
              | NilVal => RemoveEntity e acc
              | _ => acc
              end in
  (e' ≠ e →
   entities acc' !! e' = entities acc !! e'
   ∧ components acc' !! e' = components acc !! e')
  ∧ (GetComponent acc e "persistent" = NilVal →
     entities acc' !! e = None ∧ components acc' !! e = None)
  ∧ (GetComponent acc e "persistent" ≠ NilVal → acc' = acc).
Proof.
  intros acc'. unfold acc'.
  destruct (GetComponent acc e "persistent");
    try (split; [done | split; done]).
  split; [|split; [|done]].
  - intros Hne. simpl. by rewrite !lookup_delete_ne.
  - intros _. simpl. by rewrite !lookup_delete_eq.
Qed.

Lemma RemoveEntities_fold (l : list (N * bool)) (acc : ECSManager) :
  NoDup (l.*1) →
  let final :=
    foldl (λ acc kv, match GetComponent acc kv.1 "persistent" with
                     | NilVal => RemoveEntity kv.1 acc
                     | _ => acc
                     end) acc l in
  ∀ e,
    (e ∉ l.*1 ∨ GetComponent acc e "persistent" ≠ NilVal →
     entities final !! e = entities acc !! e
     ∧ components final !! e = components acc !! e)
    ∧ (e ∈ l.*1 → GetComponent acc e "persistent" = NilVal →
       entities final !! e = None ∧ components final !! e = None).
Proof.
  revert acc. induction l as [|[e0 v0] l IH]; intros acc Hnd final e.
  - split; [done|]. intros Hin. inversion Hin.
  - cbn in Hnd. apply NoDup_cons in Hnd as [Hnotin Hnd].
    unfold final. cbn [foldl fst].
    destruct (RemoveEntities_step e0 e acc) as (Hother & Hgone & Hkept).
    set (acc' := match GetComponent acc e0 "persistent" with
                 | NilVal => RemoveEntity e0 acc
                 | _ => acc
                 end) in *.
    destruct (IH acc' Hnd e) as [IHsame IHgone].
    assert (Hpers : e ≠ e0 → GetComponent acc' e "persistent"
                             = GetComponent acc e "persistent").
    { intros Hne. unfold GetComponent. by rewrite (proj2 (Hother Hne)). }
    destruct (decide (e = e0)) as [->|Hne].
    + split.
      * intros [Hout|Hp]; [exfalso; apply Hout; by left|].
        rewrite (Hkept Hp) in *. apply IHsame. by left.
      * intros _ Hp. destruct (Hgone Hp) as [He Hc].
        destruct IHsame as [-> ->]; [by left | done].
    + destruct (Hother Hne) as [He Hc]. split.
      * intros Hcase. destruct IHsame as [-> ->]; [|done].
        destruct Hcase as [Hout|Hp]; [left | right; by rewrite Hpers].
        intros Hin. apply Hout. by right.
      * intros [?|Hin]%elem_of_cons Hp; [done|].
        apply IHgone; [done | by rewrite Hpers].
Qed.

(** X10: [RemoveEntities] removes exactly the listed entities whose
    "persistent" component reads nil (absent, or stored as nil): they are
    no longer listed and have no store; every entity with a "persistent"
    component, and every store of an entity that is not listed, is as
    before. *)
Theorem RemoveEntities_keeps_the_persistent (em : ECSManager) (e : Entity) :
  (GetComponent em e "persistent" ≠ NilVal →
   entities (RemoveEntities em) !! e = entities em !! e
   ∧ components (RemoveEntities em) !! e = components em !! e)
  ∧ (GetComponent em e "persistent" = NilVal →
     entities (RemoveEntities em) !! e = None
     ∧ (is_Some (entities em !! e) → components (RemoveEntities em) !! e = None)
     ∧ (entities em !! e = None →
        components (RemoveEntities em) !! e = components em !! e)).
Proof.
  unfold RemoveEntities, Range.
  rewrite range_list_never_stops
    by (intros k v s; by destruct (GetComponent s k "persistent")).
  pose proof (RemoveEntities_fold (map_to_list (entities em)) em
                (NoDup_fst_map_to_list _) e) as [Hsame Hgone].
  assert (Hfold : ∀ l acc,
            foldl (λ s kv,
                     (match GetComponent s kv.1 "persistent" with
                      | NilVal => (RemoveEntity kv.1 s, true)
                      | _ => (s, true)
                      end).1) acc l
            = foldl (λ acc kv, match GetComponent acc kv.1 "persistent" with
                               | NilVal => RemoveEntity kv.1 acc
                               | _ => acc
                               end) acc (l : list (N * bool))).
  { induction l as [|kv l IH]; intros acc; [done|]. cbn [foldl].
    rewrite <- IH. f_equal. by destruct (GetComponent acc kv.1 "persistent"). }
  rewrite Hfold.
  assert (Hin : e ∈ (map_to_list (entities em)).*1 ↔ is_Some (entities em !! e)).
  { rewrite list_elem_of_fmap. split.
    - intros [[k v] [-> Hkv%elem_of_map_to_list]]. eauto.
    - intros [v Hv]. exists (e, v). split; [done|]. by apply elem_of_map_to_list. }
  split.
  - intros Hp. apply Hsame. by right.
  - intros Hp. destruct (entities em !! e) as [v|] eqn:Hlisted.
    + destruct Hgone as [He Hc]; [apply Hin; eauto | done|].
      split; [done|]. split; [done|]. by intros.
    + destruct Hsame as [He Hc]; [left; rewrite Hin; by intros [? ?]|].
      split; [congruence|]. split; [by intros [? ?] | done].
Qed.

Lemma RemoveEntities_keeps_the_persistent_witness :
  entities (RemoveEntities player_registry) !! 1%N = None.
Proof.
  apply (proj2 (RemoveEntities_keeps_the_persistent player_registry 1)).
  vm_compute. reflexivity.
Defined.

(** ** Queries *)

Lemma has_all_app (cm : gmap string Component) (names more : list string) :
  has_all cm (names ++ more) = has_all cm names && has_all cm more.
Proof.
  induction names as [|n names IH]; simpl; [done|].
  by destruct (cm !! n).
Qed.

(** X11: as a set, the answer of a query depends only on the set of names
    asked for, and asking for more names filters it: an entity is in the
    answer for [names ++ more] iff it is in the answer for [names] and has
    every component of [more]. Nothing is said of the order of the
    answers. *)
Theorem query_for_more_names_filters (em : ECSManager) (names more : list string) :
  (∀ e, e ∈ GetEntitiesWithComponents em (names ++ more)
        ↔ e ∈ GetEntitiesWithComponents em names
          ∧ ∀ n, n ∈ more → HasComponent em e n = true)
  ∧ ∀ names', (∀ n, n ∈ names ↔ n ∈ names') →
      ∀ e, e ∈ GetEntitiesWithComponents em names'
           ↔ e ∈ GetEntitiesWithComponents em names.
Proof.
  split.
  - intros e. rewrite !elem_of_GetEntitiesWithComponents.
    unfold carries_all, HasComponent.
    destruct (components em !! e) as [cm|].
    + rewrite has_all_app, andb_true_iff, !has_all_spec.
      setoid_rewrite bool_decide_eq_true. tauto.
    + split; [by intros [_ ?] | by intros [[_ ?] _]].
  - intros names' Hsame e. rewrite !elem_of_GetEntitiesWithComponents.
    unfold carries_all. destruct (components em !! e) as [cm|]; [|done].
    rewrite !has_all_spec.
    split; intros [Hlive Hall]; (split; [done|]); intros n Hn;
      apply Hall, Hsame, Hn.
Qed.

(** ** Serializable form of the registry *)

Section FoldInsertKey.

Context `{Countable K} `{Countable K'} {V W : Type}.

(** As [foldl_insert_lookup], with the key stored under an injective
    renaming and the value computed from key and value. *)
Lemma foldl_insert_key_lookup (f : K → K') `{!Inj (=) (=) f} (g : K → V → W)
    (l : list (K * V)) (acc : gmap K' W) :
  NoDup (l.*1) →
  (∀ k, foldl (λ acc kv, <[f kv.1 := g kv.1 kv.2]> acc) acc l !! f k
        = match (list_to_map l : gmap K V) !! k with
          | Some v => Some (g k v)
          | None => acc !! f k
          end)
  ∧ (∀ k', (∀ k, k' ≠ f k) →
       foldl (λ acc kv, <[f kv.1 := g kv.1 kv.2]> acc) acc l !! k' = acc !! k').
Proof.
  revert acc. induction l as [|[k0 v0] l IH]; intros acc Hnd; cbn [foldl].
  - split; [intros k; simpl; by rewrite lookup_empty | done].
  - cbn in Hnd. apply NoDup_cons in Hnd as [Hnotin Hnd].
    destruct (IH (<[f k0 := g k0 v0]> acc) Hnd) as [IHin IHout].
    split.
    + intros k. rewrite IHin.
      change (list_to_map ((k0, v0) :: l) : gmap K V)
        with (<[k0 := v0]> (list_to_map l : gmap K V)).
      cbn [fst snd].
      destruct (decide (k = k0)) as [->|Hne].
      * rewrite lookup_insert_eq.
        rewrite (not_elem_of_list_to_map_1 (M := gmap K) l k0) by done.
        by rewrite lookup_insert_eq.
      * rewrite (lookup_insert_ne _ k0 k) by done.
        destruct (list_to_map l !! k); [done|].
        rewrite lookup_insert_ne; [done|]. by intros ?%(inj f).
    + intros k' Hout. rewrite IHout by done.
      rewrite lookup_insert_ne; [done|]. intros Heq. by apply (Hout k0).
Qed.

End FoldInsertKey.

#[local] Instance U32Key_inj : Inj (=) (=) U32Key.
Proof. by intros m n [= ->]. Qed.

Lemma rebuilt_store (comps : gmap string Component) :
  for_range comps (λ n c cm, <[n := c]> cm) ∅ = comps.
Proof.
  unfold for_range. apply map_eq. intros n.
  rewrite (foldl_insert_map (λ c, c)), lookup_empty.
  by destruct (comps !! n).
Qed.

(** The fields of a registry after [FromSerializable]. *)
Lemma FromSerializable_fields (data : SerializableECSManager) (em : ECSManager) :
  lastEntityID (FromSerializable data em) = LastEntityID data
  ∧ (∀ e, entities (FromSerializable data em) !! e
          = match Entities data !! e with
            | Some active => Some active
            | None => entities em !! e
            end)
  ∧ (∀ e, components (FromSerializable data em) !! e
          = match Entities data !! e with
            | Some _ => Some (default ∅ (Components data !! e))
            | None => components em !! e
            end)
  ∧ (∀ n, indentToEntity (FromSerializable data em) !! U32Key n
          = match identMap data !! n with
            | Some e => Some e
            | None => indentToEntity em !! U32Key n
            end)
  ∧ (∀ s, indentToEntity (FromSerializable data em) !! StrKey s
          = indentToEntity em !! StrKey s).
Proof.
  unfold FromSerializable, for_range.
  set (start := {| lastEntityID := LastEntityID data; entities := entities em;
                   indentToEntity := indentToEntity em;
                   components := components em |}).
  set (rebuild := λ e : N,
         match Components data !! e return gmap string Component with
         | Some comps =>
             foldl (λ (s : gmap string Component) (kv : string * Component),
                      <[kv.1 := kv.2]> s) ∅ (map_to_list comps)
         | None => ∅
         end).
  assert (Hfirst : ∀ (l : list (N * bool)) acc,
            let r := foldl
              (λ s kv,
                 {| lastEntityID := lastEntityID s;
                    entities := <[kv.1 := kv.2]> (entities s);
                    indentToEntity := indentToEntity s;
                    components := <[kv.1 := rebuild kv.1]> (components s) |})
              acc l in
            lastEntityID r = lastEntityID acc
            ∧ indentToEntity r = indentToEntity acc
            ∧ entities r = foldl (λ m kv, <[id kv.1 := kv.2]> m) (entities acc) l
            ∧ components r
              = foldl (λ m kv, <[id kv.1 := rebuild kv.1]> m) (components acc) l).
  { induction l as [|kv l IH]; intros acc; [done|]. cbn [foldl].
    destruct (IH {| lastEntityID := lastEntityID acc;
                    entities := <[kv.1 := kv.2]> (entities acc);
                    indentToEntity := indentToEntity acc;
                    components := <[kv.1 := rebuild kv.1]> (components acc) |})
      as (-> & -> & -> & ->). done. }
  assert (Hsecond : ∀ (l : list (N * N)) acc,
            let r := foldl
              (λ s kv,
                 {| lastEntityID := lastEntityID s;
                    entities := entities s;
                    indentToEntity := <[U32Key kv.1 := kv.2]> (indentToEntity s);
                    components := components s |})
              acc l in
            lastEntityID r = lastEntityID acc
            ∧ entities r = entities acc
            ∧ components r = components acc
            ∧ indentToEntity r
              = foldl (λ m kv, <[U32Key kv.1 := kv.2]> m) (indentToEntity acc) l).
  { induction l as [|kv l IH]; intros acc; [done|]. cbn [foldl].
    destruct (IH {| lastEntityID := lastEntityID acc;
                    entities := entities acc;
                    indentToEntity := <[U32Key kv.1 := kv.2]> (indentToEntity acc);
                    components := components acc |})
      as (-> & -> & -> & ->). done. }
  change (λ (s : ECSManager) (kv : N * bool),
            {| lastEntityID := lastEntityID s;
               entities := <[kv.1 := kv.2]> (entities s);
               indentToEntity := indentToEntity s;
               components :=
                 <[kv.1 := match Components data !! kv.1
                                 return gmap string Component with
                           | Some comps =>
                               foldl (λ (s0 : gmap string Component)
                                        (kv0 : string * Component),
                                        <[kv0.1 := kv0.2]> s0) ∅
                                 (map_to_list comps)
                           | None => ∅
                           end]> (components s) |})
    with (λ (s : ECSManager) (kv : N * bool),
            {| lastEntityID := lastEntityID s;
               entities := <[kv.1 := kv.2]> (entities s);
               indentToEntity := indentToEntity s;
               components := <[kv.1 := rebuild kv.1]> (components s) |}).
  destruct (Hfirst (map_to_list (Entities data)) start) as (Hl1 & Hi1 & He1 & Hc1).
  destruct (Hsecond (map_to_list (identMap data))
              (foldl
                 (λ s kv,
                    {| lastEntityID := lastEntityID s;
                       entities := <[kv.1 := kv.2]> (entities s);
                       indentToEntity := indentToEntity s;
                       components := <[kv.1 := rebuild kv.1]> (components s) |})
                 start (map_to_list (Entities data))))
    as (Hl2 & He2 & Hc2 & Hi2).
  cbn zeta in *. rewrite Hl2, He2, Hc2, Hi2, Hl1, Hi1, He1, Hc1. clear.
  assert (Hrebuild : ∀ e, rebuild e = default ∅ (Components data !! e)).
  { intros e. unfold rebuild. destruct (Components data !! e) as [comps|]; [|done].
    apply rebuilt_store. }
  split; [done|]. split; [|split; [|split]].
  - intros e.
    destruct (foldl_insert_key_lookup id (λ _ (v : bool), v)
                (map_to_list (Entities data)) (entities start)
                (NoDup_fst_map_to_list _)) as [Hin _].
    specialize (Hin e). unfold id in *. cbv beta in Hin. rewrite Hin.
    by rewrite list_to_map_to_list.
  - intros e.
    destruct (foldl_insert_key_lookup id (λ k (_ : bool), rebuild k)
                (map_to_list (Entities data)) (components start)
                (NoDup_fst_map_to_list _)) as [Hin _].
    specialize (Hin e). unfold id in *. cbv beta in Hin. rewrite Hin.
    rewrite list_to_map_to_list, Hrebuild. done.
  - intros n.
    destruct (foldl_insert_key_lookup U32Key (λ _ (v : N), v)
                (map_to_list (identMap data)) (indentToEntity start)
                (NoDup_fst_map_to_list _)) as [Hin _].
    rewrite Hin. by rewrite list_to_map_to_list.
  - intros s.
    destruct (foldl_insert_key_lookup U32Key (λ _ (v : N), v)
                (map_to_list (identMap data)) (indentToEntity start)
                (NoDup_fst_map_to_list _)) as [_ Hout].
    by apply Hout.
Qed.

(** X12: [FromSerializable] merges the data into the registry, it does not
    replace the registry: the counter becomes the data's; an entity listed
    in the data is listed with the data's flag and gets the data's
    component map as its store (an empty store if the data has none for
    it), whatever store it had; an entity the data does not list keeps its
    listing and store, and a component map of the data for an entity the
    data does not list is ignored; the data's identifiers are added under
    [uint32] keys, the [string] identifiers stay. *)
Theorem FromSerializable_merges (data : SerializableECSManager) (em : ECSManager) :
  lastEntityID (FromSerializable data em) = LastEntityID data
  ∧ (∀ e active, Entities data !! e = Some active →
       entities (FromSerializable data em) !! e = Some active
       ∧ components (FromSerializable data em) !! e
         = Some (default ∅ (Components data !! e)))
  ∧ (∀ e, Entities data !! e = None →
       entities (FromSerializable data em) !! e = entities em !! e
       ∧ components (FromSerializable data em) !! e = components em !! e)
  ∧ (∀ n e, identMap data !! n = Some e →
       indentToEntity (FromSerializable data em) !! U32Key n = Some e)
  ∧ (∀ s, indentToEntity (FromSerializable data em) !! StrKey s
          = indentToEntity em !! StrKey s).
Proof.
  destruct (FromSerializable_fields data em) as (Hl & He & Hc & Hu & Hs).
  split; [done|]. split; [|split; [|split; [|done]]].
  - intros e active Hlisted. by rewrite He, Hc, Hlisted.
  - intros e Hno. by rewrite He, Hc, Hno.
  - intros n e Hn. by rewrite Hu, Hn.
Qed.

Lemma ECSManager_eq (em em' : ECSManager) :
  lastEntityID em = lastEntityID em' →
  entities em = entities em' →
  indentToEntity em = indentToEntity em' →
  components em = components em' →
  em = em'.
Proof. destruct em, em'. cbn. by intros -> -> -> ->. Qed.

(** The identifier loop of [ToSerializable] succeeds only on [uint32]
    keys, and then copies them. *)
Lemma range_idents_ok (l : list (IdentKey * N)) (m0 im : gmap N N) :
  NoDup (l.*1) →
  range_list
    (λ k v (acc : Outcome (gmap N N)),
       match acc, k with
       | Ok m, U32Key n => (Ok (<[n := v]> m), true)
       | Ok _, StrKey _ =>
           (Panic "interface conversion: interface {} is string, not uint32",
            false)
       | _, _ => (acc, false)
       end) l (Ok m0) = Ok im →
  (∀ s v, (StrKey s, v) ∉ l)
  ∧ ∀ n, im !! n = match (list_to_map l : gmap IdentKey N) !! U32Key n with
                   | Some v => Some v
                   | None => m0 !! n
                   end.
Proof.
  revert m0. induction l as [|[k v] l IH]; intros m0 Hnd Hok.
  - injection Hok as <-. split; [intros s v Hin; inversion Hin | done].
  - cbn in Hnd. apply NoDup_cons in Hnd as [Hnotin Hnd].
    destruct k as [s|n0]; [done|]. cbn in Hok.
    destruct (IH _ Hnd Hok) as [Hstr Hlook]. split.
    + intros s v' [[=]|Hin]%elem_of_cons. by apply (Hstr s v').
    + intros n. rewrite Hlook.
      change (list_to_map ((U32Key n0, v) :: l) : gmap IdentKey N)
        with (<[U32Key n0 := v]> (list_to_map l : gmap IdentKey N)).
      destruct (decide (n = n0)) as [->|Hne].
      * rewrite !lookup_insert_eq.
        by rewrite (not_elem_of_list_to_map_1 (M := gmap IdentKey) l (U32Key n0)).
      * rewrite (lookup_insert_ne _ (U32Key n0)) by congruence.
        destruct (list_to_map l !! U32Key n); [done|].
        by rewrite lookup_insert_ne.
Qed.

(** What [ToSerializable] returns when it returns. *)
Lemma ToSerializable_fields (em : ECSManager) (s : SerializableECSManager) :
  ToSerializable em = Ok s →
  LastEntityID s = lastEntityID em
  ∧ Entities s = entities em
  ∧ Components s = components em
  ∧ (∀ n, identMap s !! n = indentToEntity em !! U32Key n)
  ∧ (∀ str, indentToEntity em !! StrKey str = None).
Proof.
  unfold ToSerializable.
  destruct (Range (indentToEntity em) _ (Ok ∅)) as [im|msg|msg] eqn:Hidents;
    [|done|done].
  intros [= <-]. cbn.
  unfold Range in Hidents.
  apply range_idents_ok in Hidents as [Hstr Hlook];
    [|apply NoDup_fst_map_to_list].
  split; [done|]. split; [apply Range_copy|]. split; [|split].
  - unfold Range.
    rewrite (range_list_all
               (λ e (cm : gmap string Component)
                  (acc : gmap N (gmap string Component)),
                  <[e := copy_store cm]> acc)).
    apply map_eq. intros e. rewrite (foldl_insert_map copy_store), lookup_empty.
    destruct (components em !! e); [by rewrite copy_store_id | done].
  - intros n. rewrite Hlook, list_to_map_to_list, lookup_empty.
    by destruct (indentToEntity em !! U32Key n).
  - intros str. destruct (indentToEntity em !! StrKey str) as [v|] eqn:Hs; [|done].
    apply elem_of_map_to_list in Hs. by apply Hstr in Hs.
Qed.

(** X13: for a registry whose stores are those of its listed entities,
    what [ToSerializable] returns is read back by [FromSerializable], into
    a new registry, as the registry itself: counter, entity set, component
    maps and identifiers. ([ToSerializable] returns only when every
    identifier has a [uint32] key.) *)
Theorem FromSerializable_inverts_ToSerializable (em : ECSManager)
    (s : SerializableECSManager) :
  store_eq em →
  ToSerializable em = Ok s →
  FromSerializable s NewECSManager = em.
Proof.
  intros Hstores (Hl & He & Hc & Hu & Hs)%ToSerializable_fields.
  destruct (FromSerializable_fields s NewECSManager)
    as (Fl & Fe & Fc & Fu & Fs).
  apply ECSManager_eq.
  - by rewrite Fl.
  - apply map_eq. intros e. rewrite Fe, He. cbn. rewrite lookup_empty.
    by destruct (entities em !! e).
  - apply map_eq. intros [str|n].
    + rewrite Fs, Hs. cbn. by rewrite lookup_empty.
    + rewrite Fu, Hu. cbn. rewrite lookup_empty.
      by destruct (indentToEntity em !! U32Key n).
  - apply map_eq. intros e. rewrite Fc, He, Hc. cbn. rewrite lookup_empty.
    destruct (entities em !! e) as [v|] eqn:Hlisted.
    + destruct (proj1 (Hstores e)) as [cm ->]; [by rewrite Hlisted; eauto|].
      done.
    + destruct (components em !! e) as [cm|] eqn:Hcm; [|done].
      destruct (proj2 (Hstores e)) as [v Hv]; [eauto | congruence].
Qed.

Lemma store_eq_dom (em : ECSManager) :
  dom (entities em) = dom (components em) → store_eq em.
Proof. intros Hdom e. by rewrite <- !elem_of_dom, Hdom. Qed.

Lemma FromSerializable_inverts_ToSerializable_witness :
  ∃ s, ToSerializable two_names_registry = Ok s
       ∧ FromSerializable s NewECSManager = two_names_registry.
Proof.
  eexists. split; [vm_compute; reflexivity|].
  apply FromSerializable_inverts_ToSerializable.
  - apply store_eq_dom. vm_compute. reflexivity.
  - vm_compute. reflexivity.
Defined.

(** Without identifiers the loop over [indentToEntity] asserts nothing, and
    [ToSerializable] returns the counter, the entity map and the stores,
    with an empty identifier map. *)
Lemma ToSerializable_without_identifiers (em : ECSManager) :
  indentToEntity em = ∅ →
  ToSerializable em
  = Ok {| LastEntityID := lastEntityID em; Entities := entities em;
          Components := components em; identMap := ∅ |}.
Proof.
  intros Hnoid.
  destruct (ToSerializable em) as [s|msg|msg] eqn:Hs.
  - apply ToSerializable_fields in Hs as (Hl & He & Hc & Hu & _).
    destruct s as [sl se sc si]. cbn in *. subst sl se sc. do 2 f_equal.
    apply map_eq. intros n. by rewrite Hu, Hnoid, !lookup_empty.
  - unfold ToSerializable in Hs. rewrite Hnoid in Hs. done.
  - unfold ToSerializable in Hs. rewrite Hnoid in Hs. done.
Qed.

(** X14: a registry without identifiers, whose stores are those of its
    listed entities, survives [Encode] and [Decode] into a new registry,
    provided gob writes the exported fields of the registry as a blob and
    reads this blob as the fields it was given: [Encode] returns the blob
    (it does not panic), and [Decode] of the blob returns no error and
    restores counter, entity set and component maps. *)
Theorem Decode_inverts_Encode_without_identifiers `{Gob} (em : ECSManager)
    (bytes : list Byte.byte) :
  store_eq em →
  indentToEntity em = ∅ →
  gobEncodeManager
    {| xLastEntityID := lastEntityID em; xEntities := entities em;
       xComponents := components em |} = GobOk bytes →
  gobDecodeManager bytes
  = GobOk {| xLastEntityID := lastEntityID em; xEntities := entities em;
             xComponents := components em |} →
  Encode em = Ok bytes
  ∧ Decode bytes NewECSManager = (Ok tt, em).
Proof.
  intros Hstores Hnoid Henc Hdec.
  pose proof (ToSerializable_without_identifiers em Hnoid) as Hs.
  split.
  - unfold Encode. rewrite Hs. unfold exported. cbn. by rewrite Henc.
  - unfold Decode. rewrite Hdec. f_equal. unfold received. cbn.
    destruct (FromSerializable_fields
                {| LastEntityID := lastEntityID em; Entities := entities em;
                   Components := components em; identMap := ∅ |}
                NewECSManager) as (Fl & Fe & Fc & Fu & Fs).
    cbn in Fl, Fe, Fc, Fu, Fs.
    apply ECSManager_eq.
    + by rewrite Fl.
    + apply map_eq. intros e. rewrite Fe, lookup_empty.
      by destruct (entities em !! e).
    + apply map_eq. intros [str|n].
      * by rewrite Fs, Hnoid.
      * by rewrite Fu, Hnoid, !lookup_empty.
    + apply map_eq. intros e. rewrite Fc, lookup_empty.
      destruct (entities em !! e) as [v|] eqn:Hlisted.
      * destruct (proj1 (Hstores e)) as [cm ->]; [by rewrite Hlisted; eauto|].
        done.
      * destruct (components em !! e) as [cm|] eqn:Hcm; [|done].
        destruct (proj2 (Hstores e)) as [v Hv]; [eauto | congruence].
Qed.

Lemma Decode_inverts_Encode_without_identifiers_witness :
  let em := two_npcs 5 in
  let codec := fixed_gob {| xLastEntityID := lastEntityID em;
                            xEntities := entities em;
                            xComponents := components em |} player_blob in
  @Encode codec em = Ok []
  ∧ @Decode codec [] NewECSManager = (Ok tt, em).
Proof.
  intros em codec.
  apply (@Decode_inverts_Encode_without_identifiers codec em []).
  - apply store_eq_dom. vm_compute. reflexivity.
  - vm_compute. reflexivity.
  - reflexivity.
  - reflexivity.
Defined.

(** ** Entity blobs *)

Lemma add_all_listed (e : Entity) (comps cm : gmap string Component)
    (em : ECSManager) :
  is_Some (entities em !! e) → components em !! e = Some cm →
  add_all e comps em
  = Ok (set_store e
          (foldl (λ acc kv, <[kv.1 := kv.2]> acc) cm (map_to_list comps)) em).
Proof.
  intros Hlisted Hcm. unfold add_all, for_range.
  replace (Ok em) with (Ok (set_store e cm em)) by (by rewrite set_store_same).
  by apply add_loop_listed.
Qed.

(** X15: decoding the blob of an entity whose identifier is already bound:
    the entity bound to it is returned, whatever [ID] the blob carries,
    and the blob's components are merged into its store (they overwrite
    the names they have, the other names stay); nothing else changes. If
    that entity is no longer listed, as after a removal that left the
    identifier behind, the blob is dropped and the registry is as it was. *)
Theorem DecodeEntity_updates_the_known_entity `{Gob} (data : list Byte.byte)
    (sd : SerializableEntity) (ex : Entity) (em : ECSManager) :
  gobDecodeEntity data = GobOk sd →
  Ident sd ≠ ""%string →
  indentToEntity em !! StrKey (Ident sd) = Some ex →
  (entities em !! ex = None → DecodeEntity data em = (Ok ex, em))
  ∧ (is_Some (entities em !! ex) → is_Some (components em !! ex) →
     (DecodeEntity data em).1 = Ok ex
     ∧ (∀ n, GetComponent (DecodeEntity data em).2 ex n
             = match seComponents sd !! n with
               | Some c => c
               | None => GetComponent em ex n
               end)
     ∧ (∀ e n, e ≠ ex → GetComponent (DecodeEntity data em).2 e n
                        = GetComponent em e n)
     ∧ entities (DecodeEntity data em).2 = entities em
     ∧ indentToEntity (DecodeEntity data em).2 = indentToEntity em
     ∧ lastEntityID (DecodeEntity data em).2 = lastEntityID em).
Proof.
  intros Hdec Hident Hbound.
  assert (Hshape : DecodeEntity data em
                   = match add_all ex (seComponents sd) em with
                     | Ok em2 => (Ok ex, em2)
                     | Err msg => (Err msg, em)
                     | Panic msg => (Panic msg, em)
                     end).
  { unfold DecodeEntity. rewrite Hdec.
    destruct (String.eqb_spec (Ident sd) "") as [|_]; [done|].
    unfold GetEntityByIdent. by rewrite Hbound. }
  rewrite Hshape. split.
  - intros Hno. unfold add_all, for_range. by rewrite add_loop_unlisted.
  - intros Hlisted [cm Hcm]. rewrite (add_all_listed ex _ cm) by done.
    cbn [fst snd set_store entities indentToEntity lastEntityID].
    split; [done|]. split; [|split; [|done]].
    + intros n. unfold GetComponent, set_store. cbn [components].
      rewrite lookup_insert_eq, Hcm, (foldl_insert_map (λ c, c)).
      by destruct (seComponents sd !! n).
    + intros e n Hne. unfold GetComponent, set_store. cbn [components].
      by rewrite lookup_insert_ne.
Qed.

Lemma DecodeEntity_updates_the_known_entity_witness :
  GetComponent (@DecodeEntity (fixed_gob no_registry player_blob) []
                  player_registry).2 1 "solid"
  = BoolVal true.
Proof.
  destruct (@DecodeEntity_updates_the_known_entity
              (fixed_gob no_registry player_blob) [] player_blob 1 player_registry)
    as [_ Hmerge]; [reflexivity | discriminate | vm_compute; reflexivity |].
  destruct Hmerge as (_ & Hget & _);
    [exists true; vm_compute; reflexivity | exists ∅; vm_compute; reflexivity |].
  apply (Hget "solid").
Defined.

(** X16: decoding the blob of an entity whose identifier is empty or not
    bound creates an entity: its id is the next of the counter, not the
    [ID] of the blob; its store is the blob's component map; a non-empty
    identifier is bound to it; the other entities keep their stores. So a
    blob without identifier adds a new entity each time it is decoded. *)
Theorem DecodeEntity_creates_the_unknown_entity `{Gob} (data : list Byte.byte)
    (sd : SerializableEntity) (em : ECSManager) :
  gobDecodeEntity data = GobOk sd →
  Ident sd = ""%string ∨ indentToEntity em !! StrKey (Ident sd) = None →
  let id := ((lastEntityID em + 1) mod uint32_mod)%N in
  (DecodeEntity data em).1 = Ok id
  ∧ lastEntityID (DecodeEntity data em).2 = id
  ∧ entities (DecodeEntity data em).2 = <[id := true]> (entities em)
  ∧ components (DecodeEntity data em).2
    = <[id := seComponents sd]> (components em)
  ∧ indentToEntity (DecodeEntity data em).2
    = (if String.eqb (Ident sd) "" then indentToEntity em
       else <[StrKey (Ident sd) := id]> (indentToEntity em)).
Proof.
  intros Hdec Hnew id. unfold DecodeEntity. rewrite Hdec.
  assert (Hadd : ∀ ident,
            add_all id (seComponents sd) (AddEntity ident em).2
            = Ok (set_store id (seComponents sd) (AddEntity ident em).2)).
  { intros ident.
    rewrite (add_all_listed id _ ∅);
      [|exists true; apply lookup_insert_eq | apply lookup_insert_eq].
    do 2 f_equal. apply map_eq. intros n.
    rewrite (foldl_insert_map (λ c, c)), lookup_empty.
    by destruct (seComponents sd !! n). }
  assert (Hres : ∀ ident,
            (let '(target, em1) := AddEntity ident em in
             match add_all target (seComponents sd) em1 with
             | Ok em2 => (Ok target, em2)
             | Err msg => (Err msg, em1)
             | Panic msg => (Panic msg, em1)
             end)
            = (Ok id, set_store id (seComponents sd) (AddEntity ident em).2)).
  { intros ident. specialize (Hadd ident).
    change (AddEntity ident em) with (id, (AddEntity ident em).2) at 1.
    cbv beta iota. by rewrite Hadd. }
  destruct (String.eqb_spec (Ident sd) "") as [Hempty|Hne].
  - rewrite Hres. cbn. by rewrite insert_insert_eq.
  - destruct Hnew as [?|Hunbound]; [done|].
    unfold GetEntityByIdent. rewrite Hunbound, Hres. cbn.
    by rewrite insert_insert_eq.
Qed.

Lemma DecodeEntity_creates_the_unknown_entity_witness :
  (@DecodeEntity (fixed_gob no_registry anonymous_blob) [] player_registry).1
  = Ok 2%N.
Proof.
  apply (@DecodeEntity_creates_the_unknown_entity
           (fixed_gob no_registry anonymous_blob) [] anonymous_blob player_registry).
  - reflexivity.
  - by left.
Defined.

(** X17: an entity with a store, listed, and known under an identifier
    survives the round trip through its own blob: if gob reads the blob as
    the value it was given, [DecodeEntity] of what [EncodeEntity] returned
    answers the same entity and leaves the registry exactly as it was. *)
Theorem DecodeEntity_inverts_EncodeEntity `{Gob} (e : Entity) (s : string)
    (cm : gmap string Component) (bytes : list Byte.byte) (em : ECSManager) :
  is_Some (entities em !! e) →
  components em !! e = Some cm →
  GetEntityIdent e em = Ok (s, true) →
  EncodeEntity e em = Ok bytes →
  gobDecodeEntity bytes = GobOk {| ID := e; Ident := s; seComponents := cm |} →
  DecodeEntity bytes em = (Ok e, em).
Proof.
  intros Hlisted Hcm Hident _ Hdec.
  destruct (proj1 (GetEntityIdent_ident_bound e em) s Hident) as [Hne Hbound].
  unfold DecodeEntity. rewrite Hdec. cbn [Ident seComponents].
  destruct (String.eqb_spec s "") as [|_]; [done|].
  unfold GetEntityByIdent. rewrite Hbound.
  rewrite (add_all_listed e cm cm) by done. do 2 f_equal.
  rewrite <- (set_store_same e cm em Hcm) at 2. f_equal.
  apply map_eq. intros n. rewrite (foldl_insert_map (λ c, c)).
  by destruct (cm !! n).
Qed.

Lemma DecodeEntity_inverts_EncodeEntity_witness :
  let codec := fixed_gob no_registry
                 {| ID := 1; Ident := "player"; seComponents := ∅ |} in
  @DecodeEntity codec [] player_registry = (Ok 1%N, player_registry).
Proof.
  intros codec.
  apply (@DecodeEntity_inverts_EncodeEntity codec 1 "player" ∅ [] player_registry).
  - exists true. vm_compute. reflexivity.
  - vm_compute. reflexivity.
  - vm_compute. reflexivity.
  - vm_compute. reflexivity.
  - reflexivity.
Defined.

(** * Further properties of the collision engine *)

Section Handlers.

Import Collision.

(** X18: a handler is registered for one ordered pair of groups: after
    [AddResolve a b h], the handler of [(a, b)] is [h], and every other
    ordered pair, the reverse pair [(b, a)] among them, has the handler it
    had; the tracked set is not touched. *)
Theorem AddResolve_is_directional (a b : string) (h : CollisionHandler)
    (cm : CollisionManager) :
  getHandler (AddResolve a b h cm) a b = Some h
  ∧ (∀ a' b', a' ≠ a ∨ b' ≠ b →
       getHandler (AddResolve a b h cm) a' b' = getHandler cm a' b')
  ∧ previousCollisions (AddResolve a b h cm) = previousCollisions cm.
Proof.
  unfold getHandler, AddResolve. cbn [handlers previousCollisions].
  split; [by rewrite !lookup_insert_eq|]. split; [|done].
  intros a' b' Hne. destruct (decide (a' = a)) as [->|Ha].
  - rewrite lookup_insert_eq.
    destruct Hne as [?|Hb]; [done|]. rewrite lookup_insert_ne by done.
    by destruct (handlers cm !! a).
  - by rewrite lookup_insert_ne.
Qed.

Lemma rectOverlap_sym (x1 y1 w1 h1 x2 y2 w2 h2 : float) :
  rectOverlap x1 y1 w1 h1 x2 y2 w2 h2 = rectOverlap x2 y2 w2 h2 x1 y1 w1 h1.
Proof.
  unfold rectOverlap.
  destruct (x1 <? x2 + w2)%float, (x2 <? x1 + w1)%float,
           (y1 <? y2 + h2)%float, (y2 <? y1 + h1)%float; reflexivity.
Qed.

(** X19: the overlap test does not depend on the order of the two
    entities, unless both colliders are cross-shaped (then only the bars
    of the first are used). *)
Theorem checkCollision_is_symmetric_unless_both_cross
    (p1 p2 : PositionComponent) (c1 c2 : ColliderComponent) :
  CrossShape c1 && CrossShape c2 = false →
  checkCollision p1 c1 p2 c2 = checkCollision p2 c2 p1 c1.
Proof.
  intros Hcross. unfold checkCollision.
  destruct (CrossShape c1), (CrossShape c2); try done.
  apply rectOverlap_sym.
Qed.

Lemma checkCollision_is_symmetric_unless_both_cross_witness :
  let plus := {| Group := "npc"; CrossShape := true;
                 OffsetX := 0; OffsetY := 0; cWidth := 0; cHeight := 0;
                 HorizWidth := 6; HorizHeight := 2;
                 VertWidth := 2; VertHeight := 6 |} in
  checkCollision {| pX := 0; pY := 0 |} plus {| pX := 2; pY := 0 |}
    (square_collider "npc")
  = checkCollision {| pX := 2; pY := 0 |} (square_collider "npc")
      {| pX := 0; pY := 0 |} plus.
Proof.
  intros plus.
  apply (checkCollision_is_symmetric_unless_both_cross _ _ plus
           (square_collider "npc") eq_refl).
Defined.

End Handlers.

Section TickFacts.

Import Collision.

Variables (cm : CollisionManager) (em : ECSManager).

Lemma tested_in_fire (a b : Entity) (hit : bool) (f : option Callback)
    (x y : Entity) (evs : list Event) :
  Tested a b hit ∈ fire f x y evs ↔ Tested a b hit ∈ evs.
Proof.
  destruct f as [cb|]; simpl; [|done].
  rewrite elem_of_app, list_elem_of_singleton. split; [|by left].
  intros [?|?]; done.
Qed.

Lemma tested_in_record (a b : Entity) (hit hit' : bool) (x y : Entity)
    (evs : list Event) :
  Tested a b hit ∈ evs ++ [Tested x y hit']
  ↔ Tested a b hit ∈ evs ∨ (a = x ∧ b = y ∧ hit = hit').
Proof.
  rewrite elem_of_app, list_elem_of_singleton. split.
  - intros [?|[= -> -> ->]]; [by left | by right].
  - intros [?|(-> & -> & ->)]; [by left | by right].
Qed.

(** What [visit] does when it evaluates the pair. *)
Lemma visit_cases (e1 e2 : Entity) (c1 : ColliderComponent)
    (p1 : PositionComponent) (t : Tick) :
  visit cm em e1 c1 p1 t e2 = t
  ∨ ∃ c2 p2 s2 h f trk,
      e1 ≠ e2
      ∧ getComponents em e2 = Some (c2, p2, s2)
      ∧ getHandler cm (Group c1) (Group c2) = Some h
      ∧ processed t !! collisionKey e1 e2 = None
      ∧ (checkCollision p1 c1 p2 c2 = true →
         is_Some (trk !! collisionKey e1 e2)
         ∧ (∀ k, k ≠ collisionKey e1 e2 → trk !! k = tracked t !! k)
         ∧ (f = Enter h ∨ f = Stay h))
      ∧ (checkCollision p1 c1 p2 c2 = false → trk = tracked t ∧ f = None)
      ∧ visit cm em e1 c1 p1 t e2
        = {| processed := <[collisionKey e1 e2 := true]> (processed t);
             currentCollisions :=
               if checkCollision p1 c1 p2 c2
               then <[collisionKey e1 e2 := true]> (currentCollisions t)
               else currentCollisions t;
             tracked := trk;
             events := fire f e1 e2
                         (events t ++ [Tested e1 e2 (checkCollision p1 c1 p2 c2)]) |}.
Proof.
  unfold visit.
  destruct (N.eqb_spec e1 e2) as [|Hne]; [by left|].
  destruct (getComponents em e2) as [[[c2 p2] s2]|] eqn:Hc2; [|by left].
  destruct (getHandler cm (Group c1) (Group c2)) as [h|] eqn:Hh; [|by left].
  destruct (processed t !! collisionKey e1 e2) eqn:Hfresh; [by left|].
  right. exists c2, p2, s2, h.
  destruct (checkCollision p1 c1 p2 c2);
    [destruct (tracked t !! collisionKey e1 e2) eqn:Htrk|].
  - exists (Stay h), (tracked t).
    split; [done|]. split; [done|]. split; [done|]. split; [done|].
    split; [intros _; split; [by rewrite Htrk | split; [done | by right]]|].
    split; done.
  - exists (Enter h), (<[collisionKey e1 e2 := true]> (tracked t)).
    split; [done|]. split; [done|]. split; [done|]. split; [done|].
    split; [intros _; split; [|split]|].
    + by rewrite lookup_insert_eq.
    + intros k Hk. by rewrite lookup_insert_ne.
    + by left.
    + split; done.
  - exists None, (tracked t).
    split; [done|]. split; [done|]. split; [done|]. split; [done|].
    split; [done|]. split; done.
Qed.

(** Every overlap test of the detection loops is made on two distinct
    listed collidable entities with a handler for their groups, and
    records their overlap. *)
Lemma detect_tests_justified (a b : Entity) (hit : bool) :
  Tested a b hit ∈ events (detect cm em) →
  a ≠ b ∧ ∃ h, pair_state cm em a b h hit.
Proof.
  unfold detect.
  assert (Hlive : ∀ e,
            e ∈ GetEntitiesWithComponents em ["collider"; "position"; "size"] →
            is_Some (entities em !! e)).
  { by intros e [? _]%elem_of_GetEntitiesWithComponents. }
  revert Hlive.
  generalize (GetEntitiesWithComponents em ["collider"; "position"; "size"]).
  intros ents Hlive.
  set (good := λ t : Tick, ∀ a b hit, Tested a b hit ∈ events t →
                 a ≠ b ∧ ∃ h, pair_state cm em a b h hit).
  assert (Hinner : ∀ e1 c1 p1 s1 l t,
            is_Some (entities em !! e1) →
            getComponents em e1 = Some (c1, p1, s1) →
            (∀ e2, e2 ∈ l → is_Some (entities em !! e2)) →
            good t → good (foldl (visit cm em e1 c1 p1) t l)).
  { intros e1 c1 p1 s1 l. induction l as [|e2 l IH]; intros t He1 Hc1 Hl Ht; [done|].
    cbn [foldl]. apply IH; [done | done | intros e ?; apply Hl; by right|].
    destruct (visit_cases e1 e2 c1 p1 t)
      as [->|(c2 & p2 & s2 & h & f & trk & Hne & Hc2 & Hh & _ & _ & _ & ->)];
      [done|].
    intros a' b' hit' Hin. cbn [events] in Hin.
    apply tested_in_fire, tested_in_record in Hin as [Hin|(-> & -> & ->)];
      [by apply Ht|].
    split; [done|]. exists h. split; [done|]. split; [apply Hl; by left|].
    by exists c1, p1, s1, c2, p2, s2. }
  assert (Houter : ∀ l t, (∀ e1, e1 ∈ l → is_Some (entities em !! e1)) →
            good t → good (foldl (scan_from cm em ents) t l)).
  { induction l as [|e1 l IH]; intros t Hl Ht; [done|].
    cbn [foldl]. apply IH; [intros e ?; apply Hl; by right|].
    unfold scan_from.
    destruct (getComponents em e1) as [[[c1 p1] s1]|] eqn:Hc1; [|done].
    apply (Hinner e1 c1 p1 s1); [apply Hl; by left | done | done | done]. }
  intros Hin. apply (Houter ents _ Hlive) in Hin; [done|].
  intros a' b' hit' Hin'. inversion Hin'.
Qed.

Lemma tested_in_release (a b : Entity) (hit : bool) (cur : gmap string bool)
    (k : string) (st : gmap string bool * list Event) :
  Tested a b hit ∈ (release cm em cur k st).2 ↔ Tested a b hit ∈ st.2.
Proof.
  destruct st as [prev evs]. unfold release.
  destruct (cur !! k); [done|].
  destruct (parseCollisionKey k) as [e1 e2].
  destruct (getComponents em e1) as [[[c1 p1] s1]|]; [|done].
  destruct (getComponents em e2) as [[[c2 p2] s2]|]; [|done].
  destruct (getHandler cm (Group c1) (Group c2)); [|done].
  apply tested_in_fire.
Qed.

Lemma tested_in_Update (a b : Entity) (hit : bool) :
  Tested a b hit ∈ (Update cm em).2 ↔ Tested a b hit ∈ events (detect cm em).
Proof.
  destruct (Update_events cm em) as [-> _].
  generalize (map_to_list (tracked (detect cm em))). intros l.
  change (events (detect cm em))
    with (tracked (detect cm em), events (detect cm em)).2 at 2.
  generalize (tracked (detect cm em), events (detect cm em)).
  induction l as [|kv l IH]; intros st; [done|].
  cbn [foldl]. by rewrite IH, tested_in_release.
Qed.

(** X20: every overlap test of a tick is made on an ordered pair of two
    distinct listed entities that are collidable and have a handler
    registered for their groups in this order, and the result recorded is
    their overlap: no entity is tested against itself, and no pair
    without handler is tested. *)
Theorem Update_tests_only_pairs_with_a_handler (a b : Entity) (hit : bool) :
  Tested a b hit ∈ (Update cm em).2 →
  a ≠ b ∧ ∃ h, pair_state cm em a b h hit.
Proof. intros Hin%tested_in_Update. by apply detect_tests_justified. Qed.

(** After the detection loops, the keys of this tick's collisions are the
    keys of the pairs tested with overlap, and all of them are tracked. *)
Lemma detect_current :
  (∀ k, is_Some (currentCollisions (detect cm em) !! k)
        ↔ ∃ a b, k = collisionKey a b
                 ∧ Tested a b true ∈ events (detect cm em))
  ∧ (∀ k, is_Some (currentCollisions (detect cm em) !! k) →
          is_Some (tracked (detect cm em) !! k)).
Proof.
  unfold detect.
  generalize (GetEntitiesWithComponents em ["collider"; "position"; "size"]).
  intros ents.
  set (good := λ t : Tick,
         (∀ k, is_Some (currentCollisions t !! k)
               ↔ ∃ a b, k = collisionKey a b ∧ Tested a b true ∈ events t)
         ∧ (∀ k, is_Some (currentCollisions t !! k) → is_Some (tracked t !! k))).
  assert (Hvisit : ∀ e1 c1 p1 t e2, good t → good (visit cm em e1 c1 p1 t e2)).
  { intros e1 c1 p1 t e2 [Hcur Htrk].
    destruct (visit_cases e1 e2 c1 p1 t)
      as [->|(c2 & p2 & s2 & h & f & trk & _ & _ & _ & _ & Hhit & Hmiss & ->)];
      [done|].
    unfold good.
    destruct (checkCollision p1 c1 p2 c2); cbn [currentCollisions tracked events].
    - destruct (Hhit eq_refl) as (Hkey & Hrest & _). split.
      + intros k. rewrite lookup_insert_is_Some, Hcur.
        setoid_rewrite tested_in_fire. setoid_rewrite tested_in_record.
        split.
        * intros [<-|[_ (a & b & -> & Hin)]]; [exists e1, e2; eauto|].
          exists a, b. eauto.
        * intros (a & b & -> & [Hin|(-> & -> & _)]); [|by left].
          destruct (decide (collisionKey e1 e2 = collisionKey a b)); [by left|].
          right. split; [done|]. exists a, b. eauto.
      + intros k [<-|[Hne Hk]]%lookup_insert_is_Some; [done|].
        rewrite Hrest by done. by apply Htrk.
    - destruct (Hmiss eq_refl) as [-> ->]. split; [|done].
      intros k. rewrite Hcur. cbn [fire].
      setoid_rewrite tested_in_record. split.
      + intros (a & b & -> & Hin). exists a, b. eauto.
      + intros (a & b & -> & [Hin|(_ & _ & ?)]); [|done]. exists a, b. eauto. }
  assert (Hinner : ∀ e1 c1 p1 l t, good t → good (foldl (visit cm em e1 c1 p1) t l)).
  { intros e1 c1 p1 l. induction l as [|e2 l IH]; intros t Ht; [done|].
    cbn [foldl]. by apply IH, Hvisit. }
  assert (Houter : ∀ l t, good t → good (foldl (scan_from cm em ents) t l)).
  { induction l as [|e1 l IH]; intros t Ht; [done|].
    cbn [foldl]. apply IH. unfold scan_from.
    destruct (getComponents em e1) as [[[c1 p1] s1]|]; [|done].
    by apply Hinner. }
  apply Houter. split.
  - intros k. cbn. rewrite lookup_empty. split; [by intros [? ?]|].
    intros (a & b & _ & Hin). inversion Hin.
  - intros k. cbn. rewrite lookup_empty. by intros [? ?].
Qed.

(** The closing pass keeps the keys of this tick's collisions and deletes
    every other key it walks over. *)
Lemma closing_lookup (cur : gmap string bool) (l : list (string * bool))
    (st : gmap string bool * list Event) (k : string) :
  (foldl (λ st kv, release cm em cur kv.1 st) st l).1 !! k
  = if decide (is_Some (cur !! k)) then st.1 !! k
    else if decide (k ∈ l.*1) then None else st.1 !! k.
Proof.
  assert (Hrelease : ∀ k0 st, (release cm em cur k0 st).1
            = if decide (is_Some (cur !! k0)) then st.1 else delete k0 st.1).
  { intros k0 [prev evs]. unfold release.
    destruct (cur !! k0) eqn:Hk0.
    - rewrite decide_True; [done | eauto].
    - rewrite decide_False by (by intros [? ?]).
      destruct (parseCollisionKey k0) as [e1 e2].
      destruct (getComponents em e1) as [[[c1 p1] s1]|]; [|done].
      destruct (getComponents em e2) as [[[c2 p2] s2]|]; [|done].
      by destruct (getHandler cm (Group c1) (Group c2)). }
  revert st. induction l as [|[k0 v0] l IH]; intros st; cbn [foldl].
  - destruct (decide (is_Some (cur !! k))); [done|].
    rewrite decide_False; [done|]. intros Hin. inversion Hin.
  - rewrite IH, Hrelease. cbn [fst fmap list_fmap].
    destruct (decide (is_Some (cur !! k))) as [Hk|Hk].
    + destruct (decide (is_Some (cur !! k0))); [done|].
      rewrite lookup_delete_ne; [done|]. by intros <-.
    + destruct (decide (k ∈ l.*1)) as [Hin|Hnotin].
      * rewrite (decide_True (P := k ∈ k0 :: l.*1)); [done | by right].
      * destruct (decide (k = k0)) as [->|Hne].
        -- rewrite (decide_False (P := is_Some (cur !! k0))) by done.
           rewrite lookup_delete_eq.
           rewrite (decide_True (P := k0 ∈ k0 :: l.*1)); [done | by left].
        -- rewrite (decide_False (P := k ∈ k0 :: l.*1)).
           ++ destruct (decide (is_Some (cur !! k0))); [done|].
              by rewrite lookup_delete_ne.
           ++ intros [?|?]%elem_of_cons; done.
Qed.

Lemma Update_tracked (k : string) :
  previousCollisions (Update cm em).1 !! k
  = if decide (is_Some (currentCollisions (detect cm em) !! k))
    then tracked (detect cm em) !! k else None.
Proof.
  destruct (Update_events cm em) as (_ & -> & _).
  rewrite closing_lookup. cbn [fst].
  destruct (decide (is_Some (currentCollisions (detect cm em) !! k))); [done|].
  destruct (decide (k ∈ (map_to_list (tracked (detect cm em))).*1))
    as [|Hnotin]; [done|].
  destruct (tracked (detect cm em) !! k) as [v|] eqn:Hk; [|done].
  exfalso. apply Hnotin, list_elem_of_fmap. exists (k, v).
  split; [done|]. by apply elem_of_map_to_list.
Qed.

(** X21: after a tick, the tracked keys are exactly the keys of the
    ordered pairs that the tick tested and found overlapping: whatever was
    tracked before and did not overlap in this tick is gone. *)
Theorem Update_tracks_exactly_the_overlapping_pairs (k : string) :
  is_Some (previousCollisions (Update cm em).1 !! k)
  ↔ ∃ a b, k = collisionKey a b ∧ Tested a b true ∈ (Update cm em).2.
Proof.
  destruct detect_current as [Hcur Htrk].
  rewrite Update_tracked. setoid_rewrite tested_in_Update. rewrite <- Hcur.
  destruct (decide (is_Some (currentCollisions (detect cm em) !! k))) as [Hk|Hk].
  - split; [done|]. intros _. by apply Htrk.
  - split; [by intros [? ?] | done].
Qed.

(** X22: when no handler is registered for any pair of groups, a tick
    tests nothing and calls nothing, and it empties the tracked set. *)
Theorem Update_without_handlers_does_nothing :
  (∀ ga gb, getHandler cm ga gb = None) →
  (Update cm em).2 = [] ∧ previousCollisions (Update cm em).1 = ∅.
Proof.
  intros Hnone.
  assert (Hdetect : detect cm em
                    = {| processed := ∅; currentCollisions := ∅;
                         tracked := previousCollisions cm; events := [] |}).
  { unfold detect.
    generalize (GetEntitiesWithComponents em ["collider"; "position"; "size"]) at 1.
    intros ents.
    generalize (GetEntitiesWithComponents em ["collider"; "position"; "size"]).
    intros outer.
    generalize ({| processed := ∅; currentCollisions := ∅;
                   tracked := previousCollisions cm; events := [] |}).
    induction outer as [|e1 outer IH]; intros t; [done|].
    cbn [foldl]. rewrite IH. unfold scan_from.
    destruct (getComponents em e1) as [[[c1 p1] s1]|]; [|done].
    clear IH. induction ents as [|e2 ents IHe] in t |- *; [done|].
    cbn [foldl]. rewrite IHe.
    destruct (visit_cases e1 e2 c1 p1 t)
      as [->|(c2 & p2 & s2 & h & _ & _ & _ & _ & Hh & _)]; [done|].
    by rewrite Hnone in Hh. }
  split.
  - destruct (Update_events cm em) as [-> _]. rewrite Hdetect.
    cbn [tracked events currentCollisions].
    generalize (map_to_list (previousCollisions cm)). intros l.
    assert (Hfold : ∀ st : gmap string bool * list Event, st.2 = [] →
              (foldl (λ st kv, release cm em ∅ kv.1 st) st l).2 = []).
    { induction l as [|kv l IH]; intros st Hst; [done|].
      cbn [foldl]. apply IH. destruct st as [prev evs]. cbn in Hst. subst evs.
      unfold release. rewrite lookup_empty.
      destruct (parseCollisionKey kv.1) as [e1 e2].
      destruct (getComponents em e1) as [[[c1 p1] s1]|]; [|done].
      destruct (getComponents em e2) as [[[c2 p2] s2]|]; [|done].
      by rewrite Hnone. }
    by apply Hfold.
  - apply map_eq. intros k. rewrite Update_tracked, Hdetect, lookup_empty.
    cbn [currentCollisions]. rewrite lookup_empty.
    by rewrite decide_False by (by intros [? ?]).
Qed.

(** An invariant of the two detection loops: it holds after them when it
    holds at their start and every evaluation of a pair of listed
    entities keeps it. *)
Lemma detect_ind (P : Tick → Prop) :
  P {| processed := ∅; currentCollisions := ∅;
       tracked := previousCollisions cm; events := [] |} →
  (∀ e1 e2 c1 p1 s1 t,
     is_Some (entities em !! e1) → is_Some (entities em !! e2) →
     getComponents em e1 = Some (c1, p1, s1) →
     P t → P (visit cm em e1 c1 p1 t e2)) →
  P (detect cm em).
Proof.
  intros Hstart Hvisit. unfold detect.
  assert (Hlive : ∀ e,
            e ∈ GetEntitiesWithComponents em ["collider"; "position"; "size"] →
            is_Some (entities em !! e)).
  { by intros e [? _]%elem_of_GetEntitiesWithComponents. }
  revert Hlive Hstart.
  generalize ({| processed := ∅; currentCollisions := ∅;
                 tracked := previousCollisions cm; events := [] |}).
  generalize (GetEntitiesWithComponents em ["collider"; "position"; "size"]).
  intros ents t0 Hlive Hstart.
  assert (Hinner : ∀ e1 c1 p1 s1 l t,
            is_Some (entities em !! e1) →
            getComponents em e1 = Some (c1, p1, s1) →
            (∀ e2, e2 ∈ l → is_Some (entities em !! e2)) →
            P t → P (foldl (visit cm em e1 c1 p1) t l)).
  { intros e1 c1 p1 s1 l.
    induction l as [|e2 l IH]; intros t He1 Hc1 Hl Ht; [done|].
    cbn [foldl]. apply IH; [done | done | intros e ?; apply Hl; by right|].
    apply (Hvisit e1 e2 c1 p1 s1); [done | apply Hl; by left | done | done]. }
  assert (Houter : ∀ l t, (∀ e1, e1 ∈ l → is_Some (entities em !! e1)) →
            P t → P (foldl (scan_from cm em ents) t l)).
  { induction l as [|e1 l IH]; intros t Hl Ht; [done|].
    cbn [foldl]. apply IH; [intros e ?; apply Hl; by right|].
    unfold scan_from.
    destruct (getComponents em e1) as [[[c1 p1] s1]|] eqn:Hc1; [|done].
    apply (Hinner e1 c1 p1 s1); [apply Hl; by left | done | done | done]. }
  by apply Houter.
Qed.

Lemma call_in_fire (cb : Callback) (x y : Entity) (f : option Callback)
    (a b : Entity) (evs : list Event) :
  Call cb x y ∈ fire f a b evs
  ↔ Call cb x y ∈ evs ∨ (f = Some cb ∧ x = a ∧ y = b).
Proof.
  destruct f as [cb'|]; simpl.
  - rewrite elem_of_app, list_elem_of_singleton. split.
    + intros [?|[= -> -> ->]]; [by left | by right].
    + intros [?|([= ->] & -> & ->)]; [by left | by right].
  - split; [by left|]. by intros [?|[? _]].
Qed.

Lemma call_in_record (cb : Callback) (x y a b : Entity) (hit : bool)
    (evs : list Event) :
  Call cb x y ∈ evs ++ [Tested a b hit] ↔ Call cb x y ∈ evs.
Proof.
  rewrite elem_of_app, list_elem_of_singleton. split; [|by left].
  by intros [?|?].
Qed.

(** A call made by the detection loops is the Enter or Stay callback of
    the handler of a pair tested with overlap. *)
Lemma detect_calls_justified (cb : Callback) (x y : Entity) :
  Call cb x y ∈ events (detect cm em) →
  Tested x y true ∈ events (detect cm em)
  ∧ ∃ h, pair_state cm em x y h true ∧ (Enter h = Some cb ∨ Stay h = Some cb).
Proof.
  revert cb x y.
  apply (detect_ind (λ t, ∀ cb x y, Call cb x y ∈ events t →
           Tested x y true ∈ events t
           ∧ ∃ h, pair_state cm em x y h true
                  ∧ (Enter h = Some cb ∨ Stay h = Some cb))).
  - intros cb x y Hin. inversion Hin.
  - intros e1 e2 c1 p1 s1 t He1 He2 Hc1 Ht cb x y.
    destruct (visit_cases e1 e2 c1 p1 t)
      as [->|(c2 & p2 & s2 & h & f & trk & Hne & Hc2 & Hh & _ & Hhit & Hmiss & ->)];
      [by apply Ht|].
    cbn [events]. rewrite call_in_fire, call_in_record, tested_in_fire.
    rewrite tested_in_record.
    intros [Hin|(Hf & -> & ->)].
    + destruct (Ht _ _ _ Hin) as [? ?]. split; [by left | done].
    + destruct (checkCollision p1 c1 p2 c2) eqn:Hover.
      * split; [by right|]. exists h. split.
        -- split; [done|]. split; [done|].
           by exists c1, p1, s1, c2, p2, s2.
        -- destruct (Hhit eq_refl) as (_ & _ & [->| ->]); [by left | by right].
      * destruct (Hmiss eq_refl) as [_ ->]. done.
Qed.

(** A key tracked after the detection loops was tracked before the tick
    or is the key of a collision of this tick. *)
Lemma detect_tracked (k : string) :
  is_Some (tracked (detect cm em) !! k) →
  is_Some (previousCollisions cm !! k)
  ∨ is_Some (currentCollisions (detect cm em) !! k).
Proof.
  revert k.
  apply (detect_ind (λ t, ∀ k, is_Some (tracked t !! k) →
           is_Some (previousCollisions cm !! k)
           ∨ is_Some (currentCollisions t !! k))).
  - intros k Hk. by left.
  - intros e1 e2 c1 p1 s1 t _ _ _ Ht k.
    destruct (visit_cases e1 e2 c1 p1 t)
      as [->|(c2 & p2 & s2 & h & f & trk & _ & _ & _ & _ & Hhit & Hmiss & ->)];
      [by apply Ht|].
    destruct (checkCollision p1 c1 p2 c2); cbn [tracked currentCollisions].
    + destruct (Hhit eq_refl) as (_ & Hrest & _).
      destruct (decide (k = collisionKey e1 e2)) as [->|Hne].
      * intros _. right. by rewrite lookup_insert_eq.
      * rewrite Hrest, lookup_insert_ne by done. apply Ht.
    + destruct (Hmiss eq_refl) as [-> _]. apply Ht.
Qed.

(** A call made by the closing pass is the Leave callback of the handler
    of the two entities parsed from a key it walks over, both collidable,
    the key being no collision of this tick. *)
Lemma closing_calls (cur : gmap string bool) (l : list (string * bool))
    (st : gmap string bool * list Event) (cb : Callback) (x y : Entity) :
  Call cb x y ∈ (foldl (λ st kv, release cm em cur kv.1 st) st l).2 →
  Call cb x y ∈ st.2
  ∨ ∃ k cx px sx cy py sy h,
      k ∈ l.*1 ∧ cur !! k = None ∧ parseCollisionKey k = (x, y)
      ∧ getComponents em x = Some (cx, px, sx)
      ∧ getComponents em y = Some (cy, py, sy)
      ∧ getHandler cm (Group cx) (Group cy) = Some h
      ∧ Leave h = Some cb.
Proof.
  revert st. induction l as [|[k v] l IH]; intros st; cbn [foldl]; [by left|].
  intros [Hin|(k' & cx & px & sx & cy & py & sy & h & Hk' & Hrest)]%IH.
  - destruct st as [prev evs]. unfold release in Hin. cbn [fst snd] in *.
    destruct (cur !! k) eqn:Hk; [by left|].
    destruct (parseCollisionKey k) as [e1 e2] eqn:Hparse.
    destruct (getComponents em e1) as [[[c1 p1] s1]|] eqn:Hc1; [|by left].
    destruct (getComponents em e2) as [[[c2 p2] s2]|] eqn:Hc2; [|by left].
    destruct (getHandler cm (Group c1) (Group c2)) as [h|] eqn:Hh; [|by left].
    cbn [snd] in Hin. apply call_in_fire in Hin as [Hin|(Hf & -> & ->)];
      [by left|].
    right. exists k, c1, p1, s1, c2, p2, s2, h.
    split; [by left|]. done.
  - right. exists k', cx, px, sx, cy, py, sy, h. split; [by right | done].
Qed.

(** X23: every callback a tick calls on a pair (x, y) belongs to the
    handler registered for the groups of x and y, both collidable at the
    time of the tick. It is the Enter or Stay callback of a pair tested
    with overlap in this tick, or the Leave callback for a key that was
    tracked before the tick and is no longer tracked after it. *)
Theorem Update_calls_only_registered_callbacks (cb : Callback) (x y : Entity) :
  Call cb x y ∈ (Update cm em).2 →
  ∃ cx px sx cy py sy h,
    getComponents em x = Some (cx, px, sx)
    ∧ getComponents em y = Some (cy, py, sy)
    ∧ getHandler cm (Group cx) (Group cy) = Some h
    ∧ ((Tested x y true ∈ (Update cm em).2
        ∧ (Enter h = Some cb ∨ Stay h = Some cb))
       ∨ (Leave h = Some cb
          ∧ ∃ k, parseCollisionKey k = (x, y)
                 ∧ is_Some (previousCollisions cm !! k)
                 ∧ previousCollisions (Update cm em).1 !! k = None)).
Proof.
  destruct (Update_events cm em) as [Hevs _]. rewrite Hevs at 1.
  intros [Hin|(k & cx & px & sx & cy & py & sy & h & Hk & Hcur & Hparse
               & Hx & Hy & Hh & Hleave)]%closing_calls.
  - cbn [snd] in Hin.
    destruct (detect_calls_justified _ _ _ Hin)
      as (Htest & h & (_ & _ & ca & pa & sa & cb' & pb & sb & Hx & Hy & Hh & _) & Hcb).
    exists ca, pa, sa, cb', pb, sb, h.
    split; [done|]. split; [done|]. split; [done|]. left.
    split; [by apply tested_in_Update | done].
  - exists cx, px, sx, cy, py, sy, h.
    split; [done|]. split; [done|]. split; [done|]. right.
    split; [done|]. exists k. split; [done|]. split.
    + apply list_elem_of_fmap in Hk as ([k' v] & -> & Hkv).
      apply elem_of_map_to_list in Hkv. cbn [fst] in *.
      destruct (detect_tracked k') as [?|Hc]; [by eauto | done|].
      rewrite Hcur in Hc. by destruct Hc.
    + rewrite Update_tracked, Hcur.
      by rewrite decide_False by (by intros [? ?]).
Qed.

Lemma calls_on_nil (a b : Entity) (evs : list Event) :
  (∀ cb, Call cb a b ∉ evs) → calls_on a b evs = [].
Proof.
  induction evs as [|ev evs IH]; intros Hno; [done|].
  unfold calls_on in *. cbn [omap list_omap].
  rewrite IH by (intros cb Hin; apply (Hno cb); by right).
  destruct ev as [x y hit|f x y]; [done|].
  destruct (N.eqb_spec x a) as [->|]; [|done].
  destruct (N.eqb_spec y b) as [->|]; [|done].
  destruct (Hno f). by left.
Qed.

(** X24: when one entity of a pair is no longer collidable (removed, or
    without its collider, position or size), a tick calls nothing on the
    pair, not even Leave, and the key of the pair is not tracked after
    the tick. *)
Theorem Update_forgets_a_gone_pair_without_Leave (a b : Entity) :
  getComponents em a = None ∨ getComponents em b = None →
  calls_on a b (Update cm em).2 = []
  ∧ previousCollisions (Update cm em).1 !! collisionKey a b = None.
Proof.
  intros Hgone. split.
  - apply calls_on_nil. intros cb Hin.
    destruct (Update_events cm em) as [Hevs _]. rewrite Hevs in Hin.
    apply closing_calls in Hin
      as [Hin|(k & cx & px & sx & cy & py & sy & h & _ & _ & _ & Hx & Hy & _)].
    + apply detect_calls_justified in Hin
        as (_ & h & (_ & _ & ca & pa & sa & cb' & pb & sb & Hx & Hy & _) & _).
      destruct Hgone as [Hg|Hg]; congruence.
    + destruct Hgone as [Hg|Hg]; congruence.
  - rewrite Update_tracked.
    destruct (decide (is_Some (currentCollisions (detect cm em) !! collisionKey a b)))
      as [Hcur|]; [|done].
    apply detect_current in Hcur as (a' & b' & Hkey & Hin).
    apply collisionKey_inj in Hkey as [-> ->].
    apply detect_tests_justified in Hin
      as (_ & h & _ & _ & ca & pa & sa & cb' & pb & sb & Hx & Hy & _).
    destruct Hgone as [Hg|Hg]; congruence.
Qed.

End TickFacts.

Lemma Update_tests_only_pairs_with_a_handler_witness :
  Collision.Tested 1 2 true ∈ (Collision.Update npc_manager (two_npcs 5)).2
  ∧ (1%N ≠ 2%N
     ∧ ∃ h, Collision.pair_state npc_manager (two_npcs 5) 1 2 h true).
Proof.
  assert (Hin : Collision.Tested 1 2 true
                ∈ (Collision.Update npc_manager (two_npcs 5)).2).
  { apply (list_elem_of_lookup_2 _ 2). vm_compute. reflexivity. }
  split; [exact Hin|].
  exact (Update_tests_only_pairs_with_a_handler npc_manager (two_npcs 5)
           1 2 true Hin).
Defined.

Lemma Update_without_handlers_does_nothing_witness :
  (Collision.Update Collision.NewCollisionManager (two_npcs 5)).2 = []
  ∧ Collision.previousCollisions
      (Collision.Update Collision.NewCollisionManager (two_npcs 5)).1 = ∅.
Proof.
  apply Update_without_handlers_does_nothing.
  intros ga gb. reflexivity.
Defined.

Lemma Update_calls_only_registered_callbacks_witness :
  ∃ cx px sx cy py sy h,
    Collision.getComponents (two_npcs 5) 1 = Some (cx, px, sx)
    ∧ Collision.getComponents (two_npcs 5) 2 = Some (cy, py, sy)
    ∧ Collision.getHandler npc_manager (Group cx) (Group cy) = Some h
    ∧ ((Collision.Tested 1 2 true ∈ (Collision.Update npc_manager (two_npcs 5)).2
        ∧ (Collision.Enter h = Some "enter" ∨ Collision.Stay h = Some "enter"))
       ∨ (Collision.Leave h = Some "enter"
          ∧ ∃ k, Collision.parseCollisionKey k = (1%N, 2%N)
                 ∧ is_Some (Collision.previousCollisions npc_manager !! k)
                 ∧ Collision.previousCollisions
                     (Collision.Update npc_manager (two_npcs 5)).1 !! k = None)).
Proof.
  apply (Update_calls_only_registered_callbacks npc_manager (two_npcs 5)
           "enter" 1 2).
  apply (list_elem_of_lookup_2 _ 3). vm_compute. reflexivity.
Defined.

(** Entity 2 of [two_npcs] without its collider. *)
Lemma Update_forgets_a_gone_pair_without_Leave_witness :
  let em := RemoveComponent 2 "collider" (two_npcs 5) in
  let cm := (Collision.Update npc_manager (two_npcs 5)).1 in
  is_Some (Collision.previousCollisions cm !! Collision.collisionKey 1 2)
  ∧ Collision.calls_on 1 2 (Collision.Update cm em).2 = []
  ∧ Collision.previousCollisions (Collision.Update cm em).1
      !! Collision.collisionKey 1 2 = None.
Proof.
  intros em cm. split; [vm_compute; eauto|].
  apply (Update_forgets_a_gone_pair_without_Leave cm em 1 2).
  right. vm_compute. reflexivity.
Defined.

(** ** Collision keys *)

Section KeyFacts.

Import Collision.

(** X25: the key of an ordered pair of [uint32] entities reads back as
    this pair, and two ordered pairs with the same key are the same
    pair. *)
Theorem collision_key_reads_back (a b : Entity) :
  is_uint32 a → is_uint32 b →
  parseCollisionKey (collisionKey a b) = (a, b)
  ∧ (∀ a' b', collisionKey a' b' = collisionKey a b → a' = a ∧ b' = b).
Proof.
  intros Ha Hb. split; [by apply parseCollisionKey_collisionKey|].
  intros a' b'. apply collisionKey_inj.
Qed.

Lemma collision_key_reads_back_witness :
  parseCollisionKey (collisionKey 4294967295 7) = (4294967295%N, 7%N)
  ∧ (∀ a' b', collisionKey a' b' = collisionKey 4294967295 7 →
              a' = 4294967295%N ∧ b' = 7%N).
Proof.
  apply (collision_key_reads_back 4294967295 7);
    unfold is_uint32, uint32_mod; lia.
Defined.

End KeyFacts.

(** * Further properties of the physics system *)

Section Solids.

Import Physics.

Variables (em : ECSManager) (entity : Entity).
Variables (pos : PositionComponent) (size : SizeComponent).

(** The loop of [CheckIfColliding] answers true iff some listed entity
    other than [entity], with a position and a size, is hit by one of the
    two tests. *)
Lemma check_solids_true (newx newy : float) (l : list Entity) :
  check_solids em entity pos size newx newy l = true
  ↔ ∃ other op os,
      other ∈ l ∧ other ≠ entity
      ∧ GetComponent em other "position" = PtrPosition op
      ∧ GetComponent em other "size" = PtrSize os
      ∧ (isColliding newx (pY pos) size op os = true
         ∨ isColliding (pX pos) newy size op os = true).
Proof.
  induction l as [|other l IH]; cbn [check_solids].
  - split; [done|]. intros (other & op & os & Hin & _). inversion Hin.
  - assert (Hrest : check_solids em entity pos size newx newy l = true →
              ∃ other' op os,
                other' ∈ other :: l ∧ other' ≠ entity
                ∧ GetComponent em other' "position" = PtrPosition op
                ∧ GetComponent em other' "size" = PtrSize os
                ∧ (isColliding newx (pY pos) size op os = true
                   ∨ isColliding (pX pos) newy size op os = true)).
    { intros (o & op & os & Hin & Hrest)%IH. exists o, op, os.
      split; [by right | done]. }
    destruct (N.eqb_spec other entity) as [->|Hne].
    + split; [done|].
      intros (o & op & os & [->|Hin]%elem_of_cons & Ho & Hrest'); [done|].
      apply IH. by exists o, op, os.
    + destruct (GetComponent em other "position") as [| p | | | | | | |] eqn:Hp;
        try (split; [done|];
             intros (o & op & os & [->|Hin]%elem_of_cons & Ho & Hp' & Hrest');
             [congruence | apply IH; by exists o, op, os]).
      destruct (GetComponent em other "size") as [| | | s | | | | |] eqn:Hs;
        try (split; [done|];
             intros (o & op & os & [->|Hin]%elem_of_cons & Ho & Hp' & Hs' & Hrest');
             [congruence | apply IH; by exists o, op, os]).
      destruct (isColliding newx (pY pos) size p s
                || isColliding (pX pos) newy size p s) eqn:Hhit.
      * split; [|done]. intros _. exists other, p, s.
        split; [by left|]. split; [done|]. split; [done|]. split; [done|].
        by apply orb_true_iff.
      * split; [done|].
        intros (o & op & os & [->|Hin]%elem_of_cons & Ho & Hp' & Hs' & Hor).
        -- rewrite Hp in Hp'. rewrite Hs in Hs'.
           injection Hp' as <-. injection Hs' as <-.
           apply orb_true_iff in Hor. congruence.
        -- apply IH. by exists o, op, os.
Qed.

(** Against obstacles that none of the two tests hits, the loop variables
    of [processEntity] do not change. *)
Lemma foldl_bump_free (obs : list (PositionComponent * SizeComponent))
    (m : Motion) :
  (∀ o, o ∈ obs →
     isColliding (newX m) (pY pos) size o.1 o.2 = false
     ∧ isColliding (pX pos) (newY m) size o.1 o.2 = false) →
  foldl (bump pos size) m obs = m.
Proof.
  induction obs as [|o obs IH]; intros Hfree; [done|].
  cbn [foldl].
  assert (Hbump : bump pos size m o = m).
  { destruct (Hfree o) as [HX HY]; [by left|]. unfold bump. by rewrite HX, HY. }
  rewrite Hbump. apply IH. intros o' Hin. apply Hfree. by right.
Qed.

End Solids.

Section CheckIfColliding.

Import Physics.

(** X26: [CheckIfColliding] answers true iff the entity has a position
    and a size and some other entity listed as solid, with a position and
    a size, is hit when the entity moves to the new abscissa at its
    present ordinate, or to the new ordinate at its present abscissa. The
    two moves are tested apart, the point (newx, newy) itself is not
    tested, and a "solidexclude" component of the entity plays no part. *)
Theorem CheckIfColliding_tests_each_axis_apart (em : ECSManager)
    (entity : Entity) (newx newy : float) :
  CheckIfColliding entity newx newy em = true
  ↔ ∃ pos size other op os,
      GetComponent em entity "position" = PtrPosition pos
      ∧ GetComponent em entity "size" = PtrSize size
      ∧ other ∈ GetEntitiesWithComponents em ["position"; "size"; "solid"]
      ∧ other ≠ entity
      ∧ GetComponent em other "position" = PtrPosition op
      ∧ GetComponent em other "size" = PtrSize os
      ∧ (isColliding newx (pY pos) size op os = true
         ∨ isColliding (pX pos) newy size op os = true).
Proof.
  unfold CheckIfColliding. split.
  - destruct (GetComponent em entity "position") as [| pos | | | | | | |];
      try done.
    destruct (GetComponent em entity "size") as [| | | size | | | | |];
      try done.
    intros (other & op & os & Hrest)%check_solids_true.
    by exists pos, size, other, op, os.
  - intros (pos & size & other & op & os & -> & -> & Hrest).
    apply check_solids_true. by exists other, op, os.
Qed.

(** X27: when [CheckIfColliding] answers false for the point an entity
    would reach in one step, [processEntity] moves the entity to this
    point and keeps its velocity, gravity added: no obstacle rejects any
    of the two moves. *)
Theorem processEntity_moves_freely_when_nothing_collides
    (Gravity deltaTime : float) (em : ECSManager) (e : Entity)
    (pos : PositionComponent) (vel : VelocityComponent) (size : SizeComponent) :
  GetComponent em e "position" = PtrPosition pos →
  GetComponent em e "velocity" = PtrVelocity vel →
  GetComponent em e "size" = PtrSize size →
  CheckIfColliding e
    (newX (start_motion Gravity deltaTime pos vel))
    (newY (start_motion Gravity deltaTime pos vel)) em = false →
  position_of (processEntity Gravity e deltaTime em) e
  = Some {| pX := (pX pos + vX vel * deltaTime)%float;
            pY := (pY pos + (vY vel + Gravity * deltaTime) * deltaTime)%float |}
  ∧ velocity_of (processEntity Gravity e deltaTime em) e
    = Some {| vX := vX vel; vY := (vY vel + Gravity * deltaTime)%float |}.
Proof.
  intros Hpos Hvel Hsize Hfree.
  destruct (processEntity_commits Gravity deltaTime em e pos vel size
              Hpos Hvel Hsize) as [-> ->].
  assert (Hfinal : final_motion Gravity deltaTime em e pos vel size
                   = start_motion Gravity deltaTime pos vel).
  { unfold final_motion. apply foldl_bump_free. intros [op os] Hin.
    unfold seen_obstacles in Hin.
    apply list_elem_of_omap in Hin as (other & Hother & Hobs).
    apply (conj Hother), obstacle_faces in Hobs
      as (_ & Hne & _ & Hop & Hos).
    unfold CheckIfColliding in Hfree. rewrite Hpos, Hsize in Hfree.
    cbn [fst snd].
    destruct (isColliding (newX (start_motion Gravity deltaTime pos vel))
                (pY pos) size op os) eqn:HX;
      [|destruct (isColliding (pX pos)
                    (newY (start_motion Gravity deltaTime pos vel)) size op os)
          eqn:HY; [|done]].
    - assert (Htrue : check_solids em e pos size
                (newX (start_motion Gravity deltaTime pos vel))
                (newY (start_motion Gravity deltaTime pos vel))
                (GetEntitiesWithComponents em ["position"; "size"; "solid"])
              = true).
      { apply check_solids_true. exists other, op, os. eauto 10. }
      congruence.
    - assert (Htrue : check_solids em e pos size
                (newX (start_motion Gravity deltaTime pos vel))
                (newY (start_motion Gravity deltaTime pos vel))
                (GetEntitiesWithComponents em ["position"; "size"; "solid"])
              = true).
      { apply check_solids_true. exists other, op, os. eauto 10. }
      congruence. }
  by rewrite Hfinal.
Qed.

Lemma processEntity_moves_freely_when_nothing_collides_witness :
  let em := contact_scenario {| vX := -100; vY := 0 |} in
  position_of (processEntity 0 1 tick_seconds em) 1
  = Some {| pX := (0 + -100 * tick_seconds)%float;
            pY := (0 + (0 + 0 * tick_seconds) * tick_seconds)%float |}
  ∧ velocity_of (processEntity 0 1 tick_seconds em) 1
    = Some {| vX := -100; vY := (0 + 0 * tick_seconds)%float |}.
Proof.
  intros em.
  apply (processEntity_moves_freely_when_nothing_collides 0 tick_seconds em 1
           {| pX := 0; pY := 0 |} {| vX := -100; vY := 0 |} box10);
    vm_compute; reflexivity.
Defined.

End CheckIfColliding.

Section Frame.

Import Physics.

Lemma SetComponent_frame (e : Entity) (n : string) (c : Component)
    (em : ECSManager) :
  lastEntityID (SetComponent e n c em) = lastEntityID em
  ∧ entities (SetComponent e n c em) = entities em
  ∧ indentToEntity (SetComponent e n c em) = indentToEntity em.
Proof. unfold SetComponent. by destruct (components em !! e). Qed.

(** Overwriting a component that is there adds no name to any store. *)
Lemma SetComponent_keeps_names (e : Entity) (n : string) (c : Component)
    (em : ECSManager) :
  GetComponent em e n ≠ NilVal →
  ∀ e' names, carries_all (SetComponent e n c em) names e'
              = carries_all em names e'.
Proof.
  intros Hthere e' names. unfold SetComponent, GetComponent, carries_all in *.
  destruct (components em !! e) as [cm|] eqn:Hcm; [|done]. cbn.
  destruct (decide (e' = e)) as [->|Hne].
  - rewrite lookup_insert_eq, Hcm.
    assert (Hn : is_Some (cm !! n))
      by (destruct (cm !! n); [eauto | done]).
    apply eq_true_iff_eq. rewrite !has_all_spec.
    split; intros Hall n' Hn'.
    + specialize (Hall n' Hn').
      destruct (decide (n' = n)) as [->|Hne']; [done|].
      by rewrite lookup_insert_ne in Hall.
    + destruct (decide (n' = n)) as [->|Hne'].
      * rewrite lookup_insert_eq. eauto.
      * rewrite lookup_insert_ne by done. by apply Hall.
  - by rewrite lookup_insert_ne.
Qed.

(** X28: [processEntity] changes nothing but the position and the velocity
    of its own entity. The counter, the entity list and the identifiers
    are as before; every component of another entity, and every component
    of the entity other than "position" and "velocity", reads as before;
    no component is added or removed, so every query has the entities it
    had. *)
Theorem processEntity_changes_only_its_entity (Gravity deltaTime : float)
    (e : Entity) (em : ECSManager) :
  let em' := processEntity Gravity e deltaTime em in
  lastEntityID em' = lastEntityID em
  ∧ entities em' = entities em
  ∧ indentToEntity em' = indentToEntity em
  ∧ (∀ e' n, e' ≠ e ∨ (n ≠ "position" ∧ n ≠ "velocity") →
       GetComponent em' e' n = GetComponent em e' n)
  ∧ (∀ names e', e' ∈ GetEntitiesWithComponents em' names
                 ↔ e' ∈ GetEntitiesWithComponents em names).
Proof.
  intros em'. subst em'. unfold processEntity.
  destruct (GetComponent em e "position") as [| pos | | | | | | |] eqn:Hpos;
    try done.
  destruct (GetComponent em e "velocity") as [| | vel | | | | | |] eqn:Hvel;
    try done.
  destruct (GetComponent em e "size") as [| | | size | | | | |]; try done.
  cbv zeta.
  match goal with
  | |- context [SetComponent e "position" ?p (SetComponent e "velocity" ?v em)] =>
      generalize p v
  end.
  intros p v.
  destruct (SetComponent_frame e "velocity" v em) as (Hc & He & Hi).
  destruct (SetComponent_frame e "position" p (SetComponent e "velocity" v em))
    as (Hc' & He' & Hi').
  split; [congruence|]. split; [congruence|]. split; [congruence|]. split.
  - intros e' n Hother.
    rewrite !GetComponent_SetComponent_ne; [done | |];
      (destruct Hother as [?|[? ?]]; [by left | by right]).
  - intros names e'. rewrite !elem_of_GetEntitiesWithComponents, He', He.
    rewrite !SetComponent_keeps_names; [done | by rewrite Hvel |].
    rewrite GetComponent_SetComponent_ne by (by right). by rewrite Hpos.
Qed.

End Frame.

(** * Properties of the animations *)

Section AnimationFacts.

Import Animations.

Lemma int_wrap_small (z : Z) :
  (-9223372036854775808 ≤ z < 9223372036854775808)%Z → int_wrap z = z.
Proof. intros Hz. unfold int_wrap. rewrite Z.mod_small; lia. Qed.

(** The loop keeps the frames and the index in range. *)
Lemma advance_in_range (fuel : nat) (a a' : Animation) :
  (len_frames a < 9223372036854775808)%Z →
  frame_in_range a →
  advance fuel a = Some a' →
  frame_in_range a' ∧ frames a' = frames a.
Proof.
  revert a. induction fuel as [|fuel IH]; intros a Hlen Hin; [done|].
  cbn [advance].
  destruct (frameDuration a <=? elapsedTime a)%float; [|by intros [= <-]].
  destruct Hin as [Hnil|Hin].
  { assert (Hzero : len_frames a = 0%Z) by (unfold len_frames; by rewrite Hnil).
    assert (Hkeep : ∀ b, frames b = frames a → advance fuel b = Some a' →
              frame_in_range a' ∧ frames a' = frames a).
    { intros b Hb Hadv. apply IH in Hadv as [? ->]; [done | |].
      - unfold len_frames. rewrite Hb. apply Hlen.
      - left. by rewrite Hb. }
    destruct (len_frames a <=? int_wrap (currentFrame a + 1))%Z;
      [destruct (loop a)|].
    - by apply Hkeep.
    - intros [= <-]. split; [by left | done].
    - by apply Hkeep. }
  rewrite (int_wrap_small (currentFrame a + 1)) by lia.
  destruct (Z.leb_spec (len_frames a) (currentFrame a + 1)) as [Hend|Hmore];
    [destruct (loop a)|].
  - intros Hadv. apply IH in Hadv as [? ->]; [done | done |].
    right. cbn. unfold len_frames in *. cbn. lia.
  - intros [= <-]. split; [|done]. right. cbn.
    rewrite int_wrap_small by lia. unfold len_frames in *. cbn. lia.
  - intros Hadv. apply IH in Hadv as [? ->]; [done | done |].
    right. cbn. unfold len_frames in *. cbn. lia.
Qed.

(** A loop that does not start over ends within as many rounds as there
    are frames left. *)
Lemma advance_returns (fuel : nat) (a : Animation) :
  loop a = false →
  (len_frames a < 9223372036854775808)%Z →
  (0 ≤ currentFrame a < len_frames a)%Z →
  (len_frames a - currentFrame a ≤ Z.of_nat fuel)%Z →
  ∃ a', advance fuel a = Some a'.
Proof.
  revert a. induction fuel as [|fuel IH]; intros a Hloop Hlen Hin Hfuel; [lia|].
  cbn [advance].
  destruct (frameDuration a <=? elapsedTime a)%float; [|by eauto].
  rewrite (int_wrap_small (currentFrame a + 1)) by lia.
  destruct (Z.leb_spec (len_frames a) (currentFrame a + 1)) as [Hend|Hmore].
  - rewrite Hloop. eauto.
  - apply IH; unfold len_frames in *; cbn; [done | lia | lia | lia].
Qed.

Lemma DrawAnimation_in_range (a : Animation) :
  frame_in_range a → ∃ o, DrawAnimation a = Ok o.
Proof.
  unfold DrawAnimation. intros [->|Hin]; [by eauto|].
  destruct (frames a) as [|img imgs] eqn:Hframes; [by eauto|].
  destruct (Z.ltb_spec (currentFrame a) 0) as [|_]; [lia|].
  destruct (lookup_lt_is_Some_2 (img :: imgs) (Z.to_nat (currentFrame a)))
    as [img' ->]; [|by eauto].
  unfold len_frames in Hin. rewrite Hframes in Hin. lia.
Qed.

(** X29: [UpdateAnimation] keeps the frame index in range. From an
    animation whose index names a frame, every result of an update has
    the same frames and an index that names a frame, so that
    [DrawAnimation] does not panic on it; the same holds after [Reset].
    An animation that does not loop is updated within as many rounds of
    the loop as it has frames. *)
Theorem UpdateAnimation_keeps_the_frame_in_range (dt : float) (a : Animation) :
  (len_frames a < 9223372036854775808)%Z →
  frame_in_range a →
  (∀ fuel a', UpdateAnimation fuel dt a = Some a' →
     frame_in_range a' ∧ frames a' = frames a
     ∧ ∃ o, DrawAnimation a' = Ok o)
  ∧ (∃ o, DrawAnimation (Reset a) = Ok o)
  ∧ (loop a = false →
     ∃ a', UpdateAnimation (length (frames a)) dt a = Some a').
Proof.
  intros Hlen Hin. split; [|split].
  - intros fuel a'. unfold UpdateAnimation.
    destruct (completed a && negb (loop a) || (dt <=? 0)%float
              || (len_frames a =? 0)%Z).
    + intros [= <-]. split; [done|]. split; [done|].
      by apply DrawAnimation_in_range.
    + intros Hadv. apply advance_in_range in Hadv as [Hin' Hframes];
        [|done|done].
      split; [done|]. split; [done|]. by apply DrawAnimation_in_range.
  - apply DrawAnimation_in_range. destruct Hin as [Hnil|Hin]; [by left|].
    right. unfold len_frames in *. cbn. lia.
  - intros Hloop. unfold UpdateAnimation.
    destruct (completed a && negb (loop a) || (dt <=? 0)%float) eqn:Hskip;
      cbn [orb]; [by eauto|].
    destruct (Z.eqb_spec (len_frames a) 0) as [|Hsome]; [by eauto|].
    destruct Hin as [Hnil|Hin];
      [unfold len_frames in Hsome; by rewrite Hnil in Hsome|].
    apply advance_returns; unfold len_frames in *; cbn; [done | lia | lia | lia].
Qed.

Lemma UpdateAnimation_keeps_the_frame_in_range_witness :
  let a := {| frames := [7%N; 8%N]; frameDuration := 1; currentFrame := 0;
              elapsedTime := 0; loop := false; completed := false |} in
  (∀ fuel a', UpdateAnimation fuel 5 a = Some a' →
     frame_in_range a' ∧ frames a' = frames a
     ∧ ∃ o, DrawAnimation a' = Ok o)
  ∧ (∃ o, DrawAnimation (Reset a) = Ok o)
  ∧ (loop a = false →
     ∃ a', UpdateAnimation (length (frames a)) 5 a = Some a').
Proof.
  intros a. apply (UpdateAnimation_keeps_the_frame_in_range 5 a).
  - vm_compute. reflexivity.
  - right. unfold len_frames. cbn. lia.
Defined.

(** A looping animation whose frame duration leaves the elapsed time as it
    is and does not exceed it goes round the loop for ever. *)
Lemma advance_never_returns (fuel : nat) (a : Animation) :
  loop a = true →
  (frameDuration a <=? elapsedTime a)%float = true →
  (elapsedTime a - frameDuration a)%float = elapsedTime a →
  advance fuel a = None.
Proof.
  revert a. induction fuel as [|fuel IH]; intros a Hloop Hle Hsame; [done|].
  cbn [advance]. rewrite Hle, Hloop, Hsame.
  destruct (len_frames a <=? int_wrap (currentFrame a + 1))%Z;
    by apply IH.
Qed.

(** X30: [UpdateAnimation] does not return on a looping animation, with
    frames, whose frame duration is at most the elapsed time and leaves it
    unchanged when subtracted, as a duration of zero does: the loop runs
    for ever, whatever the number of rounds allowed. *)
Theorem UpdateAnimation_never_returns_on_a_zero_duration (dt : float)
    (a : Animation) :
  loop a = true →
  frames a ≠ [] →
  (dt <=? 0)%float = false →
  (frameDuration a <=? elapsedTime a + dt)%float = true →
  (elapsedTime a + dt - frameDuration a)%float = (elapsedTime a + dt)%float →
  ∀ fuel, UpdateAnimation fuel dt a = None.
Proof.
  intros Hloop Hframes Hdt Hle Hsame fuel. unfold UpdateAnimation.
  rewrite Hloop, Hdt, andb_false_r. cbn [orb negb].
  destruct (Z.eqb_spec (len_frames a) 0) as [Hzero|_].
  - unfold len_frames in Hzero. destruct (frames a); [done | cbn in Hzero; lia].
  - by apply advance_never_returns.
Qed.

Lemma UpdateAnimation_never_returns_on_a_zero_duration_witness :
  UpdateAnimation 1000 tick_seconds
    {| frames := [7%N; 8%N]; frameDuration := 0; currentFrame := 0;
       elapsedTime := 0; loop := true; completed := false |} = None.
Proof.
  apply (UpdateAnimation_never_returns_on_a_zero_duration tick_seconds
           {| frames := [7%N; 8%N]; frameDuration := 0; currentFrame := 0;
              elapsedTime := 0; loop := true; completed := false |});
    vm_compute; (reflexivity || discriminate).
Defined.

End AnimationFacts.
